(** * unblock: a breadth-first solver for a 6x6 sliding-block puzzle

    Shallow embedding of [src/unblock.cc] and the properties of its
    pieces, states and search engine.

    Conventions of the embedding
    - [int8_t] fields are [Z] values; every store into one goes through
      [wrap8]; [int] values are plain [Z]; [size_t] arithmetic is taken
      modulo [2^64].
    - [exit(1)] and undefined behaviour (an access outside [DrawBuf],
      [front()] or [begin() + 1] on an empty vector) are the two failure
      outcomes of the [res] monad.
    - the [while] loops of [Solve] and [TracePathTo] take fuel; [None]
      means the fuel ran out, never a result of the program.  The
      properties of [Solve] are proved with the fuel that suffices.
    - a State of the specification satisfies the invariant of its data
      model, [valid_state]: a goal piece exists, every piece has at least
      one cell and lies within the grid, no two pieces overlap.
    - the model fixes what the C++ standard leaves to the library: the
      order of ties after [std::sort], the order of the entries of the
      [unordered_map].  [Library] and the definitions named [_with] leave
      it open, with the map of backpointers as [TracePathTo] leaves it;
      [Solve_deterministic] shows that from a State of the specification
      the output of [Solve] is the same with every library. *)

From stdpp Require Import base numbers list sorting gmap strings pretty.
From Stdlib Require Import Ascii ZArith Lia.

Local Open Scope Z_scope.

(** ** Outcomes of a call *)

Inductive res (A : Type) : Type :=
  | Ret (a : A)      (* normal return *)
  | Abort            (* the process ended in exit(1) *)
  | Undef.           (* undefined behaviour *)
Arguments Ret {A} a.
Arguments Abort {A}.
Arguments Undef {A}.

(** Sequencing: a failure ends the computation.  With this instance the
    notation [x ← m; k] reads as the statement [x = m; k]. *)
#[global] Instance res_bind : MBind res := λ A B k m,
  match m with
  | Ret a => k a
  | Abort => Abort
  | Undef => Undef
  end.

(** ** Constants and the draw buffer *)

Definition kHashMult : Z := 31.
Definition kBoardSize : Z := 6.
Definition kEmpty : ascii := "."%char.

(** [typedef char DrawBuf[kBoardSize][kBoardSize]]: rows indexed by y. *)
Abbreviation DrawBuf := (list (list ascii)).

Definition in_grid (v : Z) : bool := (0 <=? v) && (v <? kBoardSize).

(** [buf[y][x]] as an rvalue. *)
Definition buf_get (buf : DrawBuf) (y x : Z) : res ascii :=
  if in_grid y && in_grid x then
    match buf !! Z.to_nat y with
    | Some row =>
        match row !! Z.to_nat x with
        | Some c => Ret c
        | None => Undef
        end
    | None => Undef
    end
  else Undef.

(** The store [buf[y][x] = c] through the pointer to the buffer. *)
Definition buf_set (buf : DrawBuf) (y x : Z) (c : ascii) : DrawBuf :=
  match buf !! Z.to_nat y with
  | Some row => <[Z.to_nat y := <[Z.to_nat x := c]> row]> buf
  | None => buf
  end.

(** [memset(b, kEmpty, sizeof( *b))]. *)
Definition empty_buf : DrawBuf :=
  replicate (Z.to_nat kBoardSize) (replicate (Z.to_nat kBoardSize) kEmpty).

(** ** Pieces *)

Inductive Orient : Type := kHoriz | kVert.

Record Piece : Type := mkPiece {
  x : Z;          (* int8_t *)
  y : Z;          (* int8_t *)
  size : Z;       (* int8_t *)
  orient : Orient
}.

(** Conversion of an [int] to [int8_t]. *)
Definition wrap8 (v : Z) : Z := (v + 128) mod 256 - 128.

(** [Piece(int x_, int y_, int size_, Orient orient_)]. *)
Definition Piece_new (x_ y_ size_ : Z) (orient_ : Orient) : Piece :=
  mkPiece (wrap8 x_) (wrap8 y_) (wrap8 size_) orient_.

Definition Orient_to_Z (o : Orient) : Z :=
  match o with kHoriz => 0 | kVert => 1 end.

Definition wrap64 (v : Z) : Z := v mod 2 ^ 64.

(** [Piece::hash]. *)
Definition Piece_hash (p : Piece) : Z :=
  wrap64 (x p + kHashMult * (y p + kHashMult * (size p + kHashMult * Orient_to_Z (orient p)))).

(** [Piece::operator<]. *)
Definition Piece_lt (p other : Piece) : bool :=
  (y p <? y other) || ((y p =? y other) && (x p <? x other)).

Definition Orient_eqb (a b : Orient) : bool :=
  match a, b with
  | kHoriz, kHoriz | kVert, kVert => true
  | _, _ => false
  end.

(** [Piece::operator==]. *)
Definition Piece_eqb (p other : Piece) : bool :=
  (x p =? x other) && (y p =? y other) && (size p =? size other)
  && Orient_eqb (orient p) (orient other).

(** The body of the [for] loop of [Piece::Draw], [n] iterations left. *)
Fixpoint Draw_loop (n : nat) (o : Orient) (c : ascii) (cur_x cur_y : Z)
    (buf : DrawBuf) : res DrawBuf :=
  match n with
  | O => Ret buf
  | S n' =>
      cell ← buf_get buf cur_y cur_x;
      if Ascii.eqb cell kEmpty then
        let buf' := buf_set buf cur_y cur_x c in
        match o with
        | kHoriz => Draw_loop n' o c (cur_x + 1) cur_y buf'
        | kVert => Draw_loop n' o c cur_x (cur_y + 1) buf'
        end
      else Abort
  end.

(** [Piece::Draw]. *)
Definition Piece_Draw (p : Piece) (buf : DrawBuf) (c : ascii) : res DrawBuf :=
  Draw_loop (Z.to_nat (size p)) (orient p) c (x p) (y p) buf.

(** The [while] loops of [Piece::MovementRange].  [read cur] is the
    buffer access at the cursor: [buf[y][cur]] for a horizontal piece,
    [buf[cur][x]] for a vertical one.  The loops take fuel; by
    [scan_min_fuel] and [scan_max_fuel] below two units are always enough,
    so the fuel of [MovementRange] never runs out. *)
Fixpoint scan_min (fuel : nat) (read : Z → res ascii) (min_delta cur : Z) : res Z :=
  match fuel with
  | O => Ret min_delta
  | S fuel' =>
      if (min_delta >? -1) && (cur >=? 0) then
        cell ← read cur;
        if Ascii.eqb cell kEmpty then scan_min fuel' read (min_delta - 1) (cur - 1)
        else Ret min_delta
      else Ret min_delta
  end.

Fixpoint scan_max (fuel : nat) (read : Z → res ascii) (max_delta cur : Z) : res Z :=
  match fuel with
  | O => Ret max_delta
  | S fuel' =>
      if (max_delta <? 1) && (cur <? kBoardSize) then
        cell ← read cur;
        if Ascii.eqb cell kEmpty then scan_max fuel' read (max_delta + 1) (cur + 1)
        else Ret max_delta
      else Ret max_delta
  end.

Definition scan_fuel : nat := S (Z.to_nat kBoardSize).

(** [Piece::MovementRange]. *)
Definition MovementRange (p : Piece) (buf : DrawBuf) : res (Z * Z) :=
  match orient p with
  | kHoriz =>
      min_delta ← scan_min scan_fuel (λ cur_x, buf_get buf (y p) cur_x) 0 (x p - 1);
      max_delta ← scan_max scan_fuel (λ cur_x, buf_get buf (y p) cur_x) 0 (x p + size p);
      Ret (min_delta, max_delta)
  | kVert =>
      min_delta ← scan_min scan_fuel (λ cur_y, buf_get buf cur_y (x p)) 0 (y p - 1);
      max_delta ← scan_max scan_fuel (λ cur_y, buf_get buf cur_y (x p)) 0 (y p + size p);
      Ret (min_delta, max_delta)
  end.

(** [Piece::Move].  [delta] is an [int] and [x += delta] takes the sum
    in [int] before it stores it: the definition stands for the calls
    whose sum is an [int] ([Move_defined] below), as the calls of
    [Neighbors] are, with [delta] -1 or 1. *)
Definition Move (p : Piece) (delta : Z) : Piece :=
  match orient p with
  | kHoriz => mkPiece (wrap8 (x p + delta)) (y p) (size p) (orient p)
  | kVert => mkPiece (x p) (wrap8 (y p + delta)) (size p) (orient p)
  end.

(** ** States *)

(** [struct State { vector<Piece> pieces; }]; [State()] is [[]]. *)
Abbreviation State := (list Piece).

(** [State::hash]. *)
Definition State_hash (s : State) : Z :=
  fold_left
    (λ cur piece,
       let cur := wrap64 (cur * kHashMult + Piece_hash piece) in
       Z.lxor cur (wrap64 (Z.shiftl cur 32)))
    s 0.

(** [std::sort] on a range of pieces, ordered by [Piece::operator<]:
    the insertion sort that the standard libraries run on short ranges.
    [insert_piece] walks the sorted range while its elements are smaller
    than [p] or tie with it.  Among pieces that tie the order is the
    choice of the library: the definition stands for [std::sort] on
    ranges without ties, as the pieces of a State that satisfies the
    invariant are, where every sort that keeps to the standard returns
    the same ([std_sort_any]); [Library] below leaves the choice open. *)
Fixpoint insert_piece (p : Piece) (l : list Piece) : list Piece :=
  match l with
  | [] => [p]
  | q :: l' => if Piece_lt p q then p :: q :: l' else q :: insert_piece p l'
  end.

Definition std_sort (l : list Piece) : list Piece :=
  fold_left (λ sorted p, insert_piece p sorted) l [].

(** [State::Canonicalize]: [sort(pieces.begin() + 1, pieces.end())];
    [begin() + 1] is past the end of an empty vector. *)
Definition Canonicalize (s : State) : res State :=
  match s with
  | [] => Undef
  | goal :: rest => Ret (goal :: std_sort rest)
  end.

(** The marker of the piece at index [i] in [State::Draw]:
    ['*'] for the goal piece, [(char)('A' + i)] for the others. *)
Definition marker (i : nat) : ascii :=
  match i with
  | O => "*"%char
  | _ => ascii_of_N (N.of_nat (65 + i) mod 256)
  end.

(** The loop of [State::Draw], from index [i] on. *)
Fixpoint Draw_pieces (i : nat) (ps : list Piece) (buf : DrawBuf) : res DrawBuf :=
  match ps with
  | [] => Ret buf
  | p :: ps' =>
      buf' ← Piece_Draw p buf (marker i);
      Draw_pieces (S i) ps' buf'
  end.

(** [State::Draw]. *)
Definition State_Draw (s : State) : res DrawBuf :=
  Draw_pieces 0 s empty_buf.

(** [State::operator==]. *)
Fixpoint State_eqb (s other : State) : bool :=
  match s, other with
  | [], [] => true
  | p :: s', q :: other' => Piece_eqb p q && State_eqb s' other'
  | _, _ => false
  end.

(** The inner loop of [State::Neighbors] for the piece at index [i]:
    the copies of [s] with that piece moved by every nonzero [delta] of
    [range.first .. range.second], canonicalized. *)
Fixpoint moves_of (s : State) (i : nat) (deltas : list Z) : res (list State) :=
  match deltas with
  | [] => Ret []
  | delta :: deltas' =>
      if decide (delta = 0) then moves_of s i deltas'
      else
        match s !! i with
        | None => Undef
        | Some p =>
            neighbor ← Canonicalize (<[i := Move p delta]> s);
            more ← moves_of s i deltas';
            Ret (neighbor :: more)
        end
  end.

(** The outer loop of [State::Neighbors], from index [i] on. *)
Fixpoint Neighbors_loop (s : State) (b : DrawBuf) (i : nat) (ps : list Piece)
    : res (list State) :=
  match ps with
  | [] => Ret []
  | p :: ps' =>
      '(first, second) ← MovementRange p b;
      here ← moves_of s i (seqZ first (second - first + 1));
      more ← Neighbors_loop s b (S i) ps';
      Ret (here ++ more)
  end.

(** [State::Neighbors]. *)
Definition Neighbors (s : State) : res (list State) :=
  b ← State_Draw s;
  Neighbors_loop s b 0 s.

(** ** The search engine *)

#[global] Instance Orient_eq_dec : EqDecision Orient.
Proof. solve_decision. Defined.

#[global] Instance Piece_eq_dec : EqDecision Piece.
Proof. solve_decision. Defined.

#[global] Instance Piece_countable : Countable Piece.
Proof.
  refine (inj_countable'
    (λ p, (x p, y p, size p, Orient_to_Z (orient p)))
    (λ t, let '(a, b, c, o) := t in
          mkPiece a b c (if decide (o = 0) then kHoriz else kVert)) _).
  by intros [? ? ? []].
Defined.

(** [struct QueueElem]; the counter [moves] is an [int] that only the
    disabled debug trace reads. *)
Record QueueElem : Type := mkQueueElem {
  state : State;
  moves : Z
}.

(** The data members of [class Game]; [prev_state_] is the
    [unordered_map<State, State, StateHash>] of backpointers. *)
Record Game : Type := mkGame {
  start_state_ : State;
  dest_x_ : Z;
  dest_y_ : Z;
  queue_ : list QueueElem;
  prev_state_ : gmap State State
}.

(** [Game(State start_state, int dest_x, int dest_y)]. *)
Definition Game_new (start_state : State) (dest_x dest_y : Z) : Game :=
  mkGame start_state dest_x dest_y [] ∅.

(** [unordered_map::emplace]: no effect when the key is present. *)
Definition emplace (k v : State) (m : gmap State State) : gmap State State :=
  match m !! k with
  | Some _ => m
  | None => <[k := v]> m
  end.

(** [Game::TracePathTo]; [sequence] is reversed on return.  The walk
    moves each backpointer out of the map as it reads it.  Here the map
    is passed unchanged, which gives the same result whenever this walk
    ends, as every walk of [Solve] on a fresh [Game] does
    ([TracePathTo_moved_agrees]); [TracePathTo_moved] below has the map
    as the code leaves it. *)
Fixpoint TracePathTo_loop (fuel : nat) (prev : gmap State State)
    (s : State) (sequence : list State) : option (res (list State)) :=
  match fuel with
  | O => None
  | S fuel' =>
      match s with
      | [] => Some (Ret (reverse sequence))
      | _ =>
          let sequence := sequence ++ [s] in
          match prev !! s with
          | None => Some Abort
          | Some s' => TracePathTo_loop fuel' prev s' sequence
          end
      end
  end.

Definition TracePathTo (fuel : nat) (prev : gmap State State)
    (final_state : State) : option (res (list State)) :=
  TracePathTo_loop fuel prev final_state [].

(** The body of [for (auto new_state : elem.state.Neighbors())]. *)
Definition visit (elem : QueueElem) (acc : list QueueElem * gmap State State)
    (new_state : State) : list QueueElem * gmap State State :=
  let '(queue, prev) := acc in
  match prev !! new_state with
  | Some _ => (queue, prev)
  | None =>
      (queue ++ [mkQueueElem new_state (moves elem + 1)],
       <[new_state := state elem]> prev)
  end.

(** The [while (!queue_.empty())] loop of [Game::Solve]. *)
Fixpoint Solve_loop (fuel : nat) (dest_x dest_y : Z)
    (queue : list QueueElem) (prev : gmap State State)
    : option (res (list State)) :=
  match fuel with
  | O => None
  | S fuel' =>
      match queue with
      | [] => Some (Ret [])
      | elem :: queue' =>
          match state elem with
          | [] => Some Undef
          | front_piece :: _ =>
              if decide (x front_piece = dest_x ∧ y front_piece = dest_y) then
                TracePathTo fuel' prev (state elem)
              else
                match Neighbors (state elem) with
                | Ret new_states =>
                    let '(queue'', prev') :=
                      fold_left (visit elem) new_states (queue', prev) in
                    Solve_loop fuel' dest_x dest_y queue'' prev'
                | Abort => Some Abort
                | Undef => Some Undef
                end
          end
      end
  end.

(** [Game::Solve], with [fuel] for its two loops. *)
Definition Game_Solve (fuel : nat) (g : Game) : option (res (list State)) :=
  Solve_loop fuel (dest_x_ g) (dest_y_ g)
    (queue_ g ++ [mkQueueElem (start_state_ g) 0])
    (emplace (start_state_ g) [] (prev_state_ g)).

(** The operation the engine offers: a fresh [Game] and one [Solve]. *)
Definition Solve (fuel : nat) (start_state : State) (dest_x dest_y : Z)
    : option (res (list State)) :=
  Game_Solve fuel (Game_new start_state dest_x dest_y).

(** The puzzle of [main]. *)
Definition main_state : State :=
  [ Piece_new 0 2 2 kHoriz; Piece_new 3 0 2 kVert; Piece_new 4 0 2 kHoriz;
    Piece_new 4 1 2 kHoriz; Piece_new 3 2 2 kVert; Piece_new 0 4 2 kVert;
    Piece_new 1 4 2 kVert; Piece_new 3 4 2 kHoriz; Piece_new 5 3 2 kVert ].


(** ** The data-model invariants *)

(** The rectangle of cells a piece occupies: [size] cells from [(x, y)]
    along the orientation axis. *)
Definition width (p : Piece) : Z :=
  match orient p with kHoriz => size p | kVert => 1 end.
Definition height (p : Piece) : Z :=
  match orient p with kHoriz => 1 | kVert => size p end.

Definition covers (p : Piece) (cx cy : Z) : Prop :=
  x p ≤ cx < x p + width p ∧ y p ≤ cy < y p + height p.

(** A piece of at least one cell that lies within the grid. *)
Definition in_bounds (p : Piece) : Prop :=
  0 < size p ∧ 0 ≤ x p ∧ 0 ≤ y p
  ∧ x p + width p ≤ kBoardSize ∧ y p + height p ≤ kBoardSize.

(** Two rectangles that share a cell. *)
Definition overlap (p q : Piece) : Prop :=
  x p < x q + width q ∧ x q < x p + width p
  ∧ y p < y q + height q ∧ y q < y p + height p.

Fixpoint nonoverlapping (s : list Piece) : Prop :=
  match s with
  | [] => True
  | p :: s' => Forall (λ q, ¬ overlap p q) s' ∧ nonoverlapping s'
  end.

(** The State invariant: a goal piece exists, every piece is in bounds,
    no two pieces overlap. *)
Definition valid_state (s : State) : Prop :=
  s ≠ [] ∧ Forall in_bounds s ∧ nonoverlapping s.

#[global] Instance covers_dec p cx cy : Decision (covers p cx cy).
Proof. unfold covers. apply _. Defined.
#[global] Instance in_bounds_dec p : Decision (in_bounds p).
Proof. unfold in_bounds. apply _. Defined.
#[global] Instance overlap_dec p q : Decision (overlap p q).
Proof. unfold overlap. apply _. Defined.
#[global] Instance nonoverlapping_dec s : Decision (nonoverlapping s).
Proof. induction s; simpl; apply _. Defined.
#[global] Instance valid_state_dec s : Decision (valid_state s).
Proof. unfold valid_state. apply _. Defined.

(** The goal test of [Solve]. *)
Definition at_target (s : State) (dest_x dest_y : Z) : Prop :=
  match s with
  | [] => False
  | front_piece :: _ => x front_piece = dest_x ∧ y front_piece = dest_y
  end.

#[global] Instance at_target_dec s dx dy : Decision (at_target s dx dy).
Proof. destruct s; simpl; apply _. Defined.

(** [p] is not after [q] in the order of [Piece::operator<]. *)
Definition Piece_le (p q : Piece) : Prop := Piece_lt q p = false.

(** ** Reference definitions for the properties *)

(** A buffer of [kBoardSize] rows of [kBoardSize] cells. *)
Definition wf_buf (buf : DrawBuf) : Prop :=
  length buf = Z.to_nat kBoardSize
  ∧ Forall (λ row : list ascii, length row = Z.to_nat kBoardSize) buf.

(** The scan as the specification words it: count every contiguous empty
    cell from [cur] on in direction [dir], up to the grid boundary or the
    first cell that is not empty.  A scan visits at most [kBoardSize]
    cells of the grid, which is the [n] it is started with. *)
Fixpoint count_empty (n : nat) (read : Z → res ascii) (dir cur : Z) : res Z :=
  match n with
  | O => Ret 0
  | S n' =>
      if in_grid cur then
        cell ← read cur;
        if Ascii.eqb cell kEmpty then
          k ← count_empty n' read dir (cur + dir);
          Ret (k + 1)
        else Ret 0
      else Ret 0
  end.

(** The movement range of the specification: the full scan on both sides. *)
Definition spec_MovementRange (p : Piece) (buf : DrawBuf) : res (Z * Z) :=
  let read :=
    match orient p with
    | kHoriz => λ cur, buf_get buf (y p) cur
    | kVert => λ cur, buf_get buf cur (x p)
    end in
  let lead := match orient p with kHoriz => x p | kVert => y p end in
  below ← count_empty (Z.to_nat kBoardSize) read (-1) (lead - 1);
  above ← count_empty (Z.to_nat kBoardSize) read 1 (lead + size p);
  Ret (- below, above).

(** The copy of [s] with the piece at index [i] moved by [delta]. *)
Definition slide (s : State) (i : nat) (delta : Z) : State :=
  match s !! i with
  | Some p => <[i := Move p delta]> s
  | None => s
  end.

(** A slide of one cell: one piece goes one cell along its axis to a
    position inside the grid that no other piece occupies. *)
Definition unit_slide (s s' : State) : Prop :=
  ∃ (i : nat) (delta : Z),
    (i < length s)%nat ∧ (delta = -1 ∨ delta = 1)
    ∧ valid_state (slide s i delta)
    ∧ s' = slide s i delta.

(** A move of the search graph: a slide of one cell, then the canonical
    form. *)
Definition unit_move (s s' : State) : Prop :=
  ∃ (i : nat) (delta : Z),
    (i < length s)%nat ∧ (delta = -1 ∨ delta = 1)
    ∧ valid_state (slide s i delta)
    ∧ Canonicalize (slide s i delta) = Ret s'.

(** A slide over any nonzero distance: every position on the way lies
    inside the grid and is free of the other pieces. *)
Definition free_slide (s s' : State) : Prop :=
  ∃ (i : nat) (delta : Z),
    (i < length s)%nat ∧ delta ≠ 0
    ∧ (∀ d, (0 < d ≤ delta ∨ delta ≤ d < 0) → valid_state (slide s i d))
    ∧ s' = slide s i delta.

(** The same goal piece and the same other pieces, in any order. *)
Definition same_layout (s t : State) : Prop :=
  ∃ goal rest rest', s = goal :: rest ∧ t = goal :: rest' ∧ rest ≡ₚ rest'.

(** Consecutive elements of a sequence are related by [R]. *)
Fixpoint linked (R : State → State → Prop) (l : list State) : Prop :=
  match l with
  | a :: (b :: _) as l' => R a b ∧ linked R l'
  | _ => True
  end.

(** [l] leads from [start] to a State with the goal piece on the target. *)
Definition solution (R : State → State → Prop) (start : State)
    (dest_x dest_y : Z) (l : list State) : Prop :=
  head l = Some start ∧ linked R l
  ∧ ∃ final, last l = Some final ∧ at_target final dest_x dest_y.

(** No solution has fewer elements than [path]. *)
Definition shortest (R : State → State → Prop) (start : State)
    (dest_x dest_y : Z) (path : list State) : Prop :=
  ∀ other, solution R start dest_x dest_y other →
    (length path ≤ length other)%nat.

(** A State can be reached from [start] by moves of [R]. *)
Definition reachable (R : State → State → Prop) (start s : State) : Prop :=
  rtc R start s.

(** [buf] is the picture of the pieces [ps]: a cell of the grid is empty
    exactly when no piece of [ps] covers it. *)
Definition rendered (buf : DrawBuf) (ps : list Piece) : Prop :=
  wf_buf buf
  ∧ ∀ cx cy, in_grid cx = true → in_grid cy = true →
      ∃ cell, buf_get buf cy cx = Ret cell
              ∧ (cell = kEmpty ↔ ∀ p, p ∈ ps → ¬ covers p cx cy).

(** Width and height of the run of [n] cells that [Piece::Draw] stamps. *)
Definition run_w (o : Orient) (n : nat) : Z :=
  match o with kHoriz => Z.of_nat n | kVert => 1 end.
Definition run_h (o : Orient) (n : nat) : Z :=
  match o with kHoriz => 1 | kVert => Z.of_nat n end.

(** The cell a piece enters when it moves one cell backward ([delta < 0])
    or forward along its axis. *)
Definition new_cell (p : Piece) (delta : Z) : Z * Z :=
  match orient p with
  | kHoriz => (if decide (delta < 0) then x p - 1 else x p + size p, y p)
  | kVert => (x p, if decide (delta < 0) then y p - 1 else y p + size p)
  end.

(** The canonical form as a function: the goal piece, then the other
    pieces in order. *)
Definition canon (s : State) : State :=
  match s with
  | [] => []
  | goal :: rest => goal :: std_sort rest
  end.

(** The States one cell away from [s] through the piece at index [i],
    the backward move first. *)
Definition moves_from (s : State) (i : nat) : list State :=
  (λ d, canon (slide s i d)) <$> filter (λ d, valid_state (slide s i d)) [-1; 1].

(** The States one cell away from [s], by piece index. *)
Definition neighbors_list (s : State) : list State :=
  i ← seq 0 (length s); moves_from s i.

(** ** The invariant of the search *)

(** Every piece that lies within the grid. *)
Definition all_pieces : list Piece :=
  px ← seqZ 0 kBoardSize; py ← seqZ 0 kBoardSize; sz ← seqZ 1 kBoardSize;
  o ← [kHoriz; kVert]; [mkPiece px py sz o].

(** The lists of at most [k] pieces of [ps]. *)
Fixpoint lists_upto (ps : list Piece) (k : nat) : list State :=
  match k with
  | O => [[]]
  | S k' => [] :: (p ← ps; (cons p) <$> lists_upto ps k')
  end.

(** A finite set that holds every State satisfying the invariant.  It
    is far too large to be computed and is sealed against unfolding. *)
Definition universe_def : gset State :=
  list_to_set (lists_upto all_pieces 36).
Definition universe_aux : seal universe_def.
Proof. by eexists. Qed.
Definition universe : gset State := universe_aux.(unseal).
Definition universe_unseal : universe = universe_def := universe_aux.(seal_eq).

(** The States recorded in [prev_state_] but not in the queue have been
    expanded: they are not solved and their neighbors are recorded. *)
Definition expanded (dest_x dest_y : Z) (depth : State → nat)
    (prev : gmap State State) (s : State) : Prop :=
  ¬ at_target s dest_x dest_y
  ∧ ∀ n, unit_move s n → is_Some (prev !! n) ∧ (depth n ≤ S (depth s))%nat.

(** The invariant of the loop of [Solve]: [pending] is the queue (with,
    in front, the element under expansion if there is one), [depth] the
    number of moves with which each recorded State was reached, [level]
    the depth of the front part of the queue. *)
Record bfs_inv (start : State) (dest_x dest_y : Z) (depth : State → nat)
    (level : nat) (pending : list QueueElem) (prev : gmap State State) : Prop := {
  inv_start : prev !! start = Some [];
  inv_start_depth : depth start = 0%nat;
  inv_valid : ∀ s, is_Some (prev !! s) → valid_state s;
  inv_prev : ∀ s t, prev !! s = Some t → s ≠ start →
      is_Some (prev !! t) ∧ unit_move t s ∧ depth s = S (depth t);
  inv_queue : ∀ e, e ∈ pending →
      is_Some (prev !! state e) ∧ moves e = Z.of_nat (depth (state e));
  inv_levels : ∃ q1 q2, pending = q1 ++ q2
      ∧ Forall (λ e, depth (state e) = level) q1
      ∧ Forall (λ e, depth (state e) = S level) q2;
  inv_bound : ∀ s, is_Some (prev !! s) → (depth s ≤ S level)%nat;
  inv_closed : ∀ s, is_Some (prev !! s) →
      (∃ e, e ∈ pending ∧ state e = s) ∨ expanded dest_x dest_y depth prev s
}.

(** What is left to do: the States not yet recorded and the queue. *)
Definition bfs_measure (queue : list QueueElem) (prev : gmap State State) : nat :=
  (base.size (universe ∖ dom prev) + length queue)%nat.

(** What the search establishes about the sequence it returns. *)
Definition search_result (start : State) (dest_x dest_y : Z)
    (r : list State) : Prop :=
  (r = [] ∧ ∀ s, reachable unit_move start s → ¬ at_target s dest_x dest_y)
  ∨ (solution unit_move start dest_x dest_y r
     ∧ shortest unit_move start dest_x dest_y r).

(** ** Text output *)

(** A [std::string] is the list of its characters; [result += c] appends
    at the end.  The inner loop of [BufToString], over the columns [xs]
    of row [cy]. *)
Fixpoint BufToString_row (buf : DrawBuf) (cy : Z) (xs : list Z)
    (result : list ascii) : res (list ascii) :=
  match xs with
  | [] => Ret result
  | cx :: xs' =>
      c ← buf_get buf cy cx;
      BufToString_row buf cy xs' (result ++ [c])
  end.

(** The outer loop of [BufToString], over the rows [ys]. *)
Fixpoint BufToString_rows (buf : DrawBuf) (ys : list Z)
    (result : list ascii) : res (list ascii) :=
  match ys with
  | [] => Ret result
  | cy :: ys' =>
      result ← BufToString_row buf cy (seqZ 0 kBoardSize) result;
      BufToString_rows buf ys' (result ++ ["010"%char])
  end.

(** [BufToString]. *)
Definition BufToString (buf : DrawBuf) : res (list ascii) :=
  BufToString_rows buf (seqZ 0 kBoardSize) [].

(** [State::ToString]. *)
Definition State_ToString (s : State) : res (list ascii) :=
  b ← State_Draw s;
  BufToString b.

(** ** Reference definitions for the outcome of drawing *)

(** A piece of at least one cell; the loop of [Piece::Draw] does nothing
    for the others. *)
Definition solid (p : Piece) : Prop := 0 < size p.

(** Two pieces that cover a common cell. *)
Definition clash (p q : Piece) : Prop := solid p ∧ solid q ∧ overlap p q.

Fixpoint clash_free (s : list Piece) : Prop :=
  match s with
  | [] => True
  | p :: s' => Forall (λ q, ¬ clash p q) s' ∧ clash_free s'
  end.

(** Every piece that covers a cell lies within the grid, and no cell is
    covered twice. *)
Definition drawable (s : list Piece) : Prop :=
  Forall (λ p, solid p → in_bounds p) s ∧ clash_free s.

#[global] Instance solid_dec p : Decision (solid p).
Proof. unfold solid. apply _. Defined.
#[global] Instance clash_dec p q : Decision (clash p q).
Proof. unfold clash. apply _. Defined.
#[global] Instance clash_free_dec s : Decision (clash_free s).
Proof. induction s; simpl; apply _. Defined.
#[global] Instance drawable_dec s : Decision (drawable s).
Proof. unfold drawable. apply _. Defined.

(** The character of a cell in the picture of [s]: the marker of the
    first piece that covers it, the empty character if there is none. *)
Definition cell_char (s : list Piece) (cx cy : Z) : ascii :=
  match list_find (λ p, covers p cx cy) s with
  | Some (k, _) => marker k
  | None => kEmpty
  end.

(** [buf] holds the picture of the pieces [done]. *)
Definition painted (buf : DrawBuf) (done : list Piece) : Prop :=
  wf_buf buf
  ∧ ∀ cx cy, in_grid cx = true → in_grid cy = true →
      buf_get buf cy cx = Ret (cell_char done cx cy).

(** ** Reference definitions for pieces *)

(** The fields of a piece are [int8_t] values. *)
Definition int8 (v : Z) : Prop := -128 ≤ v < 128.
Definition int8_piece (p : Piece) : Prop :=
  int8 (x p) ∧ int8 (y p) ∧ int8 (size p).

(** The fields of a piece are digits in base [kHashMult]; so are the
    fields of every piece within the grid. *)
Definition hash_digits (p : Piece) : Prop :=
  0 ≤ x p < kHashMult ∧ 0 ≤ y p < kHashMult ∧ 0 ≤ size p < kHashMult.

(** [p] and [q] tie in the order of [Piece::operator<]. *)
Definition Piece_tie (p q : Piece) : Prop :=
  Piece_lt p q = false ∧ Piece_lt q p = false.

#[global] Instance int8_piece_dec p : Decision (int8_piece p).
Proof. unfold int8_piece, int8. apply _. Defined.
#[global] Instance hash_digits_dec p : Decision (hash_digits p).
Proof. unfold hash_digits. apply _. Defined.


(** ** The choices of the standard library *)

(** What the C++ standard leaves to the library and the model above
    fixes: the order in which [std::sort] leaves pieces that tie, and the
    order in which an [unordered_map] keeps its entries. *)
Record Library : Type := mkLibrary {
  lib_sort : list Piece → list Piece;
  lib_emplace : State → State → list (State * State) → list (State * State)
}.

(** The library keeps to the standard: [std::sort] returns the range
    permuted into the order of [operator<], and [emplace] with a new key
    adds the entry, wherever among the others. *)
Definition conforming (L : Library) : Prop :=
  (∀ l, lib_sort L l ≡ₚ l)
  ∧ (∀ l, StronglySorted Piece_le (lib_sort L l))
  ∧ (∀ k v m, lib_emplace L k v m ≡ₚ (k, v) :: m).

(** An [unordered_map<State, State, StateHash>] as the list of its
    entries, in the order of its buckets. *)
Abbreviation Entries := (list (State * State)).

(** [unordered_map::find]. *)
Fixpoint map_find (m : Entries) (k : State) : option State :=
  match m with
  | [] => None
  | (k', v) :: m' => if decide (k' = k) then Some v else map_find m' k
  end.

(** [std::move(iter->second)]: the entry keeps its key, and its State
    is left without pieces, as the standard libraries leave a vector
    that has been moved from. *)
Fixpoint moved_out (m : Entries) (k : State) : Entries :=
  match m with
  | [] => []
  | (k', v) :: m' =>
      if decide (k' = k) then (k', []) :: m' else (k', v) :: moved_out m' k
  end.

(** [Game::TracePathTo] with the map as the code leaves it: each
    backpointer is moved out of [prev_state_] as it is read. *)
Fixpoint TracePathTo_moved_loop (fuel : nat) (prev : Entries)
    (s : State) (sequence : list State) : option (res (list State)) :=
  match fuel with
  | O => None
  | S fuel' =>
      match s with
      | [] => Some (Ret (reverse sequence))
      | _ =>
          let sequence := sequence ++ [s] in
          match map_find prev s with
          | None => Some Abort
          | Some s' =>
              TracePathTo_moved_loop fuel' (moved_out prev s) s' sequence
          end
      end
  end.

Definition TracePathTo_moved (fuel : nat) (prev : Entries)
    (final_state : State) : option (res (list State)) :=
  TracePathTo_moved_loop fuel prev final_state [].

(** [State::Canonicalize] with the [std::sort] of the library. *)
Definition Canonicalize_with (L : Library) (s : State) : res State :=
  match s with
  | [] => Undef
  | goal :: rest => Ret (goal :: lib_sort L rest)
  end.

Fixpoint moves_of_with (L : Library) (s : State) (i : nat) (deltas : list Z)
    : res (list State) :=
  match deltas with
  | [] => Ret []
  | delta :: deltas' =>
      if decide (delta = 0) then moves_of_with L s i deltas'
      else
        match s !! i with
        | None => Undef
        | Some p =>
            neighbor ← Canonicalize_with L (<[i := Move p delta]> s);
            more ← moves_of_with L s i deltas';
            Ret (neighbor :: more)
        end
  end.

Fixpoint Neighbors_loop_with (L : Library) (s : State) (b : DrawBuf) (i : nat)
    (ps : list Piece) : res (list State) :=
  match ps with
  | [] => Ret []
  | p :: ps' =>
      '(first, second) ← MovementRange p b;
      here ← moves_of_with L s i (seqZ first (second - first + 1));
      more ← Neighbors_loop_with L s b (S i) ps';
      Ret (here ++ more)
  end.

(** [State::Neighbors] with the library. *)
Definition Neighbors_with (L : Library) (s : State) : res (list State) :=
  b ← State_Draw s;
  Neighbors_loop_with L s b 0 s.

Definition visit_with (L : Library) (elem : QueueElem)
    (acc : list QueueElem * Entries) (new_state : State)
    : list QueueElem * Entries :=
  let '(queue, prev) := acc in
  match map_find prev new_state with
  | Some _ => (queue, prev)
  | None =>
      (queue ++ [mkQueueElem new_state (moves elem + 1)],
       lib_emplace L new_state (state elem) prev)
  end.

Fixpoint Solve_loop_with (L : Library) (fuel : nat) (dest_x dest_y : Z)
    (queue : list QueueElem) (prev : Entries) : option (res (list State)) :=
  match fuel with
  | O => None
  | S fuel' =>
      match queue with
      | [] => Some (Ret [])
      | elem :: queue' =>
          match state elem with
          | [] => Some Undef
          | front_piece :: _ =>
              if decide (x front_piece = dest_x ∧ y front_piece = dest_y) then
                TracePathTo_moved fuel' prev (state elem)
              else
                match Neighbors_with L (state elem) with
                | Ret new_states =>
                    let '(queue'', prev') :=
                      fold_left (visit_with L elem) new_states (queue', prev) in
                    Solve_loop_with L fuel' dest_x dest_y queue'' prev'
                | Abort => Some Abort
                | Undef => Some Undef
                end
          end
      end
  end.

(** A fresh [Game] and one [Solve], with the library. *)
Definition Solve_with (L : Library) (fuel : nat) (start_state : State)
    (dest_x dest_y : Z) : option (res (list State)) :=
  Solve_loop_with L fuel dest_x dest_y [mkQueueElem start_state 0]
    (lib_emplace L start_state [] []).

(** Two libraries.  The first is the one of the model above: the sort
    that leaves ties in the order given, the map that keeps a new entry
    in front.  The second sorts a piece in before the pieces it ties with
    and keeps a new entry behind the others. *)
Fixpoint insert_before (p : Piece) (l : list Piece) : list Piece :=
  match l with
  | [] => [p]
  | q :: l' => if Piece_lt q p then q :: insert_before p l' else p :: q :: l'
  end.

Definition sort_before (l : list Piece) : list Piece :=
  fold_left (λ sorted p, insert_before p sorted) l [].

Definition lib_model : Library :=
  mkLibrary std_sort (λ k v m, (k, v) :: m).

Definition lib_other : Library :=
  mkLibrary sort_before (λ k v m, m ++ [(k, v)]).

(** ** Reference definitions for the walk of [TracePathTo] *)

(** One round of the loop of [TracePathTo] on a map that is not
    changed: from a State with pieces to the State recorded for it. *)
Definition back_step (prev : gmap State State) (b a : State) : Prop :=
  b ≠ [] ∧ prev !! b = Some a.







(** The list [m] holds the entries of the map [prev], each key once. *)
Definition holds (m : Entries) (prev : gmap State State) : Prop :=
  NoDup m.*1 ∧ ∀ k, map_find m k = prev !! k.

(** ** Reference definitions for the arithmetic of [Move] *)

(** The values of an [int]. *)
Definition int32 (v : Z) : Prop := - 2 ^ 31 ≤ v < 2 ^ 31.

(** The coordinate along the axis of a piece. *)
Definition lead (p : Piece) : Z :=
  match orient p with kHoriz => x p | kVert => y p end.

(** [delta] is an [int], and so is the sum that [Piece::Move] takes
    before it stores it. *)
Definition Move_defined (p : Piece) (delta : Z) : Prop :=
  int32 delta ∧ int32 (lead p + delta).

#[global] Instance Move_defined_dec p delta : Decision (Move_defined p delta).
Proof. unfold Move_defined, int32. apply _. Defined.

(** ** Reference definitions for the neighbors *)

(** What a move leaves alone: the sizes and orientations of the pieces. *)
Definition shapes (s : State) : list (Z * Orient) :=
  (λ p, (size p, orient p)) <$> s.

(** The sum of the coordinates of the pieces. *)
Definition coord_sum (s : list Piece) : Z :=
  foldr (λ p acc, x p + y p + acc) 0 s.

(** ** Reference definitions for solvable puzzles *)

(** Some State that [R] reaches from [start] has the goal piece on the
    target. *)
Definition solvable (R : State → State → Prop) (start : State)
    (dest_x dest_y : Z) : Prop :=
  ∃ s, reachable R start s ∧ at_target s dest_x dest_y.

(** ** Messages *)

(** [Piece::ToString]; [ss << static_cast<int>(v)] writes the decimal
    digits of [v], after a minus sign when [v] is negative.  The text is
    a [string] here, as the literals of the source are. *)
Definition Piece_ToString (p : Piece) : string :=
  "Piece(x=" +:+ pretty (x p) +:+ ", y=" +:+ pretty (y p)
  +:+ ", size=" +:+ pretty (size p) +:+ ", orient="
  +:+ (match orient p with kHoriz => "horiz" | kVert => "vert" end) +:+ ")".

(** A text without a comma. *)
Fixpoint no_comma (s : string) : bool :=
  match s with
  | EmptyString => true
  | String c s' => negb (Ascii.eqb c ","%char) && no_comma s'
  end.
(** ** Sorting *)

Lemma Piece_lt_spec p q :
  Piece_lt p q = true ↔ y p < y q ∨ (y p = y q ∧ x p < x q).
Proof. unfold Piece_lt. rewrite orb_true_iff, andb_true_iff. lia. Qed.

Lemma Piece_le_spec p q :
  Piece_le p q ↔ y p < y q ∨ (y p = y q ∧ x p ≤ x q).
Proof.
  unfold Piece_le. rewrite <- not_true_iff_false, Piece_lt_spec. lia.
Qed.

Lemma Piece_eqb_eq p q : Piece_eqb p q = true ↔ p = q.
Proof.
  unfold Piece_eqb. rewrite !andb_true_iff, !Z.eqb_eq.
  destruct p as [a b c o], q as [a' b' c' o']; simpl. split.
  - intros [[[-> ->] ->] Ho]. by destruct o, o'.
  - intros [= -> -> -> ->]. by destruct o'.
Qed.

Lemma State_eqb_eq (s t : State) : State_eqb s t = true ↔ s = t.
Proof.
  revert t. induction s as [|p s IH]; intros [|q t]; simpl; try done.
  rewrite andb_true_iff, Piece_eqb_eq, IH. split; [by intros [-> ->]|by intros [= -> ->]].
Qed.

Lemma insert_piece_perm p l : insert_piece p l ≡ₚ p :: l.
Proof.
  induction l as [|q l IH]; simpl; [done|].
  destruct (Piece_lt p q); [done|]. rewrite IH. apply Permutation_swap.
Qed.

Lemma std_sort_acc_perm l acc :
  fold_left (λ sorted p, insert_piece p sorted) l acc ≡ₚ acc ++ l.
Proof.
  revert acc. induction l as [|p l IH]; intros acc; simpl.
  - by rewrite app_nil_r.
  - rewrite IH, insert_piece_perm. apply Permutation_middle.
Qed.

Lemma std_sort_perm l : std_sort l ≡ₚ l.
Proof. apply (std_sort_acc_perm l []). Qed.

Lemma insert_piece_sorted p l :
  StronglySorted Piece_le l → StronglySorted Piece_le (insert_piece p l).
Proof.
  intros Hl. induction Hl as [|q l Hs IH Hq]; simpl.
  - repeat constructor.
  - destruct (Piece_lt p q) eqn:Hlt.
    + apply Piece_lt_spec in Hlt.
      constructor; [by constructor|]. constructor.
      * apply Piece_le_spec. lia.
      * eapply Forall_impl; [exact Hq|]. intros r.
        rewrite !Piece_le_spec. lia.
    + constructor; [done|].
      rewrite insert_piece_perm. by constructor.
Qed.

Lemma std_sort_acc_sorted l acc :
  StronglySorted Piece_le acc →
  StronglySorted Piece_le (fold_left (λ sorted p, insert_piece p sorted) l acc).
Proof.
  revert acc. induction l; simpl; auto using insert_piece_sorted.
Qed.

Lemma std_sort_sorted l : StronglySorted Piece_le (std_sort l).
Proof. apply std_sort_acc_sorted. constructor. Qed.

(** Insertion after a range of pieces that are not after [p]. *)
Lemma insert_piece_last p l :
  Forall (λ q, Piece_le q p) l → insert_piece p l = l ++ [p].
Proof.
  intros Hl. induction Hl as [|q l Hq _ IH]; simpl; [done|].
  unfold Piece_le in Hq. by rewrite Hq, IH.
Qed.

Lemma std_sort_acc_id l acc :
  StronglySorted Piece_le (acc ++ l) →
  fold_left (λ sorted p, insert_piece p sorted) l acc = acc ++ l.
Proof.
  revert acc. induction l as [|p l IH]; intros acc Hs; simpl.
  - by rewrite app_nil_r.
  - rewrite (insert_piece_last p acc).
    + rewrite IH; by rewrite <- app_assoc.
    + apply StronglySorted_app in Hs as (Hx & _ & _).
      apply Forall_forall. intros q Hq. apply Hx; [done|]. by left.
Qed.

(** A sorted range is left as it is. *)
Lemma std_sort_id l : StronglySorted Piece_le l → std_sort l = l.
Proof. intros Hs. by apply (std_sort_acc_id l []). Qed.

Lemma std_sort_idemp l : std_sort (std_sort l) = std_sort l.
Proof. apply std_sort_id, std_sort_sorted. Qed.

(** ** Canonical forms *)

Lemma overlap_same_anchor p q :
  0 < size p → 0 < size q → x p = x q → y p = y q → overlap p q.
Proof.
  unfold overlap, width, height. intros ? ? ? ?.
  destruct (orient p), (orient q); lia.
Qed.

Lemma nonoverlapping_lookup (s : list Piece) :
  nonoverlapping s ↔
  ∀ (i j : nat) p q, (i < j)%nat → s !! i = Some p → s !! j = Some q → ¬ overlap p q.
Proof.
  induction s as [|a s IH]; simpl.
  - split; [|done]. intros _ i j p q _ Hi. by rewrite lookup_nil in Hi.
  - rewrite IH, Forall_forall. split.
    + intros [Ha Hs] i j p q Hij Hi Hj.
      destruct i as [|i], j as [|j]; simpl in *; try lia.
      * injection Hi as <-. apply Ha. by eapply list_elem_of_lookup_2.
      * eapply (Hs i j); [lia|done..].
    + intros H. split.
      * intros q Hq. apply list_elem_of_lookup in Hq as [j Hj].
        by apply (H 0%nat (S j) a q); [lia|..].
      * intros i j p q Hij Hi Hj. apply (H (S i) (S j)); [lia|done..].
Qed.

Lemma overlap_sym p q : overlap p q → overlap q p.
Proof. unfold overlap. lia. Qed.

(** Pieces of a State that tie in the order of [operator<] are equal
    when no two pieces overlap. *)
Lemma nonoverlapping_tie (s : list Piece) p q :
  Forall (λ r, 0 < size r) s → nonoverlapping s →
  p ∈ s → q ∈ s → Piece_le p q → Piece_le q p → p = q.
Proof.
  intros Hpos Hno Hp Hq Hpq Hqp.
  apply Piece_le_spec in Hpq, Hqp.
  assert (x p = x q ∧ y p = y q) as [Hx Hy] by lia.
  apply list_elem_of_lookup in Hp as [i Hi], Hq as [j Hj].
  assert (0 < size p ∧ 0 < size q) as [? ?].
  { rewrite Forall_forall in Hpos.
    split; apply Hpos; by eapply list_elem_of_lookup_2. }
  rewrite nonoverlapping_lookup in Hno.
  destruct (lt_eq_lt_dec i j) as [[Hlt| ->]|Hlt].
  - destruct (Hno i j p q Hlt Hi Hj). by apply overlap_same_anchor.
  - congruence.
  - destruct (Hno j i q p Hlt Hj Hi). by apply overlap_same_anchor.
Qed.

Lemma nonoverlapping_perm (s t : list Piece) :
  s ≡ₚ t → nonoverlapping s → nonoverlapping t.
Proof.
  induction 1 as [|p s t Hperm IH|p q s|s t u _ IH1 _ IH2]; simpl; try tauto.
  - intros [Hp Hs]. split; [by rewrite <- Hperm|auto].
  - intros [Hq [Hp Hs]]. apply Forall_cons in Hq as [Hqp Hq].
    split_and!; try done. constructor; [|done].
    intros Ho. by apply Hqp, overlap_sym.
Qed.

Lemma std_sort_unique (l1 l2 : list Piece) :
  Forall (λ r, 0 < size r) l1 → nonoverlapping l1 → l1 ≡ₚ l2 →
  std_sort l1 = std_sort l2.
Proof.
  intros Hpos Hno Hperm.
  apply (StronglySorted_unique_strong Piece_le);
    [|apply std_sort_sorted..|by rewrite !std_sort_perm].
  intros p q Hp Hq Hpq Hqp.
  apply (nonoverlapping_tie l1); try done.
  - by rewrite <- (std_sort_perm l1).
  - by rewrite Hperm, <- (std_sort_perm l2).
Qed.

(** [std_sort] stands for every implementation of [std::sort] on the
    ranges that occur in States satisfying the invariant: a function that
    returns a sorted permutation returns what [std_sort] returns. *)
Section any_sort.
Variable sort : list Piece → list Piece.
Hypothesis sort_perm : ∀ l, sort l ≡ₚ l.
Hypothesis sort_sorted : ∀ l, StronglySorted Piece_le (sort l).

Lemma std_sort_any (l : list Piece) :
  Forall (λ r, 0 < size r) l → nonoverlapping l → sort l = std_sort l.
Proof.
  intros Hpos Hno.
  apply (StronglySorted_unique_strong Piece_le);
    [|apply sort_sorted|apply std_sort_sorted|by rewrite sort_perm, std_sort_perm].
  intros p q Hp Hq Hpq Hqp. apply (nonoverlapping_tie l); try done.
  - by rewrite <- (sort_perm l).
  - by rewrite <- (std_sort_perm l).
Qed.
End any_sort.

(** *** The libraries *)

Lemma insert_before_perm p l : insert_before p l ≡ₚ p :: l.
Proof.
  induction l as [|q l IH]; simpl; [done|].
  destruct (Piece_lt q p); [|done]. rewrite IH. apply Permutation_swap.
Qed.

Lemma insert_before_sorted p l :
  StronglySorted Piece_le l → StronglySorted Piece_le (insert_before p l).
Proof.
  intros Hl. induction Hl as [|q l Hs IH Hq]; simpl.
  - repeat constructor.
  - destruct (Piece_lt q p) eqn:Hlt.
    + constructor; [done|]. rewrite insert_before_perm. constructor; [|done].
      apply Piece_lt_spec in Hlt. apply Piece_le_spec. lia.
    + constructor; [by constructor|]. constructor; [done|].
      eapply Forall_impl; [exact Hq|]. intros r.
      assert (Piece_le p q) as Hpq by done. revert Hpq.
      rewrite !Piece_le_spec. lia.
Qed.

Lemma sort_before_acc_perm l acc :
  fold_left (λ sorted p, insert_before p sorted) l acc ≡ₚ acc ++ l.
Proof.
  revert acc. induction l as [|p l IH]; intros acc; simpl.
  - by rewrite app_nil_r.
  - rewrite IH, insert_before_perm. apply Permutation_middle.
Qed.

Lemma sort_before_acc_sorted l acc :
  StronglySorted Piece_le acc →
  StronglySorted Piece_le (fold_left (λ sorted p, insert_before p sorted) l acc).
Proof.
  revert acc. induction l; simpl; auto using insert_before_sorted.
Qed.

Lemma conforming_model : conforming lib_model.
Proof.
  unfold conforming. split_and!; [apply std_sort_perm|apply std_sort_sorted|done].
Qed.

Lemma conforming_other : conforming lib_other.
Proof.
  unfold conforming. split_and!.
  - intros l. apply (sort_before_acc_perm l []).
  - intros l. apply sort_before_acc_sorted. constructor.
  - intros k v m. simpl. symmetry. apply Permutation_cons_append.
Qed.

(** The model is the first library. *)
Lemma Canonicalize_with_model (s : State) :
  Canonicalize_with lib_model s = Canonicalize s.
Proof. done. Qed.

(** The two libraries part on pieces that tie: with the second the
    canonical form of a State that has two pieces on one anchor is not a
    fixed point. *)
Example Canonicalize_with_tie :
  let s := [mkPiece 0 0 2 kHoriz; mkPiece 1 1 2 kHoriz; mkPiece 1 1 2 kVert] in
  Canonicalize_with lib_other s ≠ Canonicalize_with lib_model s
  ∧ (Canonicalize_with lib_other s ≫= Canonicalize_with lib_other)
    ≠ Canonicalize_with lib_other s.
Proof. split; vm_compute; discriminate. Qed.

(** Without ties the library has no choice. *)
Lemma lib_sort_tie_free (L : Library) (l : list Piece) :
  conforming L → Forall (λ p, 0 < size p) l → nonoverlapping l →
  lib_sort L l = std_sort l.
Proof. intros (Hperm & Hsorted & _). by apply std_sort_any. Qed.

Lemma Canonicalize_with_tie_free (L : Library) (s : State) :
  conforming L → Forall (λ p, 0 < size p) s → nonoverlapping s →
  Canonicalize_with L s = Canonicalize s.
Proof.
  intros HL Hpos Hno. destruct s as [|goal rest]; [done|]. simpl.
  apply Forall_cons in Hpos as [_ Hpos]. destruct Hno as [_ Hno].
  by rewrite lib_sort_tie_free.
Qed.



(** C5. Two States with the same goal piece whose remaining pieces are
    permutations of each other (pieces of at least one cell, no two of
    them overlapping, as the State invariant has it) have the same
    canonical form: equal under [State::operator==], with equal hashes. *)
Theorem Canonicalize_permutation (goal : Piece) (rest1 rest2 : list Piece) :
  Forall (λ p, 0 < size p) rest1 → nonoverlapping rest1 → rest1 ≡ₚ rest2 →
  ∃ c1 c2,
    Canonicalize (goal :: rest1) = Ret c1
    ∧ Canonicalize (goal :: rest2) = Ret c2
    ∧ State_eqb c1 c2 = true
    ∧ State_hash c1 = State_hash c2.
Proof.
  intros Hpos Hno Hperm.
  exists (goal :: std_sort rest1), (goal :: std_sort rest2).
  rewrite (std_sort_unique rest1 rest2) by done.
  split_and!; [by simpl; rewrite ?(std_sort_unique rest1 rest2)..| |done].
  by apply State_eqb_eq.
Qed.

Lemma Canonicalize_permutation_witness :
  ∃ c1 c2,
    Canonicalize [mkPiece 0 2 2 kHoriz; mkPiece 3 0 2 kVert; mkPiece 4 0 2 kHoriz] = Ret c1
    ∧ Canonicalize [mkPiece 0 2 2 kHoriz; mkPiece 4 0 2 kHoriz; mkPiece 3 0 2 kVert] = Ret c2
    ∧ State_eqb c1 c2 = true
    ∧ State_hash c1 = State_hash c2.
Proof.
  apply (Canonicalize_permutation (mkPiece 0 2 2 kHoriz)
           [mkPiece 3 0 2 kVert; mkPiece 4 0 2 kHoriz]
           [mkPiece 4 0 2 kHoriz; mkPiece 3 0 2 kVert]).
  - by apply (bool_decide_unpack _); vm_compute.
  - by apply (bool_decide_unpack _); vm_compute.
  - apply Permutation_swap.
Defined.

(** Without the invariant the order of [operator<] does not separate the
    pieces: two overlapping pieces on one anchor stay in the order in
    which they were given. *)
Example Canonicalize_tie :
  Canonicalize [mkPiece 0 0 2 kHoriz; mkPiece 1 1 2 kHoriz; mkPiece 1 1 2 kVert]
  ≠ Canonicalize [mkPiece 0 0 2 kHoriz; mkPiece 1 1 2 kVert; mkPiece 1 1 2 kHoriz].
Proof. vm_compute. discriminate. Qed.

(** ** The movement range *)

Lemma bind_Ret {A B} (m : res A) (k : A → res B) (b : B) :
  m ≫= k = Ret b ↔ ∃ a, m = Ret a ∧ k a = Ret b.
Proof.
  destruct m; simpl; split; try done; try (by intros (? & ? & ?)).
  - eauto.
  - by intros (? & [= <-] & ?).
Qed.

Lemma scan_min_bounds fuel read d cur r :
  scan_min fuel read d cur = Ret r → -1 ≤ d ≤ 0 → -1 ≤ r ≤ 0.
Proof.
  revert d cur. induction fuel as [|fuel IH]; intros d cur; simpl.
  - intros [= <-]. lia.
  - destruct (d >? -1) eqn:Hd; simpl; [|intros [= <-]; lia].
    destruct (cur >=? 0); simpl; [|intros [= <-]; lia].
    destruct (read cur) as [c| |]; simpl; try done.
    destruct (Ascii.eqb c kEmpty); [|intros [= <-]; lia].
    intros Hr Hb. apply (IH _ _ Hr). lia.
Qed.

Lemma scan_max_bounds fuel read d cur r :
  scan_max fuel read d cur = Ret r → 0 ≤ d ≤ 1 → 0 ≤ r ≤ 1.
Proof.
  revert d cur. induction fuel as [|fuel IH]; intros d cur; simpl.
  - intros [= <-]. lia.
  - destruct (d <? 1) eqn:Hd; simpl; [|intros [= <-]; lia].
    destruct (cur <? kBoardSize); simpl; [|intros [= <-]; lia].
    destruct (read cur) as [c| |]; simpl; try done.
    destruct (Ascii.eqb c kEmpty); [|intros [= <-]; lia].
    intros Hr Hb. apply (IH _ _ Hr). lia.
Qed.

(** Two units of fuel are enough for the loops of [MovementRange]. *)
Lemma scan_min_fuel fuel read cur :
  scan_min (S (S fuel)) read 0 cur = scan_min 2 read 0 cur.
Proof.
  reflexivity.
Qed.

Lemma scan_max_fuel fuel read cur :
  scan_max (S (S fuel)) read 0 cur = scan_max 2 read 0 cur.
Proof.
  reflexivity.
Qed.

Lemma MovementRange_bounds p buf lo hi :
  MovementRange p buf = Ret (lo, hi) → -1 ≤ lo ≤ 0 ∧ 0 ≤ hi ≤ 1.
Proof.
  unfold MovementRange.
  destruct (orient p); intros H;
    apply bind_Ret in H as (a & Ha & H);
    apply bind_Ret in H as (b & Hb & [= <- <-]);
    apply scan_min_bounds in Ha; apply scan_max_bounds in Hb; lia.
Qed.

(** What the loops return when the cursor starts in the grid. *)
Lemma scan_min_step read cur :
  0 ≤ cur →
  scan_min scan_fuel read 0 cur
  = (cell ← read cur; Ret (if Ascii.eqb cell kEmpty then -1 else 0)).
Proof.
  intros Hc. change scan_fuel with (S (S 5)). rewrite scan_min_fuel. simpl.
  destruct (cur >=? 0) eqn:E; [|lia].
  destruct (read cur) as [c| |]; simpl; try done.
  by destruct (Ascii.eqb c kEmpty).
Qed.

Lemma scan_min_stop read cur : cur < 0 → scan_min scan_fuel read 0 cur = Ret 0.
Proof. intros Hc. simpl. destruct (cur >=? 0) eqn:E; [lia|done]. Qed.

Lemma scan_max_step read cur :
  cur < kBoardSize →
  scan_max scan_fuel read 0 cur
  = (cell ← read cur; Ret (if Ascii.eqb cell kEmpty then 1 else 0)).
Proof.
  intros Hc. change scan_fuel with (S (S 5)). rewrite scan_max_fuel. simpl.
  destruct (cur <? kBoardSize) eqn:E; [|lia].
  destruct (read cur) as [c| |]; simpl; try done.
  by destruct (Ascii.eqb c kEmpty).
Qed.

Lemma scan_max_stop read cur :
  kBoardSize ≤ cur → scan_max scan_fuel read 0 cur = Ret 0.
Proof. intros Hc. simpl. destruct (cur <? kBoardSize) eqn:E; [lia|done]. Qed.

Lemma in_grid_spec v : in_grid v = true ↔ 0 ≤ v < kBoardSize.
Proof. unfold in_grid. rewrite andb_true_iff. lia. Qed.

Lemma count_empty_total n read dir cur :
  (∀ c, in_grid c = true → ∃ cell, read c = Ret cell) →
  ∃ k, count_empty n read dir cur = Ret k ∧ 0 ≤ k.
Proof.
  intros Hread. revert cur. induction n as [|n IH]; intros cur; simpl.
  - exists 0. split; [done|lia].
  - destruct (in_grid cur) eqn:Hg; [|exists 0; split; [done|lia]].
    destruct (Hread cur Hg) as [cell ->]. simpl.
    destruct (Ascii.eqb cell kEmpty); [|exists 0; split; [done|lia]].
    destruct (IH (cur + dir)) as (k & -> & Hk). simpl.
    exists (k + 1). split; [done|lia].
Qed.

(** With reads that are defined on the grid, the loops return the full
    scan cut off at one cell. *)
Lemma count_empty_S n read dir cur :
  count_empty (S n) read dir cur
  = if in_grid cur then
      cell ← read cur;
      if Ascii.eqb cell kEmpty then
        k ← count_empty n read dir (cur + dir); Ret (k + 1)
      else Ret 0
    else Ret 0.
Proof. reflexivity. Qed.

Lemma bind_Ret_l {A B} (a : A) (k : A → res B) : Ret a ≫= k = k a.
Proof. reflexivity. Qed.

Lemma scan_min_clamp read cur :
  (∀ c, in_grid c = true → ∃ cell, read c = Ret cell) →
  cur < kBoardSize →
  ∃ k, count_empty (Z.to_nat kBoardSize) read (-1) cur = Ret k
       ∧ scan_min scan_fuel read 0 cur = Ret (Z.max (-1) (- k)).
Proof.
  intros Hread Hc. change (Z.to_nat kBoardSize) with (S 5).
  rewrite count_empty_S. destruct (decide (0 ≤ cur)) as [H0|H0].
  - rewrite scan_min_step by done.
    assert (in_grid cur = true) as Hg by (apply in_grid_spec; lia).
    rewrite Hg. destruct (Hread cur Hg) as [cell ->]. rewrite !bind_Ret_l.
    destruct (Ascii.eqb cell kEmpty); [|by exists 0].
    destruct (count_empty_total 5 read (-1) (cur + -1) Hread) as (k & -> & Hk).
    rewrite bind_Ret_l. exists (k + 1). split; [done|]. f_equal. lia.
  - rewrite scan_min_stop by lia. exists 0. split; [|done].
    assert (in_grid cur = false) as ->; [|done].
    apply not_true_iff_false. rewrite in_grid_spec. lia.
Qed.

Lemma scan_max_clamp read cur :
  (∀ c, in_grid c = true → ∃ cell, read c = Ret cell) →
  0 ≤ cur →
  ∃ k, count_empty (Z.to_nat kBoardSize) read 1 cur = Ret k
       ∧ scan_max scan_fuel read 0 cur = Ret (Z.min 1 k).
Proof.
  intros Hread Hc. change (Z.to_nat kBoardSize) with (S 5).
  rewrite count_empty_S. destruct (decide (cur < kBoardSize)) as [H0|H0].
  - rewrite scan_max_step by done.
    assert (in_grid cur = true) as Hg by (apply in_grid_spec; lia).
    rewrite Hg. destruct (Hread cur Hg) as [cell ->]. rewrite !bind_Ret_l.
    destruct (Ascii.eqb cell kEmpty); [|by exists 0].
    destruct (count_empty_total 5 read 1 (cur + 1) Hread) as (k & -> & Hk).
    rewrite bind_Ret_l. exists (k + 1). split; [done|]. f_equal. lia.
  - rewrite scan_max_stop by lia. exists 0. split; [|done].
    assert (in_grid cur = false) as ->; [|done].
    apply not_true_iff_false. rewrite in_grid_spec. lia.
Qed.

Lemma buf_get_wf buf cy cx :
  wf_buf buf → in_grid cy = true → in_grid cx = true →
  ∃ cell, buf_get buf cy cx = Ret cell.
Proof.
  intros [Hlen Hrows] Hy Hx. unfold buf_get. rewrite Hy, Hx. simpl.
  apply in_grid_spec in Hy, Hx.
  destruct (buf !! Z.to_nat cy) as [row|] eqn:Hrow.
  - rewrite Forall_forall in Hrows.
    assert (length row = Z.to_nat kBoardSize) as Hr.
    { apply Hrows. by eapply list_elem_of_lookup_2. }
    destruct (row !! Z.to_nat cx) as [c|] eqn:Hc; [by exists c|].
    apply lookup_ge_None in Hc. lia.
  - apply lookup_ge_None in Hrow. lia.
Qed.

Lemma MovementRange_clamp p buf :
  wf_buf buf → in_bounds p →
  ∃ lo hi, spec_MovementRange p buf = Ret (lo, hi)
           ∧ MovementRange p buf = Ret (Z.max (-1) lo, Z.min 1 hi).
Proof.
  intros Hwf (Hs & Hx & Hy & Hw & Hh).
  unfold spec_MovementRange, MovementRange, width, height in *.
  destruct (orient p).
  - assert (∀ c, in_grid c = true → ∃ cell, buf_get buf (y p) c = Ret cell) as Hr.
    { intros c Hc. apply buf_get_wf; [done| |done]. apply in_grid_spec. lia. }
    destruct (scan_min_clamp (λ c, buf_get buf (y p) c) (x p - 1) Hr)
      as (k1 & -> & ->); [lia|].
    destruct (scan_max_clamp (λ c, buf_get buf (y p) c) (x p + size p) Hr)
      as (k2 & -> & ->); [lia|].
    simpl. by eexists _, _.
  - assert (∀ c, in_grid c = true → ∃ cell, buf_get buf c (x p) = Ret cell) as Hr.
    { intros c Hc. apply buf_get_wf; [done|done|]. apply in_grid_spec. lia. }
    destruct (scan_min_clamp (λ c, buf_get buf c (x p)) (y p - 1) Hr)
      as (k1 & -> & ->); [lia|].
    destruct (scan_max_clamp (λ c, buf_get buf c (x p)) (y p + size p) Hr)
      as (k2 & -> & ->); [lia|].
    simpl. by eexists _, _.
Qed.

(** ** Solving a solved puzzle *)

Lemma at_target_cons s dx dy :
  at_target s dx dy → ∃ p s', s = p :: s' ∧ x p = dx ∧ y p = dy.
Proof. destruct s as [|p s']; simpl; [done|]. intros [? ?]. eauto. Qed.

(** C6. When the goal piece of the start State is on the target, [Solve]
    returns the sequence whose only element is the start State. *)
Theorem Solve_already_solved (fuel : nat) (start : State) (dest_x dest_y : Z) :
  at_target start dest_x dest_y → (3 ≤ fuel)%nat →
  Solve fuel start dest_x dest_y = Some (Ret [start]).
Proof.
  intros (p & s' & -> & Hx & Hy)%at_target_cons Hfuel.
  destruct fuel as [|[|[|fuel]]]; try lia.
  unfold Solve, Game_Solve, Game_new, emplace. simpl.
  rewrite lookup_empty.
  destruct (decide (x p = dest_x ∧ y p = dest_y)) as [_|[]]; [|done].
  unfold TracePathTo. simpl. by rewrite lookup_insert_eq.
Qed.

Lemma Solve_already_solved_witness :
  Solve 3 main_state 0 2 = Some (Ret [main_state]).
Proof.
  apply Solve_already_solved; [by vm_compute|lia].
Defined.

(** ** Rendering *)

Lemma buf_set_wf buf cy cx c : wf_buf buf → wf_buf (buf_set buf cy cx c).
Proof.
  intros [Hlen Hrows]. unfold buf_set.
  destruct (buf !! Z.to_nat cy) as [row|] eqn:Hrow; [|done].
  split; [by rewrite length_insert|].
  apply Forall_insert; [done|]. rewrite length_insert.
  rewrite Forall_forall in Hrows. apply Hrows. by eapply list_elem_of_lookup_2.
Qed.

Lemma buf_get_set buf cy cx c uy ux :
  wf_buf buf → in_grid cy = true → in_grid cx = true →
  in_grid uy = true → in_grid ux = true →
  buf_get (buf_set buf cy cx c) uy ux
  = if decide (ux = cx ∧ uy = cy) then Ret c else buf_get buf uy ux.
Proof.
  intros [Hlen Hrows] Hcy Hcx Huy Hux. unfold buf_get, buf_set.
  rewrite Huy, Hux. simpl. apply in_grid_spec in Hcy, Hcx, Huy, Hux.
  destruct (buf !! Z.to_nat cy) as [row|] eqn:Hrow;
    [|apply lookup_ge_None in Hrow; lia].
  assert (length row = Z.to_nat kBoardSize) as Hr.
  { rewrite Forall_forall in Hrows. apply Hrows. by eapply list_elem_of_lookup_2. }
  destruct (decide (uy = cy)) as [->|Hy].
  - rewrite list_lookup_insert_eq by lia.
    destruct (decide (ux = cx)) as [->|Hx].
    + rewrite list_lookup_insert_eq by lia. by rewrite decide_True.
    + rewrite list_lookup_insert_ne by lia. rewrite decide_False by tauto.
      by rewrite Hrow.
  - rewrite list_lookup_insert_ne by lia. by rewrite decide_False by tauto.
Qed.

Lemma Draw_loop_free n o c cx cy buf :
  wf_buf buf → 0 ≤ cx → 0 ≤ cy →
  cx + run_w o n ≤ kBoardSize → cy + run_h o n ≤ kBoardSize →
  (∀ ux uy, cx ≤ ux < cx + run_w o n → cy ≤ uy < cy + run_h o n →
     buf_get buf uy ux = Ret kEmpty) →
  ∃ buf', Draw_loop n o c cx cy buf = Ret buf' ∧ wf_buf buf'
    ∧ ∀ ux uy, in_grid ux = true → in_grid uy = true →
        buf_get buf' uy ux
        = if decide (cx ≤ ux < cx + run_w o n ∧ cy ≤ uy < cy + run_h o n)
          then Ret c else buf_get buf uy ux.
Proof.
  revert cx cy buf. induction n as [|n IH]; intros cx cy buf Hwf Hx Hy Hw Hh Hfree.
  - exists buf. split_and!; [done..|]. intros ux uy _ _.
    rewrite decide_False; [done|]. destruct o; simpl; lia.
  - cbn [Draw_loop]. rewrite (Hfree cx cy) by (destruct o; simpl in *; lia).
    rewrite bind_Ret_l, Ascii.eqb_refl.
    assert (in_grid cx = true ∧ in_grid cy = true) as [Hgx Hgy].
    { rewrite !in_grid_spec. destruct o; simpl in *; lia. }
    pose proof (buf_set_wf buf cy cx c Hwf) as Hwf'.
    destruct o.
    + destruct (IH (cx + 1) cy (buf_set buf cy cx c)) as (buf' & -> & Hwf'' & Hget);
        [done|simpl in *; lia..| |].
      { intros ux uy Hux Huy. simpl in *.
        rewrite buf_get_set by (rewrite ?in_grid_spec; lia || done).
        rewrite decide_False by lia. apply Hfree; simpl; lia. }
      exists buf'. split_and!; [done..|]. intros ux uy Hgux Hguy.
      rewrite Hget by done. simpl. rewrite buf_get_set by done.
      repeat case_decide; try done; lia.
    + destruct (IH cx (cy + 1) (buf_set buf cy cx c)) as (buf' & -> & Hwf'' & Hget);
        [done|simpl in *; lia..| |].
      { intros ux uy Hux Huy. simpl in *.
        rewrite buf_get_set by (rewrite ?in_grid_spec; lia || done).
        rewrite decide_False by lia. apply Hfree; simpl; lia. }
      exists buf'. split_and!; [done..|]. intros ux uy Hgux Hguy.
      rewrite Hget by done. simpl. rewrite buf_get_set by done.
      repeat case_decide; try done; lia.
Qed.

Lemma covers_overlap p q cx cy : covers p cx cy → covers q cx cy → overlap p q.
Proof. unfold covers, overlap. lia. Qed.

Lemma covers_in_grid p cx cy :
  in_bounds p → covers p cx cy → in_grid cx = true ∧ in_grid cy = true.
Proof. unfold in_bounds, covers. rewrite !in_grid_spec. lia. Qed.

(** Drawing one more piece that overlaps none of the drawn ones. *)
Lemma Piece_Draw_rendered p buf c (ps : list Piece) :
  rendered buf ps → in_bounds p → c ≠ kEmpty →
  Forall (λ q, ¬ overlap p q) ps →
  ∃ buf', Piece_Draw p buf c = Ret buf' ∧ rendered buf' (ps ++ [p]).
Proof.
  intros [Hwf Hcells] Hin Hc Hno. unfold Piece_Draw.
  assert (run_w (orient p) (Z.to_nat (size p)) = width p
          ∧ run_h (orient p) (Z.to_nat (size p)) = height p) as [Hw Hh].
  { unfold run_w, run_h, width, height, in_bounds in *.
    destruct (orient p); lia. }
  destruct (Draw_loop_free (Z.to_nat (size p)) (orient p) c (x p) (y p) buf)
    as (buf' & -> & Hwf' & Hget); [done|rewrite ?Hw, ?Hh; unfold in_bounds in Hin; lia..| |].
  { rewrite Hw, Hh. intros ux uy Hux Huy.
    assert (covers p ux uy) as Hcov by done.
    destruct (covers_in_grid p ux uy Hin Hcov) as [Hgx Hgy].
    destruct (Hcells ux uy Hgx Hgy) as (cell & -> & Hcell).
    f_equal. apply Hcell. intros q Hq Hcq.
    rewrite Forall_forall in Hno. apply (Hno q Hq).
    by eapply covers_overlap. }
  exists buf'. split; [done|]. split; [done|].
  intros cx cy Hgx Hgy. rewrite Hget, Hw, Hh by done.
  case_decide as Hcov.
  - exists c. split; [done|]. split; [done|].
    intros Hall. destruct (Hall p); [|done]. apply elem_of_app. right. by left.
  - destruct (Hcells cx cy Hgx Hgy) as (cell & -> & Hcell).
    exists cell. split; [done|]. rewrite Hcell. split.
    + intros Hall q [Hq|Hq%list_elem_of_singleton]%elem_of_app; [by apply Hall|].
      by subst q.
    + intros Hall q Hq. apply Hall, elem_of_app. by left.
Qed.

Lemma marker_not_empty (i : nat) : (i < 190)%nat → marker i ≠ kEmpty.
Proof.
  intros Hi. destruct i as [|i]; [done|]. unfold marker.
  intros Heq. apply (f_equal N_of_ascii) in Heq.
  rewrite N_ascii_embedding in Heq by (apply N.mod_lt; lia).
  rewrite N.mod_small in Heq by lia. simpl in Heq. lia.
Qed.

Lemma Draw_pieces_rendered (i : nat) (ps done : list Piece) buf :
  rendered buf done → Forall in_bounds ps → nonoverlapping ps →
  (∀ p q, p ∈ ps → q ∈ done → ¬ overlap p q) →
  (i + length ps ≤ 190)%nat →
  ∃ buf', Draw_pieces i ps buf = Ret buf' ∧ rendered buf' (done ++ ps).
Proof.
  revert i done buf. induction ps as [|p ps IH]; intros i done buf Hr Hin Hno Hsep Hlen.
  - exists buf. by rewrite app_nil_r.
  - simpl in *. destruct Hno as [Hp Hno].
    apply Forall_cons in Hin as [Hinp Hin].
    destruct (Piece_Draw_rendered p buf (marker i) done) as (buf1 & -> & Hr1);
      [done|done|apply marker_not_empty; lia| |].
    { apply Forall_forall. intros q Hq. apply Hsep; [by left|done]. }
    rewrite bind_Ret_l.
    destruct (IH (S i) (done ++ [p]) buf1) as (buf' & -> & Hr'); [done..| |lia|].
    { intros p' q Hp' [Hq|Hq%list_elem_of_singleton]%elem_of_app.
      - apply Hsep; [by right|done].
      - subst q. rewrite Forall_forall in Hp. intros Ho%overlap_sym.
        by apply (Hp p'). }
    exists buf'. split; [done|]. by rewrite <- app_assoc in Hr'.
Qed.

Lemma empty_buf_rendered : rendered empty_buf [].
Proof.
  split.
  - split; [done|]. by repeat constructor.
  - intros cx cy Hx Hy. exists kEmpty. split.
    + unfold buf_get, empty_buf. rewrite Hx, Hy. cbn [andb].
      apply in_grid_spec in Hx, Hy.
      rewrite lookup_replicate_2 by lia. by rewrite lookup_replicate_2 by lia.
    + split; [|done]. intros _ p Hp. by apply elem_of_nil in Hp.
Qed.

Lemma valid_state_length (s : list Piece) :
  Forall in_bounds s → nonoverlapping s → (length s ≤ 36)%nat.
Proof.
  intros Hin Hno.
  set (code := λ p : Piece, Z.to_nat (x p + kBoardSize * y p)).
  assert (NoDup (code <$> s)) as Hnd.
  { induction s as [|p s IH]; simpl; [constructor|].
    destruct Hno as [Hp Hno]. apply Forall_cons in Hin as [Hinp Hin].
    constructor; [|by apply IH].
    intros (q & Hc & Hq)%list_elem_of_fmap.
    rewrite Forall_forall in Hp, Hin.
    apply (Hp q Hq). pose proof (Hin q Hq) as Hinq.
    subst code. cbv beta in Hc.
    unfold in_bounds, width, height, kBoardSize in *.
    apply overlap_same_anchor; destruct (orient p), (orient q); lia. }
  rewrite <- (length_fmap code).
  change 36%nat with (length (seq 0 36)).
  apply submseteq_length, NoDup_submseteq; [done|].
  intros n (p & -> & Hp)%list_elem_of_fmap. apply elem_of_seq.
  rewrite Forall_forall in Hin. pose proof (Hin p Hp) as Hinp.
  subst code. cbv beta.
  unfold in_bounds, width, height, kBoardSize in *.
  destruct (orient p); lia.
Qed.

(** Rendering a State that satisfies the invariant succeeds. *)
Lemma State_Draw_valid (s : State) :
  valid_state s → ∃ buf, State_Draw s = Ret buf ∧ rendered buf s.
Proof.
  intros (_ & Hin & Hno). unfold State_Draw.
  apply (Draw_pieces_rendered 0 s [] empty_buf); try done.
  - apply empty_buf_rendered.
  - intros p q _ Hq. by apply elem_of_nil in Hq.
  - pose proof (valid_state_length s Hin Hno). lia.
Qed.

Lemma valid_state_perm (s t : State) :
  s ≡ₚ t → valid_state s → valid_state t.
Proof.
  intros Hperm (Hne & Hin & Hno). split_and!.
  - intros ->. by apply Permutation_nil_r in Hperm.
  - by rewrite <- Hperm.
  - by eapply nonoverlapping_perm.
Qed.

Lemma Canonicalize_Ret (s s' : State) :
  Canonicalize s = Ret s' →
  ∃ goal rest, s = goal :: rest ∧ s' = goal :: std_sort rest.
Proof. destruct s as [|goal rest]; simpl; [done|]. intros [= <-]. eauto. Qed.

Lemma Canonicalize_perm (s s' : State) : Canonicalize s = Ret s' → s' ≡ₚ s.
Proof.
  intros (goal & rest & -> & ->)%Canonicalize_Ret. by rewrite std_sort_perm.
Qed.

Lemma Canonicalize_valid (s s' : State) :
  valid_state s → Canonicalize s = Ret s' → valid_state s'.
Proof.
  intros Hv Hc. eapply valid_state_perm; [|done].
  symmetry. by apply Canonicalize_perm.
Qed.

(** ** Moves of one cell *)

Lemma wrap8_small v : -128 ≤ v < 128 → wrap8 v = v.
Proof. intros Hv. unfold wrap8. rewrite Z.mod_small; lia. Qed.

Lemma nonoverlapping_lookup_ne (s : list Piece) (i j : nat) p q :
  nonoverlapping s → i ≠ j → s !! i = Some p → s !! j = Some q → ¬ overlap p q.
Proof.
  rewrite nonoverlapping_lookup. intros Hno Hij Hi Hj Ho.
  destruct (decide (i < j)%nat).
  - by apply (Hno i j p q).
  - apply (Hno j i q p); [lia|done..|by apply overlap_sym].
Qed.

Lemma nonoverlapping_insert (s : list Piece) (i : nat) p' :
  nonoverlapping s →
  (∀ j q, j ≠ i → s !! j = Some q → ¬ overlap p' q) →
  nonoverlapping (<[i := p']> s).
Proof.
  rewrite !nonoverlapping_lookup. intros Hno Hp' j k p q Hjk Hj Hk.
  apply list_lookup_insert_Some in Hj as [(-> & -> & ?)|[? Hj]];
    apply list_lookup_insert_Some in Hk as [(-> & -> & ?)|[? Hk]]; try lia.
  - by apply (Hp' k).
  - intros Ho%overlap_sym. by apply (Hp' j p).
  - by apply (Hno j k).
Qed.

Lemma slide_lookup (s : State) (i : nat) p d :
  s !! i = Some p → slide s i d = <[i := Move p d]> s.
Proof. unfold slide. by intros ->. Qed.

(** A piece can move by one cell exactly when the cell it enters lies in
    the grid and is covered by no piece. *)
Lemma slide_valid_iff (s : State) (i : nat) p d :
  valid_state s → s !! i = Some p → d = -1 ∨ d = 1 →
  valid_state (slide s i d) ↔
  in_grid (new_cell p d).1 = true ∧ in_grid (new_cell p d).2 = true
  ∧ Forall (λ q, ¬ covers q (new_cell p d).1 (new_cell p d).2) s.
Proof.
  intros (Hne & Hin & Hno) Hi Hd. rewrite (slide_lookup s i p d Hi).
  assert (in_bounds p) as Hp.
  { rewrite Forall_forall in Hin. apply Hin. by eapply list_elem_of_lookup_2. }
  assert (i < length s)%nat as Hlt by (by eapply lookup_lt_Some).
  assert (x (Move p d) = match orient p with kHoriz => x p + d | kVert => x p end
          ∧ y (Move p d) = match orient p with kHoriz => y p | kVert => y p + d end
          ∧ size (Move p d) = size p ∧ orient (Move p d) = orient p)
    as (Hmx & Hmy & Hms & Hmo).
  { unfold Move, in_bounds, width, height, kBoardSize in *.
    destruct (orient p) eqn:Ho; simpl; rewrite ?Ho;
      rewrite wrap8_small by lia; done. }
  rewrite !in_grid_spec, Forall_forall. split.
  - intros (_ & Hin' & Hno').
    assert (in_bounds (Move p d)) as Hp'.
    { rewrite Forall_forall in Hin'. apply Hin'. by apply list_elem_of_insert. }
    assert (covers (Move p d) (new_cell p d).1 (new_cell p d).2) as Hcov.
    { unfold covers, new_cell, in_bounds, width, height, kBoardSize in *.
      rewrite Hmx, Hmy, Hms, Hmo.
      destruct (orient p); simpl; case_decide; lia. }
    split; [|split].
    + unfold in_bounds, new_cell, width, height, kBoardSize in *.
      rewrite Hmx, Hmy, Hms, Hmo in Hp'.
      destruct (orient p); simpl; case_decide; lia.
    + unfold in_bounds, new_cell, width, height, kBoardSize in *.
      rewrite Hmx, Hmy, Hms, Hmo in Hp'.
      destruct (orient p); simpl; case_decide; lia.
    + intros q [j Hj]%list_elem_of_lookup Hq.
      destruct (decide (j = i)) as [->|Hji].
      * assert (q = p) as -> by congruence.
        unfold covers, new_cell, in_bounds, width, height in *.
        destruct (orient p); simpl in *; case_decide; lia.
      * eapply (nonoverlapping_lookup_ne _ i j (Move p d) q Hno'); [done| | |].
        -- by apply list_lookup_insert_eq.
        -- by rewrite list_lookup_insert_ne.
        -- by eapply covers_overlap.
  - intros (Hgx & Hgy & Hfree). split_and!.
    + intros Heq. apply (f_equal length) in Heq.
      rewrite length_insert in Heq. by destruct s.
    + apply Forall_insert; [done|].
      unfold in_bounds, new_cell, width, height, kBoardSize in *.
      rewrite Hmx, Hmy, Hms, Hmo.
      destruct (orient p); simpl in *; case_decide; lia.
    + apply nonoverlapping_insert; [done|].
      intros j q Hji Hj Ho.
      assert (in_bounds q) as Hq.
      { rewrite Forall_forall in Hin. apply Hin. by eapply list_elem_of_lookup_2. }
      assert (¬ overlap p q) as Hpq by (by eapply (nonoverlapping_lookup_ne s i j)).
      assert (¬ covers q (new_cell p d).1 (new_cell p d).2) as Hnew.
      { apply Hfree. by eapply list_elem_of_lookup_2. }
      unfold overlap, covers, new_cell, in_bounds, width, height in *.
      rewrite Hmx, Hmy, Hms, Hmo in Ho.
      destruct (orient p), (orient q); simpl in *; case_decide; lia.
Qed.

(** The cell that a loop of [MovementRange] reads decides the move. *)
Lemma probe_cell (s : State) buf (i : nat) p d :
  valid_state s → rendered buf s → s !! i = Some p → d = -1 ∨ d = 1 →
  in_grid (new_cell p d).1 = true → in_grid (new_cell p d).2 = true →
  ∃ cell, buf_get buf (new_cell p d).2 (new_cell p d).1 = Ret cell
          ∧ (Ascii.eqb cell kEmpty = true ↔ valid_state (slide s i d)).
Proof.
  intros Hv [_ Hcells] Hi Hd Hgx Hgy.
  destruct (Hcells _ _ Hgx Hgy) as (cell & Hget & Hcell).
  exists cell. split; [done|].
  rewrite Ascii.eqb_eq, Hcell, (slide_valid_iff s i p d) by done.
  rewrite Forall_forall. tauto.
Qed.

Lemma probe_outside (s : State) (i : nat) p d :
  valid_state s → s !! i = Some p → d = -1 ∨ d = 1 →
  in_grid (new_cell p d).1 = false ∨ in_grid (new_cell p d).2 = false →
  ¬ valid_state (slide s i d).
Proof.
  intros Hv Hi Hd Hout. rewrite (slide_valid_iff s i p d) by done.
  intros (Hgx & Hgy & _). destruct Hout; congruence.
Qed.

(** On the picture of its State, the range of a piece is [-1] or [0] on
    the lower side and [0] or [1] on the upper side, according to
    whether the move by one cell keeps the invariant. *)
Lemma MovementRange_rendered (s : State) buf (i : nat) p :
  valid_state s → rendered buf s → s !! i = Some p →
  MovementRange p buf
  = Ret (if decide (valid_state (slide s i (-1))) then -1 else 0,
         if decide (valid_state (slide s i 1)) then 1 else 0).
Proof.
  intros Hv Hr Hi.
  assert (in_bounds p) as Hp.
  { destruct Hv as (_ & Hin & _). rewrite Forall_forall in Hin.
    apply Hin. by eapply list_elem_of_lookup_2. }
  assert (∀ d, d = -1 ∨ d = 1 →
    ∀ r : res Z,
      (in_grid (new_cell p d).1 = true → in_grid (new_cell p d).2 = true →
         r = (cell ← buf_get buf (new_cell p d).2 (new_cell p d).1;
              Ret (if Ascii.eqb cell kEmpty then d else 0))) →
      (in_grid (new_cell p d).1 = false ∨ in_grid (new_cell p d).2 = false →
         r = Ret 0) →
      r = Ret (if decide (valid_state (slide s i d)) then d else 0)) as Hside.
  { intros d Hd r Hin Hout.
    destruct (in_grid (new_cell p d).1) eqn:Hgx, (in_grid (new_cell p d).2) eqn:Hgy;
      try (rewrite Hout by auto; rewrite decide_False; [done|];
           apply (probe_outside s i p d); auto; rewrite ?Hgx, ?Hgy; auto).
    rewrite Hin by done.
    destruct (probe_cell s buf i p d) as (cell & Hget & Hcell); try done.
    rewrite Hget, bind_Ret_l.
    destruct (Ascii.eqb cell kEmpty).
    - rewrite decide_True; [done|]. by apply Hcell.
    - rewrite decide_False; [done|]. intros Hval%Hcell. done. }
  unfold MovementRange.
  pose proof (Hside (-1) (or_introl eq_refl)) as Hmin.
  pose proof (Hside 1 (or_intror eq_refl)) as Hmax.
  unfold new_cell, in_bounds, width, height, kBoardSize in *.
  destruct (orient p); simpl in Hmin, Hmax.
  - rewrite (Hmin (scan_min scan_fuel (λ cur_x, buf_get buf (y p) cur_x) 0 (x p - 1))).
    + rewrite bind_Ret_l.
      rewrite (Hmax (scan_max scan_fuel (λ cur_x, buf_get buf (y p) cur_x) 0 (x p + size p))).
      * done.
      * intros Hgx _. apply in_grid_spec in Hgx. rewrite scan_max_step; [done|].
        unfold kBoardSize in *. lia.
      * intros [Hg|Hg]; apply not_true_iff_false in Hg; rewrite in_grid_spec in Hg;
          unfold kBoardSize in *; [|lia].
        apply scan_max_stop. unfold kBoardSize. lia.
    + intros Hgx _. apply in_grid_spec in Hgx. rewrite scan_min_step; [done|lia].
    + intros [Hg|Hg]; apply not_true_iff_false in Hg; rewrite in_grid_spec in Hg;
        unfold kBoardSize in *; [|lia].
      apply scan_min_stop. lia.
  - rewrite (Hmin (scan_min scan_fuel (λ cur_y, buf_get buf cur_y (x p)) 0 (y p - 1))).
    + rewrite bind_Ret_l.
      rewrite (Hmax (scan_max scan_fuel (λ cur_y, buf_get buf cur_y (x p)) 0 (y p + size p))).
      * done.
      * intros _ Hgy. apply in_grid_spec in Hgy. rewrite scan_max_step; [done|].
        unfold kBoardSize in *. lia.
      * intros [Hg|Hg]; apply not_true_iff_false in Hg; rewrite in_grid_spec in Hg;
          unfold kBoardSize in *; [lia|].
        apply scan_max_stop. unfold kBoardSize. lia.
    + intros _ Hgy. apply in_grid_spec in Hgy. rewrite scan_min_step; [done|lia].
    + intros [Hg|Hg]; apply not_true_iff_false in Hg; rewrite in_grid_spec in Hg;
        unfold kBoardSize in *; [lia|].
      apply scan_min_stop. lia.
Qed.

(** ** Neighbors *)

Lemma Canonicalize_canon (s : State) : s ≠ [] → Canonicalize s = Ret (canon s).
Proof. by destruct s. Qed.

Lemma slide_nonempty (s : State) (i : nat) d : s ≠ [] → slide s i d ≠ [].
Proof.
  intros Hs. unfold slide. destruct (s !! i); [|done].
  intros Heq. apply (f_equal length) in Heq. rewrite length_insert in Heq.
  by destruct s.
Qed.

Lemma moves_of_range (s : State) (i : nat) p :
  s !! i = Some p →
  moves_of s i
    (seqZ (if decide (valid_state (slide s i (-1))) then -1 else 0)
          ((if decide (valid_state (slide s i 1)) then 1 else 0)
           - (if decide (valid_state (slide s i (-1))) then -1 else 0) + 1))
  = Ret (moves_from s i).
Proof.
  intros Hi. unfold moves_from.
  assert (s ≠ []) as Hne by (by destruct s).
  assert (∀ d, Canonicalize (<[i := Move p d]> s) = Ret (canon (slide s i d))) as Hc.
  { intros d. rewrite <- (slide_lookup s i p d Hi).
    by apply Canonicalize_canon, slide_nonempty. }
  rewrite !filter_cons, filter_nil.
  destruct (decide (valid_state (slide s i (-1)))),
           (decide (valid_state (slide s i 1)));
    cbn [moves_of seqZ]; simpl; rewrite ?Hi, ?Hc; reflexivity.
Qed.

Lemma Neighbors_loop_valid (s : State) buf (pre ps : list Piece) :
  valid_state s → rendered buf s → s = pre ++ ps →
  Neighbors_loop s buf (length pre) ps
  = Ret (i ← seq (length pre) (length ps); moves_from s i).
Proof.
  intros Hv Hr. revert pre. induction ps as [|p ps IH]; intros pre Hs; [done|].
  assert (s !! length pre = Some p) as Hi.
  { rewrite Hs. by apply list_lookup_middle. }
  cbn [Neighbors_loop].
  rewrite (MovementRange_rendered s buf (length pre) p) by done.
  rewrite bind_Ret_l. rewrite (moves_of_range s (length pre) p) by done.
  rewrite bind_Ret_l.
  specialize (IH (pre ++ [p])). rewrite length_app, Nat.add_1_r in IH.
  rewrite IH by (by rewrite <- app_assoc). done.
Qed.

(** On a State that satisfies the invariant [Neighbors] returns, and
    returns the moves of one cell in the order of the piece indices. *)
Lemma Neighbors_valid (s : State) :
  valid_state s → Neighbors s = Ret (neighbors_list s).
Proof.
  intros Hv. unfold Neighbors.
  destruct (State_Draw_valid s Hv) as (buf & -> & Hr). rewrite bind_Ret_l.
  by apply (Neighbors_loop_valid s buf [] s).
Qed.

Lemma elem_of_moves_from (s : State) (i : nat) n :
  n ∈ moves_from s i ↔
  ∃ d, (d = -1 ∨ d = 1) ∧ valid_state (slide s i d) ∧ n = canon (slide s i d).
Proof.
  unfold moves_from. rewrite list_elem_of_fmap. split.
  - intros (d & -> & [Hd Hv]%list_elem_of_filter). exists d. split; [|done].
    apply elem_of_cons in Hv as [->|Hv]; [by left|].
    apply list_elem_of_singleton in Hv as ->. by right.
  - intros (d & Hd & Hv & ->). exists d. split; [done|].
    apply list_elem_of_filter. split; [done|].
    destruct Hd as [-> | ->]; [by left|]. right. by left.
Qed.

Lemma elem_of_neighbors_list (s : State) n :
  s ≠ [] → n ∈ neighbors_list s ↔ unit_move s n.
Proof.
  intros Hne. unfold neighbors_list, unit_move. rewrite list_elem_of_bind. split.
  - intros (i & (d & Hd & Hv & ->)%elem_of_moves_from & Hi%elem_of_seq).
    exists i, d. split_and!; [lia|done..|].
    by apply Canonicalize_canon, slide_nonempty.
  - intros (i & d & Hi & Hd & Hv & Hc). exists i. split; [|apply elem_of_seq; lia].
    apply elem_of_moves_from. exists d. split_and!; [done..|].
    rewrite Canonicalize_canon in Hc by (by apply slide_nonempty). congruence.
Qed.

Lemma unit_move_valid (s n : State) : unit_move s n → valid_state n.
Proof. intros (i & d & _ & _ & Hv & Hc). by eapply Canonicalize_valid. Qed.

Lemma Move_zero p : in_bounds p → Move p 0 = p.
Proof.
  intros Hp. unfold Move, in_bounds, width, height, kBoardSize in *.
  destruct p as [a b c o]; simpl in *.
  destruct o; rewrite Z.add_0_r, wrap8_small by lia; done.
Qed.

Lemma slide_zero (s : State) (i : nat) : Forall in_bounds s → slide s i 0 = s.
Proof.
  intros Hin. unfold slide. destruct (s !! i) as [p|] eqn:Hi; [|done].
  rewrite Move_zero; [by apply list_insert_id|].
  rewrite Forall_forall in Hin. apply Hin. by eapply list_elem_of_lookup_2.
Qed.

Lemma rendered_wf buf ps : rendered buf ps → wf_buf buf.
Proof. by intros [? _]. Qed.

(** C1, as amended.  On the picture of a State that satisfies the
    invariant, [MovementRange] returns the bounds of the scan of the
    specification cut off at one cell on each side, and the piece may
    move by every delta within the returned bounds. *)
Theorem MovementRange_one_cell (s : State) (i : nat) (p : Piece) (buf : DrawBuf) :
  valid_state s → s !! i = Some p → State_Draw s = Ret buf →
  ∃ lo hi,
    spec_MovementRange p buf = Ret (lo, hi)
    ∧ MovementRange p buf = Ret (Z.max (-1) lo, Z.min 1 hi)
    ∧ ∀ d, Z.max (-1) lo ≤ d ≤ Z.min 1 hi → valid_state (slide s i d).
Proof.
  intros Hv Hi Hdraw.
  destruct (State_Draw_valid s Hv) as (buf' & Hdraw' & Hr).
  assert (buf' = buf) as -> by congruence.
  assert (in_bounds p) as Hp.
  { destruct Hv as (_ & Hin & _). rewrite Forall_forall in Hin.
    apply Hin. by eapply list_elem_of_lookup_2. }
  destruct (MovementRange_clamp p buf (rendered_wf _ _ Hr) Hp) as (lo & hi & Hspec & Hcode).
  exists lo, hi. split_and!; [done..|].
  rewrite (MovementRange_rendered s buf i p Hv Hr Hi) in Hcode.
  injection Hcode as Hlo Hhi. intros d Hd.
  assert (d = -1 ∨ d = 0 ∨ d = 1) as [-> | [-> | ->]] by lia.
  - destruct (decide (valid_state (slide s i (-1)))); [done|lia].
  - rewrite slide_zero; [done|]. by destruct Hv as (_ & ? & _).
  - destruct (decide (valid_state (slide s i 1))); [done|lia].
Qed.

Lemma MovementRange_one_cell_witness :
  ∃ lo hi,
    spec_MovementRange (mkPiece 1 2 2 kHoriz)
      (buf_set (buf_set empty_buf 2 1 "*") 2 2 "*") = Ret (lo, hi)
    ∧ MovementRange (mkPiece 1 2 2 kHoriz)
        (buf_set (buf_set empty_buf 2 1 "*") 2 2 "*")
      = Ret (Z.max (-1) lo, Z.min 1 hi)
    ∧ ∀ d, Z.max (-1) lo ≤ d ≤ Z.min 1 hi →
        valid_state (slide [mkPiece 1 2 2 kHoriz] 0 d).
Proof.
  apply (MovementRange_one_cell [mkPiece 1 2 2 kHoriz] 0 (mkPiece 1 2 2 kHoriz)).
  - by apply (bool_decide_unpack _); vm_compute.
  - reflexivity.
  - reflexivity.
Defined.

(** C1, as stated, fails: alone on the board at the left end of a row, a
    piece of two cells has four empty cells to its right; the scan of the
    specification counts them all, [MovementRange] counts one. *)
Lemma MovementRange_full_scan_counterexample :
  ∃ buf,
    State_Draw [mkPiece 0 0 2 kHoriz] = Ret buf
    ∧ spec_MovementRange (mkPiece 0 0 2 kHoriz) buf = Ret (0, 4)
    ∧ MovementRange (mkPiece 0 0 2 kHoriz) buf = Ret (0, 1)
    ∧ MovementRange (mkPiece 0 0 2 kHoriz) buf
      ≠ spec_MovementRange (mkPiece 0 0 2 kHoriz) buf.
Proof. eexists. split_and!; [reflexivity..|]. vm_compute. discriminate. Qed.

(** C3. Every State that [Neighbors] produces from a State whose pieces
    are in bounds and do not overlap has pieces that do not overlap, and
    is rendered without reaching the clash branch of [Piece::Draw]. *)
Theorem Neighbors_no_overlap (s : State) :
  Forall in_bounds s → nonoverlapping s →
  ∃ ns, Neighbors s = Ret ns
        ∧ ∀ n, n ∈ ns → nonoverlapping n ∧ ∃ buf, State_Draw n = Ret buf.
Proof.
  intros Hin Hno. destruct (decide (s = [])) as [->|Hne].
  - exists []. split; [done|]. intros n Hn. by apply elem_of_nil in Hn.
  - exists (neighbors_list s). split; [by apply Neighbors_valid|].
    intros n Hn%elem_of_neighbors_list; [|done].
    apply unit_move_valid in Hn. split; [by destruct Hn as (_ & _ & ?)|].
    destruct (State_Draw_valid n Hn) as (buf & ? & _). eauto.
Qed.

Lemma Neighbors_no_overlap_witness :
  ∃ ns, Neighbors main_state = Ret ns
        ∧ ∀ n, n ∈ ns → nonoverlapping n ∧ ∃ buf, State_Draw n = Ret buf.
Proof.
  apply Neighbors_no_overlap.
  - by apply (bool_decide_unpack _); vm_compute.
  - by apply (bool_decide_unpack _); vm_compute.
Defined.

Lemma Move_one_cell p d :
  in_bounds p → d = -1 ∨ d = 1 →
  Move p d
  = match orient p with
    | kHoriz => mkPiece (x p + d) (y p) (size p) kHoriz
    | kVert => mkPiece (x p) (y p + d) (size p) kVert
    end.
Proof.
  intros Hp Hd. unfold Move, in_bounds, width, height, kBoardSize in *.
  destruct (orient p); rewrite wrap8_small by lia; done.
Qed.

(** C10. [MovementRange] returns bounds between [-1] and [1] around [0]
    and returns them on every board buffer for every piece in bounds;
    hence every State that [Neighbors] produces from a State whose pieces
    are in bounds and do not overlap is the parent with exactly one piece
    moved by one cell along its axis, canonicalized, and all its pieces
    are in bounds. *)
Theorem MovementRange_unit_bounds :
  (∀ (p : Piece) (buf : DrawBuf) lo hi,
     MovementRange p buf = Ret (lo, hi) → -1 ≤ lo ≤ 0 ∧ 0 ≤ hi ≤ 1)
  ∧ (∀ (p : Piece) (buf : DrawBuf),
       wf_buf buf → in_bounds p → ∃ lo hi, MovementRange p buf = Ret (lo, hi))
  ∧ (∀ s : State,
       Forall in_bounds s → nonoverlapping s →
       ∃ ns, Neighbors s = Ret ns
             ∧ ∀ n, n ∈ ns →
                 ∃ (i : nat) (p : Piece) (delta : Z),
                   s !! i = Some p ∧ (delta = -1 ∨ delta = 1)
                   ∧ Move p delta
                     = match orient p with
                       | kHoriz => mkPiece (x p + delta) (y p) (size p) kHoriz
                       | kVert => mkPiece (x p) (y p + delta) (size p) kVert
                       end
                   ∧ Canonicalize (<[i := Move p delta]> s) = Ret n
                   ∧ n ≡ₚ <[i := Move p delta]> s
                   ∧ Forall in_bounds n).
Proof.
  split_and!.
  - apply MovementRange_bounds.
  - intros p buf Hwf Hp.
    destruct (MovementRange_clamp p buf Hwf Hp) as (lo & hi & _ & H). eauto.
  - intros s Hin Hno. destruct (decide (s = [])) as [->|Hne].
    { exists []. split; [done|]. intros n Hn. by apply elem_of_nil in Hn. }
    exists (neighbors_list s). split; [by apply Neighbors_valid|].
    intros n Hn%elem_of_neighbors_list; [|done].
    pose proof (unit_move_valid s n Hn) as (_ & Hinn & _).
    destruct Hn as (i & d & Hi & Hd & Hv & Hc).
    destruct (lookup_lt_is_Some_2 s i Hi) as [p Hp].
    rewrite (slide_lookup s i p d Hp) in Hc.
    exists i, p, d. split_and!; try done; [|by apply Canonicalize_perm].
    apply Move_one_cell; [|done].
    rewrite Forall_forall in Hin. apply Hin. by eapply list_elem_of_lookup_2.
Qed.

Lemma MovementRange_unit_bounds_witness :
  (∃ lo hi, MovementRange (mkPiece 0 2 2 kHoriz) empty_buf = Ret (lo, hi)
            ∧ -1 ≤ lo ≤ 0 ∧ 0 ≤ hi ≤ 1)
  ∧ ∃ ns, Neighbors main_state = Ret ns
          ∧ ∀ n, n ∈ ns →
              ∃ (i : nat) (p : Piece) (delta : Z),
                main_state !! i = Some p ∧ (delta = -1 ∨ delta = 1)
                ∧ Move p delta
                  = match orient p with
                    | kHoriz => mkPiece (x p + delta) (y p) (size p) kHoriz
                    | kVert => mkPiece (x p) (y p + delta) (size p) kVert
                    end
                ∧ Canonicalize (<[i := Move p delta]> main_state) = Ret n
                ∧ n ≡ₚ <[i := Move p delta]> main_state
                ∧ Forall in_bounds n.
Proof.
  destruct MovementRange_unit_bounds as (Hb & Hret & Hn). split.
  - destruct (Hret (mkPiece 0 2 2 kHoriz) empty_buf) as (lo & hi & Hr).
    + apply empty_buf_rendered.
    + by apply (bool_decide_unpack _); vm_compute.
    + exists lo, hi. split; [done|]. by apply (Hb _ _ _ _ Hr).
  - apply Hn; by apply (bool_decide_unpack _); vm_compute.
Defined.

(** ** The finite universe of States *)

Lemma in_bounds_all_pieces p : in_bounds p → p ∈ all_pieces.
Proof.
  intros Hp. unfold all_pieces.
  apply list_elem_of_bind. exists (x p). split; [|
    apply elem_of_seqZ; unfold in_bounds, width, height, kBoardSize in *;
    destruct (orient p); lia].
  apply list_elem_of_bind. exists (y p). split; [|
    apply elem_of_seqZ; unfold in_bounds, width, height, kBoardSize in *;
    destruct (orient p); lia].
  apply list_elem_of_bind. exists (size p). split; [|
    apply elem_of_seqZ; unfold in_bounds, width, height, kBoardSize in *;
    destruct (orient p); lia].
  apply list_elem_of_bind. exists (orient p). split.
  - destruct p. apply list_elem_of_singleton. done.
  - destruct (orient p); [by left|right; by left].
Qed.

Lemma lists_upto_elem (ps : list Piece) (k : nat) (l : State) :
  (length l ≤ k)%nat → Forall (λ p, p ∈ ps) l → l ∈ lists_upto ps k.
Proof.
  revert l. induction k as [|k IH]; intros [|p l]; simpl; intros Hlen Hall.
  - by left.
  - lia.
  - by left.
  - right. apply Forall_cons in Hall as [Hp Hl].
    apply list_elem_of_bind. exists p. split; [|done].
    apply list_elem_of_fmap. exists l. split; [done|]. apply IH; [lia|done].
Qed.

Lemma valid_in_universe (s : State) : valid_state s → s ∈ universe.
Proof.
  intros (_ & Hin & Hno). rewrite universe_unseal. apply elem_of_list_to_set.
  apply lists_upto_elem; [by apply valid_state_length|].
  eapply Forall_impl; [exact Hin|]. apply in_bounds_all_pieces.
Qed.

(** ** Fuel *)

Lemma TracePathTo_loop_mono (fuel fuel' : nat) prev (s : State) acc r :
  TracePathTo_loop fuel prev s acc = Some r → (fuel ≤ fuel')%nat →
  TracePathTo_loop fuel' prev s acc = Some r.
Proof.
  revert fuel' s acc. induction fuel as [|fuel IH]; intros fuel' s acc; [done|].
  intros H Hle. destruct fuel' as [|fuel']; [lia|]. simpl in *.
  destruct s as [|p s]; [done|].
  destruct (prev !! (p :: s)); [|done]. apply IH; [done|lia].
Qed.

Lemma Solve_loop_mono (fuel fuel' : nat) dx dy queue prev r :
  Solve_loop fuel dx dy queue prev = Some r → (fuel ≤ fuel')%nat →
  Solve_loop fuel' dx dy queue prev = Some r.
Proof.
  revert fuel' queue prev. induction fuel as [|fuel IH]; intros fuel' queue prev; [done|].
  intros H Hle. destruct fuel' as [|fuel']; [lia|]. simpl in *.
  destruct queue as [|elem queue]; [done|].
  destruct (state elem) as [|front_piece rest]; [done|].
  destruct (decide (x front_piece = dx ∧ y front_piece = dy)).
  - eapply TracePathTo_loop_mono; [done|lia].
  - destruct (Neighbors (front_piece :: rest)) as [ns| |]; [|done..].
    destruct (fold_left (visit elem) ns (queue, prev)) as [queue'' prev'].
    apply IH; [done|lia].
Qed.

(** The result of [Solve] does not depend on the fuel that suffices. *)
Lemma Solve_fuel_irrelevant (fuel1 fuel2 : nat) (start : State) dx dy r1 r2 :
  Solve fuel1 start dx dy = Some r1 → Solve fuel2 start dx dy = Some r2 → r1 = r2.
Proof.
  unfold Solve, Game_Solve. intros H1 H2.
  apply (Solve_loop_mono _ (max fuel1 fuel2)) in H1; [|lia].
  apply (Solve_loop_mono _ (max fuel1 fuel2)) in H2; [|lia].
  congruence.
Qed.

(** ** Paths *)

Lemma linked_snoc (R : State → State → Prop) (l : list State) a b :
  linked R l → last l = Some a → R a b → linked R (l ++ [b]).
Proof.
  induction l as [|a0 [|a1 l] IH]; simpl; intros Hl Hlast HR.
  - done.
  - injection Hlast as ->. done.
  - destruct Hl as [H01 Hl]. split; [done|]. by apply IH.
Qed.

Lemma linked_nsteps (R : State → State → Prop) (l : list State) a b :
  linked R l → head l = Some a → last l = Some b →
  nsteps R (length l - 1) a b.
Proof.
  revert a. induction l as [|a0 [|a1 l] IH]; intros a Hl Hhead Hlast; [done| |].
  - simpl in *. injection Hhead as <-. injection Hlast as <-. constructor.
  - destruct Hl as [H01 Hl]. injection Hhead as <-.
    replace (length (a0 :: a1 :: l) - 1)%nat with (S (length (a1 :: l) - 1))
      by (simpl; lia).
    econstructor; [exact H01|]. by apply IH.
Qed.

Lemma TracePathTo_loop_step (fuel : nat) prev (s t : State) acc :
  s ≠ [] → prev !! s = Some t →
  TracePathTo_loop (S fuel) prev s acc = TracePathTo_loop fuel prev t (acc ++ [s]).
Proof. intros Hs Ht. destruct s; [done|]. simpl. by rewrite Ht. Qed.

Section search.
Context (start : State) (dest_x dest_y : Z).

Lemma bfs_inv_start_valid depth level pending prev :
  bfs_inv start dest_x dest_y depth level pending prev → valid_state start.
Proof. intros Hinv. eapply inv_valid; [done|]. by rewrite (inv_start _ _ _ _ _ _ _ Hinv). Qed.

(** [TracePathTo] walks the backpointers down to the start State. *)
Lemma TracePathTo_loop_inv depth level pending prev (n : nat) :
  bfs_inv start dest_x dest_y depth level pending prev →
  ∀ (s : State) acc, is_Some (prev !! s) → depth s = n →
  ∃ path,
    (∀ fuel, (n + 2 ≤ fuel)%nat →
       TracePathTo_loop fuel prev s acc = Some (Ret (path ++ reverse acc)))
    ∧ head path = Some start ∧ last path = Some s
    ∧ linked unit_move path ∧ length path = S n.
Proof.
  intros Hinv. induction n as [|n IH]; intros s acc [t Ht] Hd.
  - assert (s = start) as ->.
    { destruct (decide (s = start)) as [|Hne]; [done|].
      destruct (inv_prev _ _ _ _ _ _ _ Hinv s t Ht Hne) as (_ & _ & ?). lia. }
    exists [start]. split_and!; try done.
    intros fuel Hfuel. destruct fuel as [|[|fuel]]; try lia.
    pose proof (bfs_inv_start_valid _ _ _ _ Hinv) as (Hne & _).
    rewrite (TracePathTo_loop_step _ _ start [])
      by (done || apply (inv_start _ _ _ _ _ _ _ Hinv)).
    simpl. by rewrite reverse_snoc.
  - assert (s ≠ start) as Hne.
    { intros ->. rewrite (inv_start_depth _ _ _ _ _ _ _ Hinv) in Hd. lia. }
    destruct (inv_prev _ _ _ _ _ _ _ Hinv s t Ht Hne) as (Hvt & Hmove & Hds).
    destruct (IH t (acc ++ [s]) Hvt) as (path & Hrun & Hhead & Hlast & Hlinked & Hlen);
      [lia|].
    exists (path ++ [s]). split_and!.
    + intros fuel Hfuel. destruct fuel as [|fuel]; [lia|].
      assert (valid_state s) as (Hs & _).
      { eapply inv_valid; [done|]. by rewrite Ht. }
      rewrite (TracePathTo_loop_step _ _ s t) by done. rewrite Hrun by lia.
      by rewrite reverse_snoc, <- app_assoc.
    + destruct path; [done|]. done.
    + apply last_snoc.
    + by eapply linked_snoc.
    + rewrite length_app. simpl. lia.
Qed.

Lemma bfs_inv_head_level depth level e q prev :
  bfs_inv start dest_x dest_y depth level (e :: q) prev →
  bfs_inv start dest_x dest_y depth (depth (state e)) (e :: q) prev.
Proof.
  intros Hinv. destruct (inv_levels _ _ _ _ _ _ _ Hinv) as (q1 & q2 & Hq & H1 & H2).
  destruct q1 as [|e1 q1].
  - simpl in Hq. subst q2. pose proof (Forall_inv H2) as He. simpl in He.
    destruct Hinv. split; try done.
    + exists (e :: q), []. rewrite app_nil_r, He. split_and!; [done..|constructor].
    + intros s Hs. specialize (inv_bound0 s Hs). lia.
  - injection Hq as <- Hq. pose proof (Forall_inv H1) as He. simpl in He.
    by rewrite He.
Qed.

Lemma bfs_inv_pending_level depth e q prev :
  bfs_inv start dest_x dest_y depth (depth (state e)) (e :: q) prev →
  ∀ e', e' ∈ e :: q → (depth (state e) ≤ depth (state e'))%nat.
Proof.
  intros Hinv e' He'.
  destruct (inv_levels _ _ _ _ _ _ _ Hinv) as (q1 & q2 & Hq & H1 & H2).
  rewrite Hq in He'. rewrite Forall_forall in H1, H2.
  apply elem_of_app in He' as [He'|He'].
  - by rewrite (H1 e' He').
  - rewrite (H2 e' He'). lia.
Qed.

(** Every State within [level] moves of the start is recorded, at a
    depth that is at most the number of moves. *)
Lemma bfs_inv_near depth e q prev (k : nat) (t : State) :
  bfs_inv start dest_x dest_y depth (depth (state e)) (e :: q) prev →
  nsteps unit_move k start t → (k ≤ depth (state e))%nat →
  is_Some (prev !! t) ∧ (depth t ≤ k)%nat.
Proof.
  intros Hinv. revert t. induction k as [|k IH]; intros t Hsteps Hk.
  - inversion Hsteps; subst.
    rewrite (inv_start _ _ _ _ _ _ _ Hinv), (inv_start_depth _ _ _ _ _ _ _ Hinv).
    split; [by eexists|lia].
  - apply nsteps_inv_r in Hsteps as (t' & Hsteps & Hmove).
    destruct (IH t' Hsteps) as [Hvis Hdep]; [lia|].
    destruct (inv_closed _ _ _ _ _ _ _ Hinv t' Hvis) as [(e' & He' & <-)|[_ Hexp]].
    + pose proof (bfs_inv_pending_level _ _ _ _ Hinv e' He'). lia.
    + destruct (Hexp t Hmove) as [? ?]. split; [done|lia].
Qed.

Lemma bfs_inv_shortest depth e q prev (path : list State) :
  bfs_inv start dest_x dest_y depth (depth (state e)) (e :: q) prev →
  length path = S (depth (state e)) →
  shortest unit_move start dest_x dest_y path.
Proof.
  intros Hinv Hlen other (Hhead & Hlinked & final & Hlast & Hgoal).
  pose proof (linked_nsteps _ _ _ _ Hlinked Hhead Hlast) as Hsteps.
  assert (0 < length other)%nat by (destruct other; simpl; [done|lia]).
  destruct (decide (length other - 1 < depth (state e))%nat) as [Hlt|]; [|lia].
  destruct (bfs_inv_near _ _ _ _ _ _ Hinv Hsteps) as [Hvis Hdep]; [lia|].
  destruct (inv_closed _ _ _ _ _ _ _ Hinv final Hvis) as [(e' & He' & <-)|[Hng _]].
  - pose proof (bfs_inv_pending_level _ _ _ _ Hinv e' He'). lia.
  - done.
Qed.

(** When the queue is empty every reachable State has been expanded. *)
Lemma bfs_inv_exhausted depth level prev (s : State) :
  bfs_inv start dest_x dest_y depth level [] prev →
  rtc unit_move start s → ¬ at_target s dest_x dest_y.
Proof.
  intros Hinv Hreach.
  assert (is_Some (prev !! s)) as Hvis.
  { revert s Hreach. apply (rtc_ind_r (λ s, is_Some (prev !! s))).
    - rewrite (inv_start _ _ _ _ _ _ _ Hinv). by eexists.
    - intros t s _ Hmove IH.
      destruct (inv_closed _ _ _ _ _ _ _ Hinv t IH) as [(e & He & _)|[_ Hexp]].
      + by apply elem_of_nil in He.
      + by destruct (Hexp s Hmove). }
  destruct (inv_closed _ _ _ _ _ _ _ Hinv s Hvis) as [(e & He & _)|[Hng _]]; [|done].
  by apply elem_of_nil in He.
Qed.
End search.

Lemma bfs_measure_visit (queue : list QueueElem) prev (n t : State) (e : QueueElem) :
  valid_state n → prev !! n = None →
  (bfs_measure (queue ++ [e]) (<[n := t]> prev) ≤ bfs_measure queue prev)%nat.
Proof.
  intros Hv%valid_in_universe Hn%not_elem_of_dom. unfold bfs_measure.
  rewrite length_app, dom_insert_L. revert Hv. generalize universe. intros U Hv.
  assert (U ∖ ({[n]} ∪ dom prev) ⊂ U ∖ dom prev) as Hsub.
  { split.
    - intros s. rewrite !elem_of_difference, elem_of_union. tauto.
    - intros Hsub. specialize (Hsub n).
      rewrite !elem_of_difference, elem_of_union, elem_of_singleton in Hsub. tauto. }
  apply subset_size in Hsub. change (length [e]) with 1%nat. lia.
Qed.

Section expansion.
Context (start : State) (dest_x dest_y : Z).

(** Recording one neighbor of the State under expansion. *)
Lemma visit_inv depth e q prev (n : State) q' prev' :
  bfs_inv start dest_x dest_y depth (depth (state e)) (e :: q) prev →
  unit_move (state e) n →
  visit e (q, prev) n = (q', prev') →
  ∃ depth',
    bfs_inv start dest_x dest_y depth' (depth' (state e)) (e :: q') prev'
    ∧ (∀ s, is_Some (prev !! s) → is_Some (prev' !! s) ∧ depth' s = depth s)
    ∧ is_Some (prev' !! n) ∧ (depth' n ≤ S (depth' (state e)))%nat
    ∧ (bfs_measure q' prev' ≤ bfs_measure q prev)%nat.
Proof.
  intros Hinv Hmove Hvisit. unfold visit in Hvisit.
  assert (is_Some (prev !! state e)) as Hve.
  { apply (inv_queue _ _ _ _ _ _ _ Hinv). by left. }
  destruct (prev !! n) as [t|] eqn:Hn.
  - injection Hvisit as <- <-. exists depth. split_and!; try done.
    apply (inv_bound _ _ _ _ _ _ _ Hinv). by rewrite Hn.
  - injection Hvisit as <- <-.
    set (level := depth (state e)) in *.
    set (depth' := λ s : State, if decide (s = n) then S level else depth s).
    assert (∀ s, is_Some (prev !! s) → depth' s = depth s) as Hold.
    { intros s [t Hs]. unfold depth'. rewrite decide_False; [done|]. congruence. }
    assert (∀ s, is_Some (prev !! s) → is_Some (<[n := state e]> prev !! s)) as Hkeep.
    { intros s [t Hs]. rewrite lookup_insert_ne by congruence. by rewrite Hs. }
    assert (depth' n = S level) as Hdn by (unfold depth'; by rewrite decide_True).
    assert (depth' (state e) = level) as Hde by (by rewrite Hold).
    assert (valid_state n) as Hvn by (by eapply unit_move_valid).
    exists depth'. rewrite Hde, Hdn. split_and!; try done.
    + destruct Hinv. split.
      * rewrite lookup_insert_ne; [done|]. congruence.
      * rewrite Hold; [done|]. by rewrite inv_start0.
      * intros s [t Hs]. apply lookup_insert_Some in Hs as [[<- _]|[_ Hs]]; [done|].
        apply inv_valid0. by rewrite Hs.
      * intros s t Hs Hne.
        apply lookup_insert_Some in Hs as [[<- <-]|[Hsn Hs]].
        -- split_and!; [by apply Hkeep|done|]. by rewrite Hdn, Hde.
        -- destruct (inv_prev0 s t Hs Hne) as (Hvt & Hm & Hd).
           split_and!; [by apply Hkeep|done|].
           rewrite !Hold; [done..|]. by rewrite Hs.
      * intros e' [->|[He'| ->%list_elem_of_singleton]%elem_of_app]%elem_of_cons.
        -- destruct (inv_queue0 e) as [? ?]; [by left|].
           split; [by apply Hkeep|]. by rewrite Hold.
        -- destruct (inv_queue0 e') as [? ?]; [by right|].
           split; [by apply Hkeep|]. by rewrite Hold.
        -- simpl. rewrite lookup_insert_eq, Hdn. split; [by eexists|].
           destruct (inv_queue0 e) as [_ ->]; [by left|]. fold level. lia.
      * destruct inv_levels0 as (q1 & q2 & Hq & H1 & H2).
        exists q1, (q2 ++ [mkQueueElem n (moves e + 1)]). split_and!.
        -- by rewrite app_assoc, <- Hq.
        -- apply Forall_forall. intros e' He'. rewrite Hold.
           ++ rewrite Forall_forall in H1. by apply H1.
           ++ apply inv_queue0. rewrite Hq. apply elem_of_app. by left.
        -- apply Forall_app. split; [|by repeat constructor].
           apply Forall_forall. intros e' He'. rewrite Hold.
           ++ rewrite Forall_forall in H2. by apply H2.
           ++ apply inv_queue0. rewrite Hq. apply elem_of_app. by right.
      * intros s [t Hs]. apply lookup_insert_Some in Hs as [[<- _]|[_ Hs]].
        -- by rewrite Hdn.
        -- rewrite Hold by (by rewrite Hs). apply inv_bound0. by rewrite Hs.
      * intros s [t Hs]. apply lookup_insert_Some in Hs as [[<- _]|[_ Hs]].
        -- left. exists (mkQueueElem n (moves e + 1)). split; [|done].
           right. apply elem_of_app. right. by left.
        -- destruct (inv_closed0 s) as [(e' & He' & <-)|[Hng Hexp]];
             [by rewrite Hs| |].
           ++ left. exists e'. split; [|done].
              apply elem_of_cons in He' as [->|He']; [by left|].
              right. apply elem_of_app. by left.
           ++ right. split; [done|]. intros n' Hn'.
              destruct (Hexp n' Hn') as [Hv' Hd'].
              split; [by apply Hkeep|].
              rewrite !Hold; [done| |done]. by rewrite Hs.
    + split; [by apply Hkeep|by apply Hold].
    + by rewrite lookup_insert_eq.
    + by apply bfs_measure_visit.
Qed.

(** Recording all the neighbors of the State under expansion. *)
Lemma visit_fold_inv (ns : list State) depth e q prev q' prev' :
  bfs_inv start dest_x dest_y depth (depth (state e)) (e :: q) prev →
  (∀ n, n ∈ ns → unit_move (state e) n) →
  fold_left (visit e) ns (q, prev) = (q', prev') →
  ∃ depth',
    bfs_inv start dest_x dest_y depth' (depth' (state e)) (e :: q') prev'
    ∧ (∀ s, is_Some (prev !! s) → is_Some (prev' !! s) ∧ depth' s = depth s)
    ∧ (∀ n, n ∈ ns → is_Some (prev' !! n) ∧ (depth' n ≤ S (depth' (state e)))%nat)
    ∧ (bfs_measure q' prev' ≤ bfs_measure q prev)%nat.
Proof.
  revert depth q prev. induction ns as [|n ns IH]; intros depth q prev Hinv Hns Hfold.
  - simpl in Hfold. injection Hfold as <- <-. exists depth.
    split_and!; try done. intros n Hn. by apply elem_of_nil in Hn.
  - cbn [fold_left] in Hfold.
    destruct (visit e (q, prev) n) as [q1 prev1] eqn:Hvisit.
    destruct (visit_inv depth e q prev n q1 prev1 Hinv) as
      (depth1 & Hinv1 & Hold1 & Hn1 & Hd1 & Hm1); [apply Hns; by left|done|].
    destruct (IH depth1 q1 prev1 Hinv1) as (depth' & Hinv' & Hold' & Hns' & Hm');
      [intros n' Hn'; apply Hns; by right|done|].
    assert (is_Some (prev1 !! state e)) as Hve.
    { apply (inv_queue _ _ _ _ _ _ _ Hinv1). by left. }
    exists depth'. split_and!; [done| | |lia].
    + intros s Hs. destruct (Hold1 s Hs) as [Hs1 Hds1].
      destruct (Hold' s Hs1) as [Hs' Hds']. split; [done|congruence].
    + intros n' [->|Hn']%elem_of_cons; [|by apply Hns'].
      destruct (Hold' n Hn1) as [? ->]. split; [done|].
      destruct (Hold' (state e) Hve) as [_ ->]. done.
Qed.

(** After the expansion the element leaves the pending list. *)
Lemma bfs_inv_pop depth level e q prev :
  bfs_inv start dest_x dest_y depth level (e :: q) prev →
  expanded dest_x dest_y depth prev (state e) →
  bfs_inv start dest_x dest_y depth level q prev.
Proof.
  intros Hinv Hexp. destruct Hinv. split; try done.
  - intros e' He'. apply inv_queue0. by right.
  - destruct inv_levels0 as (q1 & q2 & Hq & H1 & H2).
    destruct q1 as [|e1 q1].
    + simpl in Hq. subst q2. exists [], q. split_and!; [done..|].
      by apply Forall_cons in H2 as [_ ?].
    + injection Hq as <- ->. exists q1, q2. split_and!; [done| |done].
      by apply Forall_cons in H1 as [_ ?].
  - intros s Hs. destruct (inv_closed0 s Hs) as [(e' & He' & <-)|?]; [|by right].
    apply elem_of_cons in He' as [->|He']; [by right|]. left. eauto.
Qed.
End expansion.

(** ** The loop of [Solve] *)

Lemma Solve_loop_goal (fuel : nat) dx dy e q prev :
  at_target (state e) dx dy →
  Solve_loop (S fuel) dx dy (e :: q) prev = TracePathTo fuel prev (state e).
Proof.
  intros Hgoal. cbn [Solve_loop]. destruct (state e) as [|p rest]; [done|].
  simpl in Hgoal. by rewrite decide_True.
Qed.

Lemma Solve_loop_expand (fuel : nat) dx dy e q prev ns q' prev' :
  state e ≠ [] → ¬ at_target (state e) dx dy →
  Neighbors (state e) = Ret ns →
  fold_left (visit e) ns (q, prev) = (q', prev') →
  Solve_loop (S fuel) dx dy (e :: q) prev = Solve_loop fuel dx dy q' prev'.
Proof.
  intros Hne Hgoal Hns Hfold. cbn [Solve_loop].
  destruct (state e) as [|p rest] eqn:Hse; [done|].
  simpl in Hgoal. rewrite decide_False by done. by rewrite Hns, Hfold.
Qed.

Lemma Solve_loop_inv (start : State) (dx dy : Z) (μ : nat) :
  ∀ depth level queue prev,
    bfs_inv start dx dy depth level queue prev →
    (bfs_measure queue prev ≤ μ)%nat →
    ∃ fuel0 r,
      (∀ fuel, (fuel0 ≤ fuel)%nat →
         Solve_loop fuel dx dy queue prev = Some (Ret r))
      ∧ search_result start dx dy r.
Proof.
  induction μ as [|μ IH]; intros depth level queue prev Hinv Hμ;
    destruct queue as [|e q].
  1, 3: exists 1%nat, []; split;
    [intros [|fuel] ?; [lia|done]
    |left; split; [done|]; intros s Hs; by eapply bfs_inv_exhausted].
  - unfold bfs_measure in Hμ. simpl in Hμ. lia.
  - apply bfs_inv_head_level in Hinv.
    assert (is_Some (prev !! state e)) as Hve.
    { apply (inv_queue _ _ _ _ _ _ _ Hinv). by left. }
    pose proof (inv_valid _ _ _ _ _ _ _ Hinv _ Hve) as Hvalid.
    destruct (decide (at_target (state e) dx dy)) as [Hgoal|Hgoal].
    + destruct (TracePathTo_loop_inv start dx dy _ _ _ _ (depth (state e)) Hinv
                  (state e) [] Hve eq_refl)
        as (path & Hrun & Hhead & Hlast & Hlinked & Hlen).
      exists (depth (state e) + 3)%nat, path. split.
      * intros [|fuel] Hfuel; [lia|]. rewrite Solve_loop_goal by done.
        unfold TracePathTo. rewrite Hrun by lia. by rewrite app_nil_r.
      * right. split; [|by eapply bfs_inv_shortest].
        split_and!; [done..|]. by exists (state e).
    + destruct (fold_left (visit e) (neighbors_list (state e)) (q, prev))
        as [q' prev'] eqn:Hfold.
      destruct (visit_fold_inv start dx dy (neighbors_list (state e))
                depth e q prev q' prev' Hinv)
        as (depth' & Hinv' & Hold & Hns & Hm); [|done|].
      { intros n Hn. apply elem_of_neighbors_list in Hn; [done|].
        by destruct Hvalid. }
      apply bfs_inv_pop in Hinv'.
      * destruct (IH depth' _ q' prev' Hinv') as (fuel0 & r & Hrun & Hres).
        { unfold bfs_measure in *. simpl in Hμ. lia. }
        exists (S fuel0), r. split; [|done].
        intros [|fuel] Hfuel; [lia|].
        rewrite (Solve_loop_expand fuel dx dy e q prev
                 (neighbors_list (state e)) q' prev');
          [apply Hrun; lia|by destruct Hvalid|done|by apply Neighbors_valid|done].
      * split; [done|]. intros n Hn. apply Hns.
        apply elem_of_neighbors_list; [by destruct Hvalid|done].
Qed.

Lemma bfs_inv_init (start : State) (dx dy : Z) :
  valid_state start →
  bfs_inv start dx dy (λ _, 0%nat) 0 [mkQueueElem start 0] (<[start := []]> ∅).
Proof.
  intros Hv. split.
  - by rewrite lookup_insert_eq.
  - done.
  - intros s [t Hs]. by apply lookup_insert_Some in Hs as [[<- _]|[_ Hs]].
  - intros s t Hs Hne. by apply lookup_insert_Some in Hs as [[<- _]|[_ Hs]].
  - intros e ->%list_elem_of_singleton. simpl.
    rewrite lookup_insert_eq. split; [by eexists|done].
  - exists [mkQueueElem start 0], []. split_and!; [done| |constructor].
    by repeat constructor.
  - intros. lia.
  - intros s [t Hs]. apply lookup_insert_Some in Hs as [[<- _]|[_ Hs]]; [|done].
    left. exists (mkQueueElem start 0). split; [by left|done].
Qed.

(** On a start State that satisfies the invariant the search returns,
    with any fuel from some amount on, either the empty sequence, when
    no reachable State is solved, or a shortest solution. *)
Lemma Solve_total (start : State) (dx dy : Z) :
  valid_state start →
  ∃ fuel0 r,
    (∀ fuel, (fuel0 ≤ fuel)%nat → Solve fuel start dx dy = Some (Ret r))
    ∧ search_result start dx dy r.
Proof.
  intros Hv. unfold Solve, Game_Solve, Game_new, emplace. simpl.
  rewrite lookup_empty.
  eapply (Solve_loop_inv start dx dy); [by apply bfs_inv_init|done].
Qed.

(** ** The results of [Solve] *)

Lemma Solve_success (fuel : nat) (start : State) (dx dy : Z) (path : list State) :
  valid_state start → Solve fuel start dx dy = Some (Ret path) → path ≠ [] →
  solution unit_move start dx dy path ∧ shortest unit_move start dx dy path.
Proof.
  intros Hv Hrun Hne.
  destruct (Solve_total start dx dy Hv) as (fuel0 & r & Hrun0 & Hres).
  specialize (Hrun0 fuel0 (Nat.le_refl _)).
  assert (path = r) as <-.
  { pose proof (Solve_fuel_irrelevant _ _ _ _ _ _ _ Hrun Hrun0). congruence. }
  by destruct Hres as [[-> _]|?].
Qed.

(** C8. When [Solve] succeeds the sequence it returns is the path from
    the start State to a solved State: it begins with the start State,
    ends with a State whose goal piece is on the target, consecutive
    States are one move apart, and it has one element more than it has
    moves. *)
Theorem Solve_path (fuel : nat) (start : State) (dest_x dest_y : Z)
    (path : list State) :
  valid_state start →
  Solve fuel start dest_x dest_y = Some (Ret path) → path ≠ [] →
  head path = Some start
  ∧ linked unit_move path
  ∧ ∃ (final : State) (k : nat),
      last path = Some final ∧ at_target final dest_x dest_y
      ∧ nsteps unit_move k start final ∧ length path = S k.
Proof.
  intros Hv Hrun Hne.
  destruct (Solve_success fuel start dest_x dest_y path Hv Hrun Hne)
    as [(Hhead & Hlinked & final & Hlast & Hgoal) _].
  split_and!; [done..|]. exists final, (length path - 1)%nat.
  split_and!; [done..|by apply linked_nsteps|].
  destruct path; simpl; [done|lia].
Qed.

Lemma Solve_path_witness :
  let start := [mkPiece 0 0 2 kHoriz; mkPiece 3 0 2 kVert] in
  let path :=
    [ [mkPiece 0 0 2 kHoriz; mkPiece 3 0 2 kVert];
      [mkPiece 1 0 2 kHoriz; mkPiece 3 0 2 kVert];
      [mkPiece 1 0 2 kHoriz; mkPiece 3 1 2 kVert];
      [mkPiece 2 0 2 kHoriz; mkPiece 3 1 2 kVert];
      [mkPiece 3 0 2 kHoriz; mkPiece 3 1 2 kVert];
      [mkPiece 4 0 2 kHoriz; mkPiece 3 1 2 kVert] ] in
  head path = Some start
  ∧ linked unit_move path
  ∧ ∃ (final : State) (k : nat),
      last path = Some final ∧ at_target final 4 0
      ∧ nsteps unit_move k start final ∧ length path = S k.
Proof.
  intros start path. apply (Solve_path 40 start 4 0 path).
  - by apply (bool_decide_unpack _); vm_compute.
  - by vm_compute.
  - done.
Defined.

(** *** Slides without canonical forms *)

Lemma insert_delete_perm (l : list Piece) (i : nat) p q :
  l !! i = Some p → <[i := q]> l ≡ₚ q :: delete i l.
Proof.
  intros Hi. rewrite insert_take_drop by (by eapply lookup_lt_Some).
  rewrite delete_take_drop. symmetry. apply Permutation_middle.
Qed.

Lemma insert_perm (l l' : list Piece) (i i' : nat) p q :
  l ≡ₚ l' → l !! i = Some p → l' !! i' = Some p →
  <[i := q]> l ≡ₚ <[i' := q]> l'.
Proof.
  intros Hperm Hi Hi'.
  rewrite (insert_delete_perm l i p q Hi), (insert_delete_perm l' i' p q Hi').
  f_equiv. apply (inj (cons p)).
  by rewrite <- (delete_Permutation l i p Hi), <- (delete_Permutation l' i' p Hi').
Qed.

(** A slide between two States is a move between their layouts. *)
Lemma unit_slide_move (s s' t : State) :
  same_layout s t → unit_slide s s' →
  ∃ t', unit_move t t' ∧ same_layout s' t'.
Proof.
  intros (goal & rest & rest' & -> & -> & Hperm) (i & d & Hi & Hd & Hv & ->).
  destruct i as [|i].
  - exists (Move goal d :: std_sort rest'). split.
    + exists 0%nat, d. split_and!; [simpl; lia|done| |done].
      eapply valid_state_perm; [|exact Hv]. unfold slide. simpl. by f_equiv.
    + exists (Move goal d), rest, (std_sort rest').
      split_and!; [done..|]. by rewrite std_sort_perm.
  - simpl in Hi. destruct (lookup_lt_is_Some_2 rest i) as [p Hp]; [lia|].
    assert (p ∈ rest') as [i' Hp']%list_elem_of_lookup.
    { rewrite <- Hperm. by eapply list_elem_of_lookup_2. }
    assert (slide (goal :: rest) (S i) d = goal :: <[i := Move p d]> rest) as Hs.
    { unfold slide. simpl. by rewrite Hp. }
    assert (slide (goal :: rest') (S i') d = goal :: <[i' := Move p d]> rest') as Ht.
    { unfold slide. simpl. by rewrite Hp'. }
    pose proof (insert_perm rest rest' i i' p (Move p d) Hperm Hp Hp') as Hins.
    exists (goal :: std_sort (<[i' := Move p d]> rest')). split.
    + exists (S i'), d. split_and!; [|done| |by rewrite Ht].
      * simpl. apply lookup_lt_Some in Hp'. lia.
      * rewrite Ht. eapply valid_state_perm; [|exact Hv]. rewrite Hs. by f_equiv.
    + rewrite Hs. eexists goal, _, _. split_and!; [done..|].
      by rewrite std_sort_perm.
Qed.

Lemma same_layout_at_target (s t : State) dx dy :
  same_layout s t → at_target s dx dy → at_target t dx dy.
Proof. by intros (goal & rest & rest' & -> & -> & _). Qed.

(** A sequence of slides gives a sequence of moves of the same length. *)
Lemma unit_slides_moves (other : list State) (s0 t0 : State) :
  same_layout s0 t0 → head other = Some s0 → linked unit_slide other →
  ∃ other' sf tf,
    head other' = Some t0 ∧ linked unit_move other'
    ∧ length other' = length other
    ∧ last other = Some sf ∧ last other' = Some tf ∧ same_layout sf tf.
Proof.
  revert s0 t0. induction other as [|s [|s1 other] IH]; intros s0 t0 Hsame Hhead Hlinked.
  - done.
  - injection Hhead as ->. by exists [t0], s0, t0.
  - injection Hhead as ->. destruct Hlinked as [Hslide Hlinked].
    destruct (unit_slide_move s0 s1 t0 Hsame Hslide) as (t1 & Hmove & Hsame1).
    destruct (IH s1 t1 Hsame1 eq_refl Hlinked)
      as (other' & sf & tf & Hhead' & Hlinked' & Hlen & Hlast & Hlast' & Hsamef).
    destruct other' as [|t1' other']; [done|]. injection Hhead' as ->.
    exists (t0 :: t1 :: other'), sf, tf.
    split_and!; [done|by split|simpl in *; lia|done..].
Qed.

Lemma shortest_unit_slide (start : State) dx dy (path : list State) :
  start ≠ [] →
  shortest unit_move start dx dy path → shortest unit_slide start dx dy path.
Proof.
  intros Hne Hshort other (Hhead & Hlinked & final & Hlast & Hgoal).
  assert (same_layout start start) as Hsame.
  { destruct start as [|goal rest]; [done|]. by exists goal, rest, rest. }
  destruct (unit_slides_moves other start start Hsame Hhead Hlinked)
    as (other' & sf & tf & Hhead' & Hlinked' & Hlen & Hlast0 & Hlast' & Hsamef).
  rewrite <- Hlen. apply Hshort. split_and!; [done..|].
  exists tf. split; [done|]. eapply same_layout_at_target; [done|]. congruence.
Qed.

(** C2, as amended.  When [Solve] succeeds the path it returns is a
    shortest one counted in moves of one cell: no sequence of fewer
    one-cell, collision-free slides of single pieces, canonicalized on the
    way or not, leads from the start State to a State whose goal piece is
    on the target. *)
Theorem Solve_shortest (fuel : nat) (start : State) (dest_x dest_y : Z)
    (path : list State) :
  valid_state start →
  Solve fuel start dest_x dest_y = Some (Ret path) → path ≠ [] →
  shortest unit_move start dest_x dest_y path
  ∧ shortest unit_slide start dest_x dest_y path.
Proof.
  intros Hv Hrun Hne.
  destruct (Solve_success fuel start dest_x dest_y path Hv Hrun Hne) as [_ Hshort].
  split; [done|]. apply shortest_unit_slide; [by destruct Hv|done].
Qed.

Lemma Solve_shortest_witness :
  let start := [mkPiece 0 0 2 kHoriz] in
  let path :=
    [ [mkPiece 0 0 2 kHoriz]; [mkPiece 1 0 2 kHoriz]; [mkPiece 2 0 2 kHoriz] ] in
  shortest unit_move start 2 0 path ∧ shortest unit_slide start 2 0 path.
Proof.
  intros start path. apply (Solve_shortest 10 start 2 0 path).
  - by apply (bool_decide_unpack _); vm_compute.
  - by vm_compute.
  - done.
Defined.

(** C2, as stated, fails: a slide may cover several cells, and the path
    returned counts every cell of it as a move.  Alone on the board the
    goal piece reaches the target two cells away in one slide; [Solve]
    returns a path of two moves. *)
Lemma Solve_not_shortest_in_slides :
  ∃ path,
    Solve 10 [mkPiece 0 0 2 kHoriz] 2 0 = Some (Ret path)
    ∧ path ≠ []
    ∧ ¬ shortest free_slide [mkPiece 0 0 2 kHoriz] 2 0 path.
Proof.
  exists [ [mkPiece 0 0 2 kHoriz]; [mkPiece 1 0 2 kHoriz]; [mkPiece 2 0 2 kHoriz] ].
  split_and!; [by vm_compute|done|].
  intros Hshort.
  specialize (Hshort [ [mkPiece 0 0 2 kHoriz]; [mkPiece 2 0 2 kHoriz] ]).
  simpl in Hshort. enough (3 ≤ 2)%nat by lia. apply Hshort.
  split_and!; [done| |by exists [mkPiece 2 0 2 kHoriz]].
  split; [|done]. exists 0%nat, 2. split_and!; [simpl; lia|lia| |done].
  intros d Hd. assert (d = 1 ∨ d = 2) as [-> | ->] by lia;
    by apply (bool_decide_unpack _); vm_compute.
Qed.

Lemma solution_reachable (start : State) dx dy (path : list State) :
  solution unit_move start dx dy path →
  ∃ final, reachable unit_move start final ∧ at_target final dx dy.
Proof.
  intros (Hhead & Hlinked & final & Hlast & Hgoal). exists final. split; [|done].
  eapply rtc_nsteps_2. by apply linked_nsteps.
Qed.

(** C7. From a start State from which no reachable State has the goal
    piece on the target, [Solve] comes to the end of the queue and returns
    the empty sequence, not the one-element sequence of a solved start. *)
Theorem Solve_unreachable (start : State) (dest_x dest_y : Z) :
  valid_state start →
  (∀ s, reachable unit_move start s → ¬ at_target s dest_x dest_y) →
  (∃ fuel0, ∀ fuel, (fuel0 ≤ fuel)%nat →
     Solve fuel start dest_x dest_y = Some (Ret []))
  ∧ (∀ fuel r, Solve fuel start dest_x dest_y = Some r →
       r = Ret [] ∧ r ≠ Ret [start]).
Proof.
  intros Hv Hnone.
  destruct (Solve_total start dest_x dest_y Hv) as (fuel0 & r & Hrun0 & Hres).
  assert (r = []) as ->.
  { destruct Hres as [[-> _]|[Hsol _]]; [done|].
    apply solution_reachable in Hsol as (final & Hreach & Hgoal).
    by destruct (Hnone final Hreach). }
  split; [by exists fuel0|].
  intros fuel r Hrun. specialize (Hrun0 fuel0 (Nat.le_refl _)).
  by rewrite (Solve_fuel_irrelevant _ _ _ _ _ _ _ Hrun Hrun0).
Qed.

(** The goal piece of a horizontal puzzle stays in its row. *)
Lemma unit_move_goal_row (s n : State) (row : Z) :
  unit_move s n →
  (∃ p rest, s = p :: rest ∧ orient p = kHoriz ∧ y p = row) →
  ∃ p rest, n = p :: rest ∧ orient p = kHoriz ∧ y p = row.
Proof.
  intros (i & d & Hi & Hd & Hv & Hc) (p & rest & -> & Ho & Hy).
  apply Canonicalize_Ret in Hc as (goal & rest' & Hs & ->).
  exists goal, (std_sort rest'). split; [done|].
  unfold slide in Hs. destruct i as [|i]; simpl in Hs.
  - injection Hs as <- _. unfold Move. rewrite Ho. done.
  - destruct (rest !! i); simpl in Hs; by injection Hs as <- _.
Qed.

Lemma reachable_goal_row (start s : State) (row : Z) :
  reachable unit_move start s →
  (∃ p rest, start = p :: rest ∧ orient p = kHoriz ∧ y p = row) →
  ∃ p rest, s = p :: rest ∧ orient p = kHoriz ∧ y p = row.
Proof.
  intros Hreach Hstart. induction Hreach as [|s t u Hmove _ IH]; [done|].
  apply IH. by eapply unit_move_goal_row.
Qed.

Lemma Solve_unreachable_witness :
  let start := [mkPiece 0 0 2 kHoriz; mkPiece 3 0 2 kVert] in
  (∃ fuel0, ∀ fuel, (fuel0 ≤ fuel)%nat → Solve fuel start 4 1 = Some (Ret []))
  ∧ (∀ fuel r, Solve fuel start 4 1 = Some r → r = Ret [] ∧ r ≠ Ret [start]).
Proof.
  intros start. apply (Solve_unreachable start 4 1).
  - by apply (bool_decide_unpack _); vm_compute.
  - intros s Hreach.
    destruct (reachable_goal_row start s 0 Hreach) as (p & rest & -> & _ & Hy).
    + by exists (mkPiece 0 0 2 kHoriz), [mkPiece 3 0 2 kVert].
    + simpl. lia.
Defined.

(** * Further properties of the code *)

(** ** The markers of [State::Draw] *)

Lemma marker_empty_iff (i : nat) :
  marker i = kEmpty ↔ (0 < i ∧ i mod 256 = 237)%nat.
Proof.
  destruct i as [|i]; [split; [done|lia]|]. unfold marker.
  rewrite <- (Nat2N.inj_mod _ 256).
  pose proof (Nat.div_mod_eq (65 + S i) 256) as Hd1.
  pose proof (Nat.mod_upper_bound (65 + S i) 256) as Hb1.
  pose proof (Nat.div_mod_eq (S i) 256) as Hd2.
  pose proof (Nat.mod_upper_bound (S i) 256) as Hb2.
  split.
  - intros Heq. apply (f_equal N_of_ascii) in Heq.
    rewrite N_ascii_embedding in Heq by lia.
    change (N_of_ascii kEmpty) with 46%N in Heq. lia.
  - intros [_ Hmod].
    assert ((65 + S i) mod 256 = 46)%nat as -> by lia. done.
Qed.

Lemma marker_ok (i : nat) : (i < 237)%nat → marker i ≠ kEmpty.
Proof.
  rewrite marker_empty_iff. intros Hi [_ H].
  rewrite Nat.mod_small in H by lia. lia.
Qed.

(** ** The outcome of [Piece::Draw] and [State::Draw] *)

Lemma covers_solid p cx cy : covers p cx cy → solid p.
Proof. unfold covers, solid, width, height. destruct (orient p); lia. Qed.

Lemma clash_covers p q :
  clash p q ↔ ∃ cx cy, covers p cx cy ∧ covers q cx cy.
Proof.
  split.
  - intros (Hp & Hq & Ho). unfold solid, overlap, covers, width, height in *.
    exists (Z.max (x p) (x q)), (Z.max (y p) (y q)).
    destruct (orient p), (orient q); lia.
  - intros (cx & cy & Hp & Hq).
    split_and!; eauto using covers_solid, covers_overlap.
Qed.

Lemma clash_sym p q : clash p q → clash q p.
Proof. intros (? & ? & ?%overlap_sym). by split_and!. Qed.

Lemma clash_free_app (l1 l2 : list Piece) :
  clash_free (l1 ++ l2) ↔
  clash_free l1 ∧ clash_free l2 ∧ ∀ p q, p ∈ l1 → q ∈ l2 → ¬ clash p q.
Proof.
  induction l1 as [|a l1 IH]; simpl.
  - split; [intros ?; split_and!; [done..|]|tauto].
    intros p q Hp. by apply elem_of_nil in Hp.
  - rewrite IH, Forall_app, !Forall_forall. split.
    + intros ((Ha1 & Ha2) & H1 & H2 & H12). split_and!; try done.
      intros p q [->|Hp]%elem_of_cons Hq; [by apply Ha2|by apply H12].
    + intros ((Ha1 & H1) & H2 & H12). split_and!; try done.
      * intros q Hq. apply H12; [by left|done].
      * intros p q Hp Hq. apply H12; [by right|done].
Qed.

Lemma clash_free_snoc (l : list Piece) p :
  clash_free (l ++ [p]) ↔ clash_free l ∧ Forall (λ q, ¬ clash p q) l.
Proof.
  rewrite clash_free_app, Forall_forall. simpl. split.
  - intros (Hl & _ & H). split; [done|].
    intros q Hq Hc%clash_sym. apply (H q p); [done|by left|done].
  - intros (Hl & H). split; [done|]. split; [by repeat constructor|].
    intros q p' Hq ->%list_elem_of_singleton Hc%clash_sym. by apply (H q).
Qed.

Lemma buf_get_Ret_grid buf cy cx c :
  buf_get buf cy cx = Ret c → in_grid cy = true ∧ in_grid cx = true.
Proof.
  unfold buf_get. destruct (in_grid cy), (in_grid cx); simpl; done.
Qed.

Lemma buf_get_outside buf cy cx :
  in_grid cy = false ∨ in_grid cx = false → buf_get buf cy cx = Undef.
Proof.
  unfold buf_get. intros [-> | ->]; [done|]. by destruct (in_grid cy).
Qed.

(** A run that [Piece::Draw] completes lay in the grid on empty cells. *)
Lemma Draw_loop_Ret_inv n o c cx cy buf buf' :
  wf_buf buf → Draw_loop n o c cx cy buf = Ret buf' →
  (n ≠ 0%nat → 0 ≤ cx ∧ 0 ≤ cy
     ∧ cx + run_w o n ≤ kBoardSize ∧ cy + run_h o n ≤ kBoardSize)
  ∧ ∀ ux uy, cx ≤ ux < cx + run_w o n → cy ≤ uy < cy + run_h o n →
      buf_get buf uy ux = Ret kEmpty.
Proof.
  revert cx cy buf. induction n as [|n IH]; intros cx cy buf Hwf Hrun.
  - split; [done|]. intros ux uy. destruct o; simpl; lia.
  - cbn [Draw_loop] in Hrun.
    destruct (buf_get buf cy cx) as [cell| |] eqn:Hget; try done.
    rewrite bind_Ret_l in Hrun.
    destruct (Ascii.eqb cell kEmpty) eqn:Hcell; [|done].
    apply Ascii.eqb_eq in Hcell as ->.
    pose proof (buf_get_Ret_grid _ _ _ _ Hget) as [Hgy Hgx].
    pose proof (buf_set_wf buf cy cx c Hwf) as Hwf'.
    pose proof Hgx as Hgx'. pose proof Hgy as Hgy'.
    apply in_grid_spec in Hgx', Hgy'.
    destruct o.
    + destruct (IH _ _ _ Hwf' Hrun) as [Hb Hcells]. simpl in *.
      assert (cx + Z.of_nat (S n) ≤ kBoardSize) as Hw.
      { destruct n; [lia|]. destruct Hb; [done|]. lia. }
      split; [lia|]. intros ux uy Hux Huy.
      destruct (decide (ux = cx)) as [->|Hne].
      * by replace uy with cy by lia.
      * specialize (Hcells ux uy).
        rewrite buf_get_set in Hcells; [|done..| |];
          [|apply in_grid_spec; lia..].
        rewrite decide_False in Hcells by tauto. apply Hcells; lia.
    + destruct (IH _ _ _ Hwf' Hrun) as [Hb Hcells]. simpl in *.
      assert (cy + Z.of_nat (S n) ≤ kBoardSize) as Hh.
      { destruct n; [lia|]. destruct Hb; [done|]. lia. }
      split; [lia|]. intros ux uy Hux Huy.
      destruct (decide (uy = cy)) as [->|Hne].
      * by replace ux with cx by lia.
      * specialize (Hcells ux uy).
        rewrite buf_get_set in Hcells; [|done..| |];
          [|apply in_grid_spec; lia..].
        rewrite decide_False in Hcells by tauto. apply Hcells; lia.
Qed.

(** A run in the grid that meets a cell which is not empty ends in the
    clash exit. *)
Lemma Draw_loop_clash n o c cx cy buf :
  wf_buf buf → 0 ≤ cx → 0 ≤ cy →
  cx + run_w o n ≤ kBoardSize → cy + run_h o n ≤ kBoardSize →
  (∃ ux uy, cx ≤ ux < cx + run_w o n ∧ cy ≤ uy < cy + run_h o n
            ∧ buf_get buf uy ux ≠ Ret kEmpty) →
  Draw_loop n o c cx cy buf = Abort.
Proof.
  revert cx cy buf. induction n as [|n IH];
    intros cx cy buf Hwf Hx Hy Hw Hh (ux & uy & Hux & Huy & Hbad).
  - destruct o; simpl in *; lia.
  - cbn [Draw_loop].
    assert (in_grid cx = true ∧ in_grid cy = true) as [Hgx Hgy].
    { rewrite !in_grid_spec. destruct o; simpl in *; lia. }
    destruct (buf_get_wf buf cy cx Hwf Hgy Hgx) as [cell Hget].
    rewrite Hget, bind_Ret_l.
    destruct (Ascii.eqb cell kEmpty) eqn:Hcell; [|done].
    apply Ascii.eqb_eq in Hcell as ->.
    pose proof (buf_set_wf buf cy cx c Hwf) as Hwf'.
    destruct o; simpl in *.
    + apply IH; [done|lia..|]. exists ux, uy.
      assert (ux ≠ cx) by (intros ->; replace uy with cy in Hbad by lia; done).
      split_and!; [lia..|].
      rewrite buf_get_set by (done || apply in_grid_spec; lia).
      by rewrite decide_False by tauto.
    + apply IH; [done|lia..|]. exists ux, uy.
      assert (uy ≠ cy) by (intros ->; replace ux with cx in Hbad by lia; done).
      split_and!; [lia..|].
      rewrite buf_get_set by (done || apply in_grid_spec; lia).
      by rewrite decide_False by tauto.
Qed.

(** A run over empty cells that leaves the grid reads outside the
    buffer. *)
Lemma Draw_loop_outside n o c cx cy buf :
  wf_buf buf → n ≠ 0%nat →
  ¬ (0 ≤ cx ∧ 0 ≤ cy
     ∧ cx + run_w o n ≤ kBoardSize ∧ cy + run_h o n ≤ kBoardSize) →
  (∀ ux uy, cx ≤ ux < cx + run_w o n → cy ≤ uy < cy + run_h o n →
     in_grid ux = true → in_grid uy = true → buf_get buf uy ux = Ret kEmpty) →
  Draw_loop n o c cx cy buf = Undef.
Proof.
  revert cx cy buf. induction n as [|n IH]; intros cx cy buf Hwf Hn Hout Hfree; [done|].
  cbn [Draw_loop].
  destruct (in_grid cx) eqn:Hgx, (in_grid cy) eqn:Hgy;
    try (rewrite buf_get_outside by auto; done).
  rewrite (Hfree cx cy) by (done || destruct o; simpl; lia).
  rewrite bind_Ret_l, Ascii.eqb_refl.
  pose proof (buf_set_wf buf cy cx c Hwf) as Hwf'.
  pose proof Hgx as Hgx'. pose proof Hgy as Hgy'.
  apply in_grid_spec in Hgx', Hgy'.
  destruct o; simpl in *.
  - apply IH; [done|lia|lia|]. intros ux uy Hux Huy Hgux Hguy.
    rewrite buf_get_set by done. rewrite decide_False by lia.
    apply Hfree; (done || lia).
  - apply IH; [done|lia|lia|]. intros ux uy Hux Huy Hgux Hguy.
    rewrite buf_get_set by done. rewrite decide_False by lia.
    apply Hfree; (done || lia).
Qed.

Lemma run_piece p :
  solid p →
  run_w (orient p) (Z.to_nat (size p)) = width p
  ∧ run_h (orient p) (Z.to_nat (size p)) = height p.
Proof.
  unfold solid, run_w, run_h, width, height. destruct (orient p); lia.
Qed.

Lemma cell_char_empty (done : list Piece) cx cy :
  (length done ≤ 237)%nat →
  cell_char done cx cy = kEmpty ↔ Forall (λ q, ¬ covers q cx cy) done.
Proof.
  intros Hlen. unfold cell_char.
  destruct (list_find _ done) as [[k q]|] eqn:Hfind.
  - apply list_find_Some in Hfind as (Hk & Hq & _). split.
    + intros Hm. destruct (marker_ok k); [|done].
      apply lookup_lt_Some in Hk. lia.
    + rewrite Forall_forall. intros Hall. destruct (Hall q); [|done].
      by eapply list_elem_of_lookup_2.
  - by apply list_find_None in Hfind.
Qed.

Lemma cell_char_snoc (done : list Piece) p cx cy :
  cell_char (done ++ [p]) cx cy
  = if decide (Forall (λ q, ¬ covers q cx cy) done)
    then (if decide (covers p cx cy) then marker (length done) else kEmpty)
    else cell_char done cx cy.
Proof.
  unfold cell_char. case_decide as Hall.
  - pose proof (proj2 (list_find_None (λ q, covers q cx cy) done) Hall) as Hnone.
    rewrite list_find_app_r by done.
    simpl. case_decide; simpl; [|done]. done.
  - destruct (list_find _ done) as [[k q]|] eqn:Hfind.
    + by rewrite (list_find_app_l _ _ _ _ _ Hfind).
    + by apply list_find_None in Hfind.
Qed.

Lemma painted_snoc_ghost buf (done : list Piece) p :
  painted buf done → (length done ≤ 237)%nat → ¬ solid p →
  painted buf (done ++ [p]).
Proof.
  intros [Hwf Hcells] Hlen Hp. split; [done|]. intros cx cy Hgx Hgy.
  rewrite Hcells, cell_char_snoc by done.
  case_decide as Hall; [|done].
  rewrite decide_False by (intros ?%covers_solid; done).
  f_equal. by apply cell_char_empty.
Qed.

(** The four outcomes of drawing one piece on the picture of [done]. *)
Lemma Piece_Draw_ok p buf (done : list Piece) :
  painted buf done → (length done < 237)%nat →
  (solid p → in_bounds p) → Forall (λ q, ¬ clash p q) done →
  ∃ buf', Piece_Draw p buf (marker (length done)) = Ret buf'
          ∧ painted buf' (done ++ [p]).
Proof.
  intros Hpaint Hlen Hin Hno. unfold Piece_Draw.
  destruct (decide (solid p)) as [Hs|Hs].
  - specialize (Hin Hs). destruct Hpaint as [Hwf Hcells].
    destruct (run_piece p Hs) as [Hw Hh].
    assert (∀ ux uy, covers p ux uy → Forall (λ q, ¬ covers q ux uy) done) as Hfree.
    { intros ux uy Hcov. rewrite Forall_forall in Hno |- *.
      intros q Hq Hcq. apply (Hno q Hq). apply clash_covers. eauto. }
    destruct (Draw_loop_free (Z.to_nat (size p)) (orient p)
                (marker (length done)) (x p) (y p) buf)
      as (buf' & -> & Hwf' & Hget);
      [done|rewrite ?Hw, ?Hh; unfold in_bounds in Hin; lia..| |].
    { rewrite Hw, Hh. intros ux uy Hux Huy.
      assert (covers p ux uy) as Hcov by done.
      destruct (covers_in_grid p ux uy Hin Hcov) as [Hgx Hgy].
      rewrite Hcells by done. f_equal.
      apply cell_char_empty; [lia|]. by apply Hfree. }
    exists buf'. split; [done|]. split; [done|].
    intros cx cy Hgx Hgy. rewrite Hget, Hw, Hh, cell_char_snoc by done.
    case_decide as Hcov.
    + rewrite decide_True by (by apply Hfree). by rewrite decide_True.
    + rewrite Hcells by done. case_decide as Hall; [|done].
      rewrite decide_False by done. f_equal. apply cell_char_empty; [lia|done].
  - exists buf. split.
    + assert (Z.to_nat (size p) = 0%nat) as -> by (unfold solid in Hs; lia). done.
    + apply painted_snoc_ghost; [done|lia|done].
Qed.

Lemma Piece_Draw_clash p buf (done : list Piece) c :
  painted buf done → (length done ≤ 237)%nat →
  (solid p → in_bounds p) → ¬ Forall (λ q, ¬ clash p q) done →
  Piece_Draw p buf c = Abort.
Proof.
  intros [Hwf Hcells] Hlen Hin Hno. unfold Piece_Draw.
  apply not_Forall_Exists in Hno; [|apply _].
  apply Exists_exists in Hno as (q & Hq & Hc). simpl in Hc.
  apply dec_stable in Hc.
  pose proof Hc as (Hs & _ & _). specialize (Hin Hs).
  apply clash_covers in Hc as (ux & uy & Hpu & Hqu).
  destruct (run_piece p Hs) as [Hw Hh].
  destruct (covers_in_grid p ux uy Hin Hpu) as [Hgx Hgy].
  apply Draw_loop_clash;
    [done|rewrite ?Hw, ?Hh; unfold in_bounds in Hin; lia..|].
  exists ux, uy. rewrite Hw, Hh. split_and!; [apply Hpu..|].
  rewrite Hcells by done. intros [= Heq].
  apply cell_char_empty in Heq; [|done].
  rewrite Forall_forall in Heq. by apply (Heq q).
Qed.

Lemma Piece_Draw_outside p buf (done : list Piece) c :
  painted buf done → (length done ≤ 237)%nat →
  ¬ (solid p → in_bounds p) → Forall (λ q, ¬ clash p q) done →
  Piece_Draw p buf c = Undef.
Proof.
  intros [Hwf Hcells] Hlen Hin Hno. unfold Piece_Draw.
  assert (solid p ∧ ¬ in_bounds p) as [Hs Hout].
  { destruct (decide (solid p)); [split; [done|tauto]|tauto]. }
  destruct (run_piece p Hs) as [Hw Hh].
  apply Draw_loop_outside; [done|unfold solid in Hs; lia| |].
  - rewrite Hw, Hh. unfold in_bounds, solid in *. lia.
  - rewrite Hw, Hh. intros ux uy Hux Huy Hgx Hgy.
    rewrite Hcells by done. f_equal. apply cell_char_empty; [done|].
    rewrite Forall_forall in Hno |- *. intros q Hq Hcq.
    apply (Hno q Hq). apply clash_covers. exists ux, uy. by split.
Qed.

Lemma Piece_Draw_Ret_inv p buf (done : list Piece) c buf' :
  painted buf done → (length done ≤ 237)%nat →
  Piece_Draw p buf c = Ret buf' →
  (solid p → in_bounds p) ∧ Forall (λ q, ¬ clash p q) done.
Proof.
  intros Hpaint Hlen Hrun.
  destruct (decide (solid p → in_bounds p)) as [Hin|Hin];
    destruct (decide (Forall (λ q, ¬ clash p q) done)) as [Hno|Hno]; [done|..].
  - by rewrite (Piece_Draw_clash p buf done c) in Hrun.
  - by rewrite (Piece_Draw_outside p buf done c) in Hrun.
  - exfalso. destruct Hpaint as [Hwf Hcells].
    assert (solid p) as Hs by (destruct (decide (solid p)); tauto).
    destruct (run_piece p Hs) as [Hw Hh].
    apply Draw_loop_Ret_inv in Hrun as [Hb _]; [|done].
    rewrite Hw, Hh in Hb. apply Hin. intros _.
    unfold in_bounds, solid in *. lia.
Qed.

Lemma app_snoc (done : list Piece) p ps :
  done ++ p :: ps = (done ++ [p]) ++ ps.
Proof. by rewrite <- app_assoc. Qed.

Lemma Draw_pieces_ok (ps done : list Piece) buf :
  painted buf done → (length done + length ps ≤ 237)%nat →
  Forall (λ p, solid p → in_bounds p) ps → clash_free (done ++ ps) →
  ∃ buf', Draw_pieces (length done) ps buf = Ret buf' ∧ painted buf' (done ++ ps).
Proof.
  revert done buf. induction ps as [|p ps IH]; intros done buf Hpaint Hlen Hin Hfree.
  - exists buf. by rewrite app_nil_r.
  - simpl in Hlen. apply Forall_cons in Hin as [Hp Hin].
    rewrite app_snoc in Hfree |- *.
    pose proof Hfree as (Hdp & _ & _)%clash_free_app.
    apply clash_free_snoc in Hdp as [_ Hno].
    destruct (Piece_Draw_ok p buf done Hpaint) as (buf1 & Hdraw & Hpaint1);
      [lia|done..|].
    cbn [Draw_pieces]. rewrite Hdraw, bind_Ret_l.
    specialize (IH (done ++ [p]) buf1 Hpaint1).
    rewrite length_app, Nat.add_1_r in IH. apply IH; [lia|done..].
Qed.

Lemma Draw_pieces_clash (ps done : list Piece) buf :
  painted buf done → (length done + length ps ≤ 237)%nat →
  Forall (λ p, solid p → in_bounds p) ps →
  clash_free done → ¬ clash_free (done ++ ps) →
  Draw_pieces (length done) ps buf = Abort.
Proof.
  revert done buf. induction ps as [|p ps IH];
    intros done buf Hpaint Hlen Hin Hdone Hfree.
  - by rewrite app_nil_r in Hfree.
  - simpl in Hlen. apply Forall_cons in Hin as [Hp Hin].
    rewrite app_snoc in Hfree.
    cbn [Draw_pieces].
    destruct (decide (Forall (λ q, ¬ clash p q) done)) as [Hno|Hno].
    + destruct (Piece_Draw_ok p buf done Hpaint) as (buf1 & Hdraw & Hpaint1);
        [lia|done..|].
      rewrite Hdraw, bind_Ret_l.
      specialize (IH (done ++ [p]) buf1 Hpaint1).
      rewrite length_app, Nat.add_1_r in IH. apply IH; [lia|done| |done].
      by apply clash_free_snoc.
    + rewrite (Piece_Draw_clash p buf done); [done..|lia|done|done].
Qed.

Lemma Draw_pieces_Ret_inv (ps done : list Piece) buf buf' :
  painted buf done → (length done + length ps ≤ 237)%nat →
  clash_free done → Draw_pieces (length done) ps buf = Ret buf' →
  Forall (λ p, solid p → in_bounds p) ps ∧ clash_free (done ++ ps)
  ∧ painted buf' (done ++ ps).
Proof.
  revert done buf. induction ps as [|p ps IH];
    intros done buf Hpaint Hlen Hdone Hrun.
  - injection Hrun as <-. by rewrite app_nil_r.
  - simpl in Hlen. cbn [Draw_pieces] in Hrun.
    destruct (Piece_Draw p buf (marker (length done))) as [buf1| |] eqn:Hdraw;
      try done.
    rewrite bind_Ret_l in Hrun.
    destruct (Piece_Draw_Ret_inv p buf done (marker (length done)) buf1 Hpaint)
      as [Hp Hno]; [lia|done|].
    destruct (Piece_Draw_ok p buf done Hpaint) as (buf2 & Hdraw2 & Hpaint1);
      [lia|done..|].
    assert (buf2 = buf1) as -> by congruence.
    specialize (IH (done ++ [p]) buf1 Hpaint1).
    rewrite length_app, Nat.add_1_r in IH.
    destruct IH as (Hin & Hfree & Hpaint'); [lia|by apply clash_free_snoc|done|].
    rewrite <- app_snoc in Hfree, Hpaint'.
    split_and!; [by constructor|done..].
Qed.

Lemma empty_buf_painted : painted empty_buf [].
Proof.
  destruct empty_buf_rendered as [Hwf Hcells]. split; [done|].
  intros cx cy Hgx Hgy.
  destruct (Hcells cx cy Hgx Hgy) as (cell & -> & Hcell).
  f_equal. apply Hcell. intros p Hp. by apply elem_of_nil in Hp.
Qed.

Lemma State_Draw_painted (s : State) :
  (length s ≤ 237)%nat →
  ((∃ buf, State_Draw s = Ret buf) ↔ drawable s)
  ∧ ∀ buf, State_Draw s = Ret buf →
      wf_buf buf
      ∧ ∀ cx cy, in_grid cx = true → in_grid cy = true →
          buf_get buf cy cx = Ret (cell_char s cx cy).
Proof.
  intros Hlen. unfold State_Draw. split; [split|].
  - intros [buf Hrun].
    destruct (Draw_pieces_Ret_inv s [] empty_buf buf empty_buf_painted)
      as (Hin & Hfree & _); done.
  - intros [Hin Hfree].
    destruct (Draw_pieces_ok s [] empty_buf empty_buf_painted) as (buf & ? & _);
      eauto.
  - intros buf Hrun.
    destruct (Draw_pieces_Ret_inv s [] empty_buf buf empty_buf_painted)
      as (_ & _ & Hpaint); done.
Qed.

(** X1. [State::Draw] returns exactly on the States whose pieces that cover
    cells lie in the grid and cover no cell twice, as long as the State
    has at most 237 pieces; then each cell of the grid holds the marker
    of the piece that covers it, or the empty character. *)
Theorem State_Draw_returns (s : State) :
  (length s ≤ 237)%nat →
  ((∃ buf, State_Draw s = Ret buf) ↔ drawable s)
  ∧ ∀ buf, State_Draw s = Ret buf →
      wf_buf buf
      ∧ ∀ cx cy, in_grid cx = true → in_grid cy = true →
          buf_get buf cy cx = Ret (cell_char s cx cy).
Proof. apply State_Draw_painted. Qed.

Lemma State_Draw_returns_witness :
  ((∃ buf, State_Draw main_state = Ret buf) ↔ drawable main_state)
  ∧ ∀ buf, State_Draw main_state = Ret buf →
      wf_buf buf
      ∧ ∀ cx cy, in_grid cx = true → in_grid cy = true →
          buf_get buf cy cx = Ret (cell_char main_state cx cy).
Proof. apply State_Draw_returns. vm_compute. lia. Defined.

(** X2. When every piece that covers cells lies in the grid, [State::Draw]
    ends in the clash exit exactly when two pieces cover a common cell
    (for a State of at most 237 pieces); it never reads outside the
    buffer. *)
Theorem State_Draw_clash (s : State) :
  (length s ≤ 237)%nat → Forall (λ p, solid p → in_bounds p) s →
  (State_Draw s = Abort ↔ ¬ clash_free s) ∧ State_Draw s ≠ Undef.
Proof.
  intros Hlen Hin. unfold State_Draw.
  destruct (decide (clash_free s)) as [Hfree|Hfree].
  - destruct (Draw_pieces_ok s [] empty_buf empty_buf_painted) as (buf & Hrun & _);
      [done..|].
    change (length (@nil Piece)) with 0%nat in Hrun.
    rewrite Hrun. split; [split; [done|tauto]|done].
  - pose proof (Draw_pieces_clash s [] empty_buf empty_buf_painted) as Hrun.
    change (length (@nil Piece)) with 0%nat in Hrun.
    rewrite Hrun; done.
Qed.

Lemma State_Draw_clash_witness :
  (State_Draw [mkPiece 0 0 2 kHoriz; mkPiece 1 0 2 kVert] = Abort
   ↔ ¬ clash_free [mkPiece 0 0 2 kHoriz; mkPiece 1 0 2 kVert])
  ∧ State_Draw [mkPiece 0 0 2 kHoriz; mkPiece 1 0 2 kVert] ≠ Undef.
Proof.
  apply State_Draw_clash; [simpl; lia|].
  by apply (bool_decide_unpack _); vm_compute.
Defined.

(** X3. The marker ['A' + i] is the empty character exactly for the indices
    [i] that are 237 modulo 256; with the piece of index 237 drawn in
    the empty character, [State::Draw] no longer notices a piece that
    overlaps it. *)
Theorem marker_wraps_to_empty :
  (∀ i : nat, marker i = kEmpty ↔ (0 < i ∧ i mod 256 = 237)%nat)
  ∧ ∃ s : State,
      length s = 239%nat ∧ Forall in_bounds (drop 237 s)
      ∧ ¬ clash_free s ∧ ∃ buf, State_Draw s = Ret buf.
Proof.
  split; [apply marker_empty_iff|].
  exists (mkPiece 0 0 2 kHoriz :: replicate 236 (mkPiece 0 0 0 kHoriz)
          ++ [mkPiece 0 1 2 kHoriz; mkPiece 1 1 2 kHoriz]).
  split_and!.
  - done.
  - by apply (bool_decide_unpack _); vm_compute.
  - by apply (bool_decide_unpack _); vm_compute.
  - eexists. vm_compute. reflexivity.
Qed.

(** ** The text of a board *)

Lemma buf_get_lookup buf cy cx c :
  buf_get buf cy cx = Ret c ↔
  in_grid cy = true ∧ in_grid cx = true
  ∧ ∃ row, buf !! Z.to_nat cy = Some row ∧ row !! Z.to_nat cx = Some c.
Proof.
  unfold buf_get. destruct (in_grid cy), (in_grid cx); simpl;
    try (split; [done|by intros (? & ? & _)]).
  destruct (buf !! Z.to_nat cy) as [row|];
    [|split; [done|by intros (_ & _ & ? & ? & _)]].
  destruct (row !! Z.to_nat cx) as [c'|] eqn:Hc; split; try done.
  - intros [= ->]. eauto.
  - intros (_ & _ & row' & [= <-] & Hc'). congruence.
  - intros (_ & _ & row' & [= <-] & Hc'). congruence.
Qed.

Lemma BufToString_row_run buf cy (xs : list Z) (cs result : list ascii) :
  Forall2 (λ cx c, buf_get buf cy cx = Ret c) xs cs →
  BufToString_row buf cy xs result = Ret (result ++ cs).
Proof.
  intros Hall. revert result.
  induction Hall as [|cx c xs cs Hc _ IH]; intros result; simpl.
  - by rewrite app_nil_r.
  - rewrite Hc, bind_Ret_l, IH. by rewrite <- app_assoc.
Qed.

Lemma wf_buf_row buf cy :
  wf_buf buf → in_grid cy = true →
  ∃ row, buf !! Z.to_nat cy = Some row
         ∧ length row = Z.to_nat kBoardSize
         ∧ Forall2 (λ cx c, buf_get buf cy cx = Ret c) (seqZ 0 kBoardSize) row.
Proof.
  intros [Hlen Hrows] Hgy. pose proof Hgy as Hgy'. apply in_grid_spec in Hgy'.
  destruct (lookup_lt_is_Some_2 buf (Z.to_nat cy)) as [row Hrow]; [lia|].
  assert (length row = Z.to_nat kBoardSize) as Hr.
  { rewrite Forall_forall in Hrows. apply Hrows. by eapply list_elem_of_lookup_2. }
  exists row. split_and!; [done..|].
  apply Forall2_same_length_lookup. split.
  - rewrite length_seqZ. lia.
  - intros i cx c Hcx Hc. apply lookup_seqZ in Hcx as [-> Hi].
    apply buf_get_lookup. split_and!; [done|apply in_grid_spec; lia|].
    exists row. split; [done|]. by rewrite Z.add_0_l, Nat2Z.id.
Qed.

Lemma BufToString_rows_run buf (ys : list Z) (result : list ascii) :
  wf_buf buf → Forall (λ cy, in_grid cy = true) ys →
  ∃ rows,
    Forall2 (λ cy row, buf !! Z.to_nat cy = Some row) ys rows
    ∧ BufToString_rows buf ys result
      = Ret (result ++ mjoin ((λ row, row ++ ["010"%char]) <$> rows)).
Proof.
  intros Hwf Hys. revert result.
  induction Hys as [|cy ys Hgy _ IH]; intros result.
  - exists []. split; [constructor|]. simpl. by rewrite app_nil_r.
  - destruct (wf_buf_row buf cy Hwf Hgy) as (row & Hrow & _ & Hcells).
    cbn [BufToString_rows].
    rewrite (BufToString_row_run buf cy _ row result Hcells), bind_Ret_l.
    destruct (IH ((result ++ row) ++ ["010"%char])) as (rows & Hrows & ->).
    exists (row :: rows). split; [by constructor|].
    simpl. by rewrite <- !app_assoc.
Qed.

Lemma BufToString_join buf :
  wf_buf buf →
  BufToString buf = Ret (mjoin ((λ row, row ++ ["010"%char]) <$> buf)).
Proof.
  intros Hwf. unfold BufToString.
  destruct (BufToString_rows_run buf (seqZ 0 kBoardSize) [] Hwf)
    as (rows & Hrows & ->).
  { apply Forall_forall. intros cy Hcy%elem_of_seqZ. apply in_grid_spec. lia. }
  assert (rows = buf) as ->; [|done].
  destruct Hwf as [Hlen _]. apply list_eq_same_length with (Z.to_nat kBoardSize).
  - done.
  - apply Forall2_length in Hrows. rewrite length_seqZ in Hrows. lia.
  - intros i r1 r2 Hi Hr1 Hr2.
    destruct (lookup_lt_is_Some_2 (seqZ 0 kBoardSize) i) as [cy Hcy];
      [rewrite length_seqZ; lia|].
    pose proof (Forall2_lookup_lr _ _ _ _ _ _ Hrows Hcy Hr1) as Hrow.
    apply lookup_seqZ in Hcy as [-> _].
    rewrite Z.add_0_l, Nat2Z.id in Hrow. congruence.
Qed.

Lemma BufToString_text (buf : DrawBuf) :
  wf_buf buf →
  ∃ text,
    BufToString buf = Ret text ∧ length text = 42%nat
    ∧ ∀ cx cy, in_grid cx = true → in_grid cy = true →
        (∃ c, buf_get buf cy cx = Ret c
              ∧ text !! Z.to_nat (7 * cy + cx) = Some c)
        ∧ text !! Z.to_nat (7 * cy + 6) = Some "010"%char.
Proof.
  intros Hwf. exists (mjoin ((λ row, row ++ ["010"%char]) <$> buf)).
  pose proof Hwf as [Hlen Hrows].
  assert (Forall (λ l : list ascii, length l = 7%nat)
            ((λ row, row ++ ["010"%char]) <$> buf)) as Hseven.
  { apply Forall_fmap. eapply Forall_impl; [exact Hrows|].
    intros row Hrow. simpl. rewrite length_app, Hrow. done. }
  split_and!.
  - by apply BufToString_join.
  - rewrite length_join, (sum_list_fmap_same 7) by done.
    rewrite length_fmap, Hlen. done.
  - intros cx cy Hgx Hgy.
    destruct (wf_buf_row buf cy Hwf Hgy) as (row & Hrow & Hr & _).
    pose proof Hgx as Hgx'. pose proof Hgy as Hgy'.
    apply in_grid_spec in Hgx', Hgy'. unfold kBoardSize in *.
    destruct (lookup_lt_is_Some_2 row (Z.to_nat cx)) as [c Hc]; [lia|].
    split.
    + exists c. split.
      * apply buf_get_lookup. eauto.
      * replace (Z.to_nat (7 * cy + cx)) with (Z.to_nat cy * 7 + Z.to_nat cx)%nat
          by lia.
        apply (join_lookup_Some_same_length' 7); [done|lia|].
        exists (row ++ ["010"%char]). split.
        -- by rewrite list_lookup_fmap, Hrow.
        -- by apply lookup_app_l_Some.
    + replace (Z.to_nat (7 * cy + 6)) with (Z.to_nat cy * 7 + 6)%nat by lia.
      apply (join_lookup_Some_same_length' 7); [done|lia|].
      exists (row ++ ["010"%char]). split.
      * by rewrite list_lookup_fmap, Hrow.
      * rewrite lookup_app_r by lia. by replace (6 - length row)%nat with 0%nat by lia.
Qed.

(** X4. [BufToString] lays the board out in 42 characters: the character
    at position [7 * y + x] is the cell [(x, y)], and each row is
    followed by a newline. *)
Theorem BufToString_layout (buf : DrawBuf) :
  wf_buf buf →
  ∃ text,
    BufToString buf = Ret text ∧ length text = 42%nat
    ∧ ∀ cx cy, in_grid cx = true → in_grid cy = true →
        (∃ c, buf_get buf cy cx = Ret c
              ∧ text !! Z.to_nat (7 * cy + cx) = Some c)
        ∧ text !! Z.to_nat (7 * cy + 6) = Some "010"%char.
Proof. apply BufToString_text. Qed.

Lemma BufToString_layout_witness :
  ∃ text,
    BufToString empty_buf = Ret text ∧ length text = 42%nat
    ∧ ∀ cx cy, in_grid cx = true → in_grid cy = true →
        (∃ c, buf_get empty_buf cy cx = Ret c
              ∧ text !! Z.to_nat (7 * cy + cx) = Some c)
        ∧ text !! Z.to_nat (7 * cy + 6) = Some "010"%char.
Proof. apply BufToString_layout. apply empty_buf_rendered. Defined.

(** X5. [State::ToString] of a State of at most 237 pieces returns exactly
    when the State can be drawn, and then shows at position [7 * y + x]
    the marker of the piece that covers the cell [(x, y)]: ['*'] for the
    goal piece, ['A' + i] for the piece of index [i], ['.'] for a free
    cell. *)
Theorem State_ToString_picture (s : State) :
  (length s ≤ 237)%nat →
  ((∃ text, State_ToString s = Ret text) ↔ drawable s)
  ∧ ∀ text, State_ToString s = Ret text →
      length text = 42%nat
      ∧ ∀ cx cy, in_grid cx = true → in_grid cy = true →
          text !! Z.to_nat (7 * cy + cx) = Some (cell_char s cx cy)
          ∧ text !! Z.to_nat (7 * cy + 6) = Some "010"%char.
Proof.
  intros Hlen. destruct (State_Draw_painted s Hlen) as [Hiff Hpic].
  unfold State_ToString. split; [split|].
  - intros [text Hrun]. apply Hiff.
    destruct (State_Draw s) as [buf| |]; [eauto|done..].
  - intros [buf Hdraw]%Hiff. rewrite Hdraw, bind_Ret_l.
    destruct (Hpic buf Hdraw) as [Hwf _].
    destruct (BufToString_text buf Hwf) as (text & ? & _). eauto.
  - intros text Hrun.
    destruct (State_Draw s) as [buf| |] eqn:Hdraw; [|done..].
    rewrite bind_Ret_l in Hrun. destruct (Hpic buf eq_refl) as [Hwf Hcells].
    destruct (BufToString_text buf Hwf) as (text' & Hrun' & Hlen' & Hlay).
    assert (text' = text) as -> by congruence.
    split; [done|]. intros cx cy Hgx Hgy.
    destruct (Hlay cx cy Hgx Hgy) as [(c & Hc & Hat) Hnl].
    split; [|done]. rewrite Hcells in Hc by done. congruence.
Qed.

Lemma State_ToString_picture_witness :
  ((∃ text, State_ToString main_state = Ret text) ↔ drawable main_state)
  ∧ ∀ text, State_ToString main_state = Ret text →
      length text = 42%nat
      ∧ ∀ cx cy, in_grid cx = true → in_grid cy = true →
          text !! Z.to_nat (7 * cy + cx) = Some (cell_char main_state cx cy)
          ∧ text !! Z.to_nat (7 * cy + 6) = Some "010"%char.
Proof. apply State_ToString_picture. vm_compute. lia. Defined.

(** ** Pieces: order, equality, hash, constructor, move *)

(** X6. [Piece::operator<] is a strict weak ordering, as [std::sort]
    requires: irreflexive, transitive, with a transitive tie relation;
    two pieces tie exactly when they have the same [(x, y)]. *)
Theorem Piece_lt_strict_weak :
  (∀ p, Piece_lt p p = false)
  ∧ (∀ p q r, Piece_lt p q = true → Piece_lt q r = true → Piece_lt p r = true)
  ∧ (∀ p q r, Piece_tie p q → Piece_tie q r → Piece_tie p r)
  ∧ (∀ p q, Piece_tie p q ↔ x p = x q ∧ y p = y q).
Proof.
  assert (∀ p q, Piece_tie p q ↔ x p = x q ∧ y p = y q) as Htie.
  { intros p q. unfold Piece_tie.
    rewrite <- !not_true_iff_false, !Piece_lt_spec. lia. }
  split_and!.
  - intros p. apply not_true_iff_false. rewrite Piece_lt_spec. lia.
  - intros p q r. rewrite !Piece_lt_spec. lia.
  - intros p q r. rewrite !Htie. lia.
  - done.
Qed.

Lemma Piece_lt_strict_weak_witness :
  Piece_lt (mkPiece 3 0 2 kVert) (mkPiece 0 4 2 kVert) = true
  ∧ Piece_tie (mkPiece 1 1 2 kHoriz) (mkPiece 1 1 3 kVert).
Proof.
  destruct Piece_lt_strict_weak as (_ & Htrans & _ & Htie). split.
  - apply (Htrans _ (mkPiece 4 1 2 kHoriz)); reflexivity.
  - apply Htie. done.
Defined.

(** X7. [operator==] on pieces and on States holds exactly for equal values;
    States that compare equal therefore hash equally, which is what
    [unordered_map] asks of [StateHash]. *)
Theorem operator_eq_hash :
  (∀ p q, Piece_eqb p q = true ↔ p = q)
  ∧ (∀ s t : State, State_eqb s t = true ↔ s = t)
  ∧ (∀ s t : State, State_eqb s t = true → State_hash s = State_hash t).
Proof.
  split_and!.
  - apply Piece_eqb_eq.
  - apply State_eqb_eq.
  - intros s t Heq%State_eqb_eq. by subst.
Qed.

Lemma wrap64_range v : 0 ≤ wrap64 v < 2 ^ 64.
Proof. unfold wrap64. apply Z.mod_pos_bound. lia. Qed.

Lemma lxor_range a b : 0 ≤ a < 2 ^ 64 → 0 ≤ b < 2 ^ 64 → 0 ≤ Z.lxor a b < 2 ^ 64.
Proof.
  intros Ha Hb. assert (0 ≤ Z.lxor a b) as Hnn by (apply Z.lxor_nonneg; lia).
  split; [done|].
  destruct (decide (Z.lxor a b = 0)) as [->|Hne]; [lia|].
  apply Z.log2_lt_pow2; [lia|].
  pose proof (Z.log2_lxor a b) as Hl.
  assert (Z.log2 a < 64).
  { destruct (decide (a = 0)) as [->|]; [done|]. apply Z.log2_lt_pow2; lia. }
  assert (Z.log2 b < 64).
  { destruct (decide (b = 0)) as [->|]; [done|]. apply Z.log2_lt_pow2; lia. }
  lia.
Qed.

Lemma State_hash_range (s : State) : 0 ≤ State_hash s < 2 ^ 64.
Proof.
  unfold State_hash.
  assert (∀ cur, 0 ≤ cur < 2 ^ 64 →
    0 ≤ fold_left (λ cur piece,
           let cur := wrap64 (cur * kHashMult + Piece_hash piece) in
           Z.lxor cur (wrap64 (Z.shiftl cur 32))) s cur < 2 ^ 64) as H.
  { induction s as [|p s IH]; intros cur Hcur; [done|].
    simpl. apply IH. apply lxor_range; apply wrap64_range. }
  apply H. lia.
Qed.

Lemma in_bounds_hash_digits p : in_bounds p → hash_digits p.
Proof.
  unfold in_bounds, hash_digits, width, height, kBoardSize, kHashMult.
  destruct (orient p); lia.
Qed.

(** X8. Hash values fit [size_t], and [Piece::hash] tells apart any two
    pieces whose fields are digits in base 31, in particular any two
    pieces within the grid. *)
Theorem Piece_hash_injective (p q : Piece) :
  hash_digits p → hash_digits q →
  (Piece_hash p = Piece_hash q → p = q)
  ∧ 0 ≤ Piece_hash p < 2 ^ 64
  ∧ ∀ s : State, 0 ≤ State_hash s < 2 ^ 64.
Proof.
  intros Hp Hq. split; [|split; [apply wrap64_range|apply State_hash_range]].
  unfold Piece_hash, wrap64, hash_digits, kHashMult in *.
  destruct p as [a b c o], q as [a' b' c' o']; simpl in *.
  rewrite !Z.mod_small by (destruct o, o'; simpl; lia).
  intros Heq. destruct o, o'; simpl in Heq; try (exfalso; lia);
    assert (a = a' ∧ b = b' ∧ c = c') as (-> & -> & ->) by lia; done.
Qed.

Lemma Piece_hash_injective_witness :
  (Piece_hash (mkPiece 3 0 2 kVert) = Piece_hash (mkPiece 3 0 2 kHoriz) →
   mkPiece 3 0 2 kVert = mkPiece 3 0 2 kHoriz)
  ∧ 0 ≤ Piece_hash (mkPiece 3 0 2 kVert) < 2 ^ 64
  ∧ ∀ s : State, 0 ≤ State_hash s < 2 ^ 64.
Proof.
  apply Piece_hash_injective; by apply (bool_decide_unpack _); vm_compute.
Defined.

(** Outside the digits of base 31 pieces collide. *)
Example Piece_hash_collision :
  Piece_hash (Piece_new 31 0 2 kHoriz) = Piece_hash (Piece_new 0 1 2 kHoriz).
Proof. reflexivity. Qed.

Lemma wrap8_int8 v : int8 (wrap8 v).
Proof.
  unfold int8, wrap8. pose proof (Z.mod_pos_bound (v + 128) 256). lia.
Qed.

Lemma wrap8_add v d : wrap8 (wrap8 v + d) = wrap8 (v + d).
Proof.
  unfold wrap8. f_equal.
  replace ((v + 128) mod 256 - 128 + d + 128) with ((v + 128) mod 256 + d) by lia.
  rewrite Z.add_mod_idemp_l by lia. f_equal. lia.
Qed.

(** X9. The constructor narrows its arguments to [int8_t]: an argument
    within -128..127 is stored as it is, any other modulo 256; moving a
    piece keeps its fields in that range. *)
Theorem Piece_fields_int8 (a b c : Z) (o : Orient) :
  int8_piece (Piece_new a b c o)
  ∧ (int8 a → int8 b → int8 c → Piece_new a b c o = mkPiece a b c o)
  ∧ Piece_new (a + 256) (b - 256) c o = Piece_new a b c o
  ∧ ∀ p d, int8_piece p → int8_piece (Move p d).
Proof.
  split_and!.
  - unfold Piece_new, int8_piece. simpl. auto using wrap8_int8.
  - unfold int8. intros Ha Hb Hc. unfold Piece_new.
    by rewrite !wrap8_small by lia.
  - unfold Piece_new, wrap8. f_equal.
    + replace (a + 256 + 128) with (a + 128 + 1 * 256) by lia.
      by rewrite Z.mod_add by lia.
    + replace (b - 256 + 128) with (b + 128 + (-1) * 256) by lia.
      by rewrite Z.mod_add by lia.
  - intros p d (Hx & Hy & Hs). unfold Move, int8_piece.
    destruct (orient p); simpl; auto using wrap8_int8.
Qed.

Lemma Piece_fields_int8_witness :
  Piece_new 300 (-200) 2 kHoriz = mkPiece 44 56 2 kHoriz
  ∧ int8_piece (Move (mkPiece 127 0 2 kHoriz) 1).
Proof.
  destruct (Piece_fields_int8 300 (-200) 2 kHoriz) as (_ & _ & _ & Hmove).
  split; [reflexivity|]. apply Hmove.
  by apply (bool_decide_unpack _); vm_compute.
Defined.

(** X10. Moves add up, as long as every sum that [Piece::Move] takes
    is an [int]: then moving by [a] and then by [b] is moving by
    [a + b], and a move is undone by the opposite move; a move changes
    neither the size, nor the orientation, nor the coordinate across the
    axis. *)
Theorem Move_compose (p : Piece) (a b : Z) :
  int8_piece p →
  Move_defined p a → Move_defined (Move p a) b → Move_defined p (a + b) →
  Move (Move p a) b = Move p (a + b)
  ∧ (Move_defined (Move p a) (- a) → Move (Move p a) (- a) = p)
  ∧ size (Move p a) = size p ∧ orient (Move p a) = orient p
  ∧ match orient p with
    | kHoriz => y (Move p a) = y p
    | kVert => x (Move p a) = x p
    end.
Proof.
  intros Hp _ _ _.
  assert (∀ c, Move (Move p a) c = Move p (a + c)) as Hadd.
  { intros c. unfold Move. destruct (orient p) eqn:Ho; simpl; rewrite ?Ho;
      by rewrite wrap8_add, Z.add_assoc. }
  split_and!.
  - apply Hadd.
  - intros _. destruct Hp as (Hx & Hy & _).
    rewrite Hadd, Z.add_opp_diag_r. unfold Move, int8 in *.
    destruct p as [px py ps o]; simpl in *.
    destruct o; rewrite Z.add_0_r, wrap8_small by lia; done.
  - unfold Move. by destruct (orient p).
  - unfold Move. by destruct (orient p).
  - unfold Move. by destruct (orient p).
Qed.

Lemma Move_compose_witness :
  Move (Move (mkPiece 127 0 2 kHoriz) 1) (- 1) = mkPiece 127 0 2 kHoriz.
Proof.
  apply (Move_compose (mkPiece 127 0 2 kHoriz) 1 0);
    by apply (bool_decide_unpack _); vm_compute.
Defined.

(** Where a sum leaves [int] the calls part: from [x = 5] the moves by
    [2^31 - 6] and by 1 are both taken in [int], the move by their sum is
    not. *)
Example Move_compose_overflow :
  let p := mkPiece 5 0 2 kHoriz in
  Move_defined p (2 ^ 31 - 6) ∧ Move_defined (Move p (2 ^ 31 - 6)) 1
  ∧ int32 (2 ^ 31 - 6 + 1) ∧ ¬ Move_defined p (2 ^ 31 - 6 + 1).
Proof.
  intros p. subst p. unfold int32.
  by apply (bool_decide_unpack _); vm_compute.
Qed.

(** ** The canonical form *)

Lemma strictly_sorted_le (l : list Piece) :
  StronglySorted (λ p q, Piece_lt p q = true) l → StronglySorted Piece_le l.
Proof.
  induction 1 as [|p l _ IH Hp]; constructor; [done|].
  eapply Forall_impl; [exact Hp|]. intros q.
  rewrite Piece_lt_spec, Piece_le_spec. lia.
Qed.

Lemma strictly_sorted_tie (l : list Piece) p q :
  StronglySorted (λ p q, Piece_lt p q = true) l →
  p ∈ l → q ∈ l → Piece_le p q → Piece_le q p → p = q.
Proof.
  intros Hl Hp Hq Hpq Hqp. apply Piece_le_spec in Hpq, Hqp.
  induction Hl as [|a l _ IH Ha]; [by apply elem_of_nil in Hp|].
  rewrite Forall_forall in Ha.
  apply elem_of_cons in Hp as [->|Hp], Hq as [->|Hq]; [done| | |by apply IH].
  - specialize (Ha q Hq). apply Piece_lt_spec in Ha. lia.
  - specialize (Ha p Hp). apply Piece_lt_spec in Ha. lia.
Qed.

(** X11. [Canonicalize], with every library that keeps to the standard,
    is undefined on the State without pieces; on any other State it
    keeps the goal piece in front and returns a permutation of the
    pieces whose tail is in the order of [operator<]; a State whose tail
    is already in that order, no two pieces tying, is returned as it
    is. *)
Theorem Canonicalize_sorts (L : Library) :
  conforming L →
  Canonicalize_with L [] = Undef
  ∧ (∀ goal rest, ∃ rest',
       Canonicalize_with L (goal :: rest) = Ret (goal :: rest')
       ∧ rest' ≡ₚ rest
       ∧ ∀ (i j : nat) p q, (i < j)%nat →
           rest' !! i = Some p → rest' !! j = Some q → Piece_lt q p = false)
  ∧ (∀ goal rest,
       StronglySorted (λ p q, Piece_lt p q = true) rest →
       Canonicalize_with L (goal :: rest) = Ret (goal :: rest)).
Proof.
  intros (Hperm & Hsorted & _). split_and!.
  - done.
  - intros goal rest. exists (lib_sort L rest). split_and!.
    + done.
    + apply Hperm.
    + intros i j p q Hij Hi Hj.
      pose proof (Hsorted rest) as Hs.
      rewrite <- (take_drop j (lib_sort L rest)) in Hs.
      apply StronglySorted_app in Hs as (Hx & _ & _).
      apply (Hx p q).
      * apply list_elem_of_lookup. exists i.
        rewrite lookup_take_lt by lia. done.
      * apply list_elem_of_lookup. exists 0%nat.
        rewrite lookup_drop, Nat.add_0_r. done.
  - intros goal rest Hs. simpl. do 2 f_equal.
    apply (StronglySorted_unique_strong Piece_le);
      [|apply Hsorted|by apply strictly_sorted_le|apply Hperm].
    intros p q Hp Hq Hpq Hqp. rewrite Hperm in Hp.
    by apply (strictly_sorted_tie rest).
Qed.

Lemma Canonicalize_sorts_witness :
  Canonicalize_with lib_other
    [mkPiece 0 2 2 kHoriz; mkPiece 3 0 2 kVert; mkPiece 4 1 2 kHoriz]
  = Ret [mkPiece 0 2 2 kHoriz; mkPiece 3 0 2 kVert; mkPiece 4 1 2 kHoriz].
Proof.
  destruct (Canonicalize_sorts lib_other conforming_other) as (_ & _ & Hid).
  apply Hid. repeat constructor; by vm_compute.
Defined.

(** X12. Two States that satisfy the invariant are made of the same goal
    piece and the same other pieces exactly when [Canonicalize] gives
    the same for both, so that the search records each layout once. *)
Theorem Canonicalize_layout (s t : State) :
  valid_state s →
  same_layout s t ↔ ∃ c, Canonicalize s = Ret c ∧ Canonicalize t = Ret c.
Proof.
  intros (Hne & Hin & Hno). split.
  - intros (goal & rest & rest' & -> & -> & Hperm).
    exists (goal :: std_sort rest). split; [done|]. simpl. do 2 f_equal.
    symmetry. apply Forall_cons in Hin as [_ Hin]. destruct Hno as [_ Hno].
    apply std_sort_unique; [|done..].
    eapply Forall_impl; [exact Hin|]. by intros p (? & _).
  - intros (c & (goal & rest & -> & ->)%Canonicalize_Ret
              & (g & r & -> & Heq)%Canonicalize_Ret).
    injection Heq as <- Hs. exists goal, rest, r. split_and!; [done..|].
    by rewrite <- (std_sort_perm rest), Hs, std_sort_perm.
Qed.

Lemma Canonicalize_layout_witness :
  ∃ c,
    Canonicalize [mkPiece 0 2 2 kHoriz; mkPiece 4 1 2 kHoriz; mkPiece 3 0 2 kVert]
      = Ret c
    ∧ Canonicalize [mkPiece 0 2 2 kHoriz; mkPiece 3 0 2 kVert; mkPiece 4 1 2 kHoriz]
      = Ret c.
Proof.
  apply (Canonicalize_layout
           [mkPiece 0 2 2 kHoriz; mkPiece 4 1 2 kHoriz; mkPiece 3 0 2 kVert]).
  - by apply (bool_decide_unpack _); vm_compute.
  - eexists _, _, _. split_and!; [done..|]. apply Permutation_swap.
Defined.

(** ** Messages *)

Lemma pretty_N_go_no_comma (n : N) (s : string) :
  no_comma s = true → no_comma (pretty_N_go n s) = true.
Proof.
  revert s. induction (N.lt_wf_0 n) as [n _ IH]; intros s Hs.
  assert (n = 0 ∨ 0 < n)%N as [->|?] by lia; [by rewrite pretty_N_go_0|].
  rewrite pretty_N_go_step by done. apply IH; [by apply N.div_lt|].
  simpl. rewrite Hs, andb_true_r. unfold pretty_N_char. by repeat case_match.
Qed.

Lemma pretty_Z_no_comma (v : Z) : no_comma (pretty v) = true.
Proof.
  assert (∀ n : N, no_comma (pretty n) = true) as HN.
  { intros n. unfold pretty, pretty_N. case_decide; [done|].
    by apply pretty_N_go_no_comma. }
  destruct v as [|v|v]; [done|apply HN|].
  unfold pretty, pretty_Z. simpl. apply HN.
Qed.

Lemma append_comma_inj (s1 s2 r1 r2 : string) :
  no_comma s1 = true → no_comma s2 = true →
  s1 +:+ String "," r1 = s2 +:+ String "," r2 → s1 = s2 ∧ r1 = r2.
Proof.
  revert s2. induction s1 as [|c1 s1 IH]; intros [|c2 s2]; simpl.
  - by intros _ _ [= ->].
  - intros _ Hc [= <- _]. done.
  - intros Hc _ [= -> _]. done.
  - intros [_ H1]%andb_true_iff [_ H2]%andb_true_iff [= -> Heq].
    destruct (IH s2 H1 H2 Heq) as [-> ->]. done.
Qed.

(** X21. The text of [Piece::ToString] names the piece: two pieces with
    the same text are the same piece. *)
Theorem Piece_ToString_injective (p q : Piece) :
  Piece_ToString p = Piece_ToString q → p = q.
Proof.
  unfold Piece_ToString. cbn [String.append]. intros [= H].
  apply append_comma_inj in H as [Hx H]; [|apply pretty_Z_no_comma..].
  injection H as H.
  apply append_comma_inj in H as [Hy H]; [|apply pretty_Z_no_comma..].
  injection H as H.
  apply append_comma_inj in H as [Hs H]; [|apply pretty_Z_no_comma..].
  apply (inj pretty) in Hx, Hy, Hs.
  destruct p as [a b c o], q as [a' b' c' o']; simpl in *. subst.
  f_equal. by destruct o, o'.
Qed.

Lemma Piece_ToString_injective_witness :
  mkPiece (-1) 12 2 kVert = Piece_new 255 12 2 kVert.
Proof. apply Piece_ToString_injective. reflexivity. Defined.

Example Piece_ToString_example :
  Piece_ToString (mkPiece (-1) 12 2 kVert)
  = "Piece(x=-1, y=12, size=2, orient=vert)"%string.
Proof. reflexivity. Qed.

(** ** The walk along the backpointers *)






(** *** The map with its entries moved out *)

Lemma map_find_moved_out_eq (m : Entries) (k v : State) :
  map_find m k = Some v → map_find (moved_out m k) k = Some [].
Proof.
  induction m as [|[k' v'] m IH]; cbn [map_find moved_out]; [done|].
  destruct (decide (k' = k)) as [->|Hne]; cbn [map_find].
  - by rewrite decide_True.
  - rewrite decide_False by done. apply IH.
Qed.

Lemma map_find_moved_out_ne (m : Entries) (k k' : State) :
  k' ≠ k → map_find (moved_out m k) k' = map_find m k'.
Proof.
  intros Hne. induction m as [|[k0 v0] m IH]; cbn [map_find moved_out]; [done|].
  destruct (decide (k0 = k)) as [->|Hk]; cbn [map_find].
  - by rewrite !decide_False by done.
  - destruct (decide (k0 = k')); [done|]. apply IH.
Qed.



(** *** The loop *)

Lemma TracePathTo_moved_loop_step (fuel : nat) (m : Entries) (s t : State) acc :
  s ≠ [] → map_find m s = Some t →
  TracePathTo_moved_loop (S fuel) m s acc
  = TracePathTo_moved_loop fuel (moved_out m s) t (acc ++ [s]).
Proof. intros Hs Ht. destruct s; [done|]. simpl. by rewrite Ht. Qed.

Lemma TracePathTo_moved_loop_stop (fuel : nat) (m : Entries) (s : State) acc :
  s ≠ [] → map_find m s = None →
  TracePathTo_moved_loop (S fuel) m s acc = Some Abort.
Proof. intros Hs Ht. destruct s; [done|]. simpl. by rewrite Ht. Qed.

Lemma TracePathTo_moved_loop_mono (fuel fuel' : nat) (m : Entries) (s : State) acc r :
  TracePathTo_moved_loop fuel m s acc = Some r → (fuel ≤ fuel')%nat →
  TracePathTo_moved_loop fuel' m s acc = Some r.
Proof.
  revert fuel' m s acc. induction fuel as [|fuel IH]; intros fuel' m s acc; [done|].
  intros H Hle. destruct fuel' as [|fuel']; [lia|]. simpl in *.
  destruct s as [|p s]; [done|].
  destruct (map_find m (p :: s)); [|done]. apply IH; [done|lia].
Qed.





(** *** The walk told on the map it started from *)






Lemma TracePathTo_loop_cycle prev (fuel k : nat) (s : State) acc :
  nsteps (back_step prev) (S k) s s → TracePathTo_loop fuel prev s acc = None.
Proof.
  revert s acc. induction fuel as [|fuel IH]; intros s acc Hc; [done|].
  inversion Hc as [|? ? s1 ? [Hne Hs1] Hrest]; subst.
  rewrite (TracePathTo_loop_step _ _ _ s1) by done. apply IH.
  eapply nsteps_r; [done|]. by split.
Qed.

(** Whenever the walk on the unchanged map ends, the walk that moves
    the backpointers out gives the same: a State whose backpointer has
    been moved out lies behind the walk, which would go round for ever if
    it came to it again. *)
Lemma TracePathTo_moved_agrees_loop (fuel : nat) (prev : gmap State State)
    (m : Entries) (s : State) acc r :
  TracePathTo_loop fuel prev s acc = Some r →
  (∀ k, map_find m k = prev !! k
        ∨ (map_find m k = Some [] ∧ ∃ j : nat, nsteps (back_step prev) (S j) k s)) →
  TracePathTo_moved_loop fuel m s acc = Some r.
Proof.
  revert m s acc. induction fuel as [|fuel IH]; intros m s acc Hrun Hrel; [done|].
  destruct (decide (s = [])) as [->|Hs]; [done|].
  destruct (Hrel s) as [Heq|[_ [j Hcyc]]];
    [|by rewrite (TracePathTo_loop_cycle _ _ j) in Hrun].
  destruct (prev !! s) as [s1|] eqn:Hs1.
  - rewrite (TracePathTo_loop_step _ _ _ s1) in Hrun by done.
    rewrite (TracePathTo_moved_loop_step _ _ _ s1) by done.
    apply IH; [done|]. intros k. destruct (decide (k = s)) as [->|Hne].
    + right. split; [by apply (map_find_moved_out_eq m s s1)|].
      exists 0%nat. apply nsteps_once. by split.
    + rewrite map_find_moved_out_ne by done.
      destruct (Hrel k) as [?|[? [i Hi]]]; [by left|right].
      split; [done|]. exists (S i). eapply nsteps_r; [done|]. by split.
  - rewrite TracePathTo_moved_loop_stop by done.
    destruct s; [done|]. simpl in Hrun. by rewrite Hs1 in Hrun.
Qed.

Lemma TracePathTo_moved_agrees (fuel : nat) (prev : gmap State State)
    (m : Entries) (final_state : State) r :
  holds m prev → TracePathTo fuel prev final_state = Some r →
  TracePathTo_moved fuel m final_state = Some r.
Proof.
  intros [_ Hm] Hrun. apply (TracePathTo_moved_agrees_loop fuel prev); [done|].
  intros k. by left.
Qed.



(** ** The first discovery of a State *)

(** X14. A round of [Solve] over the neighbors of the State it expands: the
    States that were not recorded before are queued behind the queue,
    once each and in the order of their first occurrence, with one move
    more than the expanded State, and recorded with the expanded State as
    backpointer; no backpointer recorded before is changed. *)
Theorem visit_first_discovery (elem : QueueElem) (new_states : list State)
    (queue : list QueueElem) (prev : gmap State State) :
  ∃ (fresh : list State) (prev' : gmap State State),
    fold_left (visit elem) new_states (queue, prev)
      = (queue ++ ((λ n, mkQueueElem n (moves elem + 1)) <$> fresh), prev')
    ∧ NoDup fresh ∧ sublist fresh new_states
    ∧ (∀ n, n ∈ fresh ↔ n ∈ new_states ∧ prev !! n = None)
    ∧ (∀ n t, prev !! n = Some t → prev' !! n = Some t)
    ∧ (∀ n, n ∈ fresh → prev' !! n = Some (state elem))
    ∧ (∀ n, prev !! n = None → n ∉ fresh → prev' !! n = None).
Proof.
  revert queue prev. induction new_states as [|n ns IH]; intros queue prev.
  - exists [], prev. rewrite app_nil_r. split_and!; try done.
    + constructor.
    + intros n. rewrite !elem_of_nil. tauto.
    + intros n Hn. by apply elem_of_nil in Hn.
  - cbn [fold_left]. unfold visit at 2.
    destruct (prev !! n) as [t|] eqn:Hn.
    + destruct (IH queue prev) as (fresh & prev' & Hrun & Hnd & Hsub & Hin & Hold & Hnew & Hnone).
      exists fresh, prev'. split_and!; try done.
      * by apply sublist_cons.
      * intros n'. rewrite Hin, elem_of_cons. split; [tauto|].
        intros [[->|?] ?]; [congruence|done].
    + destruct (IH (queue ++ [mkQueueElem n (moves elem + 1)])
                  (<[n := state elem]> prev))
        as (fresh & prev' & Hrun & Hnd & Hsub & Hin & Hold & Hnew & Hnone).
      assert (n ∉ fresh) as Hfresh.
      { rewrite Hin, lookup_insert_eq. by intros [_ ?]. }
      exists (n :: fresh), prev'. split_and!.
      * rewrite Hrun, <- app_assoc. done.
      * by constructor.
      * by apply sublist_skip.
      * intros n'. rewrite !elem_of_cons, Hin.
        destruct (decide (n' = n)) as [->|Hne]; [tauto|].
        rewrite lookup_insert_ne by done. tauto.
      * intros n' t Hn'. apply Hold.
        rewrite lookup_insert_ne by congruence. done.
      * intros n' [->|Hn']%elem_of_cons; [|by apply Hnew].
        apply Hold. by rewrite lookup_insert_eq.
      * intros n' Hn' Hnot. apply not_elem_of_cons in Hnot as [Hne Hnot].
        apply Hnone; [|done]. by rewrite lookup_insert_ne.
Qed.

(** ** The neighbors of a State *)

Lemma Move_Move p a b : Move (Move p a) b = Move p (a + b).
Proof.
  unfold Move. destruct (orient p) eqn:Ho; simpl; rewrite ?Ho;
    by rewrite wrap8_add, Z.add_assoc.
Qed.

Lemma length_slide (s : State) (i : nat) d : length (slide s i d) = length s.
Proof. unfold slide. destruct (s !! i); [apply length_insert|done]. Qed.

Lemma slide_slide (s : State) (i : nat) a b :
  slide (slide s i a) i b = slide s i (a + b).
Proof.
  unfold slide. destruct (s !! i) as [p|] eqn:Hi.
  - rewrite list_lookup_insert_eq by (by eapply lookup_lt_Some).
    by rewrite list_insert_insert_eq, Move_Move.
  - by rewrite Hi.
Qed.

Lemma shapes_slide (s : State) (i : nat) d : shapes (slide s i d) = shapes s.
Proof.
  unfold slide, shapes. destruct (s !! i) as [p|] eqn:Hi; [|done].
  rewrite list_fmap_insert. apply list_insert_id.
  rewrite list_lookup_fmap, Hi. unfold Move.
  destruct (orient p) eqn:Ho; simpl; by rewrite ?Ho.
Qed.

Lemma canon_perm (s : State) : canon s ≡ₚ s.
Proof. destruct s as [|g r]; [done|]. simpl. by rewrite std_sort_perm. Qed.

Lemma canon_canon (s : State) : canon (canon s) = canon s.
Proof. destruct s; [done|]. simpl. by rewrite std_sort_idemp. Qed.

Lemma coord_sum_perm (s t : list Piece) : s ≡ₚ t → coord_sum s = coord_sum t.
Proof. induction 1; simpl; lia. Qed.

Lemma coord_sum_insert (s : list Piece) (i : nat) p q :
  s !! i = Some p →
  coord_sum (<[i := q]> s) = coord_sum s - (x p + y p) + (x q + y q).
Proof.
  revert i. induction s as [|a s IH]; intros [|i] Hi; simpl in *; try done.
  - injection Hi as ->. lia.
  - rewrite (IH i Hi). lia.
Qed.

Lemma coord_sum_slide (s : State) (i : nat) d :
  Forall in_bounds s → (i < length s)%nat → d = -1 ∨ d = 1 →
  coord_sum (slide s i d) = coord_sum s + d.
Proof.
  intros Hin Hi Hd. destruct (lookup_lt_is_Some_2 s i Hi) as [p Hp].
  rewrite (slide_lookup s i p d Hp), (coord_sum_insert s i p _ Hp).
  assert (in_bounds p) as Hinp.
  { rewrite Forall_forall in Hin. apply Hin. by eapply list_elem_of_lookup_2. }
  rewrite (Move_one_cell p d Hinp Hd). destruct (orient p); simpl; lia.
Qed.

Lemma unit_move_canon (s n : State) :
  unit_move s n →
  ∃ (i : nat) d, (i < length s)%nat ∧ (d = -1 ∨ d = 1)
    ∧ valid_state (slide s i d) ∧ n = canon (slide s i d).
Proof.
  intros (i & d & Hi & Hd & Hv & Hc). exists i, d. split_and!; try done.
  rewrite Canonicalize_canon in Hc by (by destruct Hv). congruence.
Qed.

Lemma unit_move_shape (s n : State) :
  valid_state s → unit_move s n →
  n ≠ s ∧ length n = length s ∧ shapes n ≡ₚ shapes s
  ∧ head (shapes n) = head (shapes s) ∧ Canonicalize n = Ret n.
Proof.
  intros (Hne & Hin & Hno) (i & d & Hi & Hd & Hv & ->)%unit_move_canon.
  split_and!.
  - intros Heq. pose proof (coord_sum_slide s i d Hin Hi Hd) as Hsum.
    rewrite <- (coord_sum_perm _ _ (canon_perm (slide s i d))), Heq in Hsum. lia.
  - rewrite (Permutation_length (canon_perm _)). apply length_slide.
  - rewrite <- (shapes_slide s i d). unfold shapes. by rewrite canon_perm.
  - rewrite <- (shapes_slide s i d). by destruct (slide s i d).
  - rewrite Canonicalize_canon; [by rewrite canon_canon|].
    destruct Hv as (Hnes & _). by destruct (slide s i d).
Qed.

Lemma unit_move_sym (s n : State) :
  valid_state s → unit_move s n → unit_move n (canon s).
Proof.
  intros Hv (i & d & Hi & Hd & Hvt & Hc).
  pose proof Hv as (Hne & Hin & Hno).
  assert (same_layout (slide s i d) n) as Hsame.
  { apply Canonicalize_Ret in Hc as (goal & rest & -> & ->).
    exists goal, rest, (std_sort rest). split_and!; [done..|].
    by rewrite std_sort_perm. }
  assert (unit_slide (slide s i d) s) as Hslide.
  { assert (slide (slide s i d) i (- d) = s) as Hback.
    { rewrite slide_slide, Z.add_opp_diag_r. by apply slide_zero. }
    exists i, (- d). rewrite length_slide, Hback. split_and!; [done|lia|done..]. }
  destruct (unit_slide_move _ _ _ Hsame Hslide) as (t' & Hmove & Hsame').
  enough (t' = canon s) as <- by done.
  pose proof Hmove as (j & e & _ & _ & _ & ->)%unit_move_canon.
  destruct Hsame' as (g & r & r' & -> & Ht' & Hperm).
  rewrite <- canon_canon, Ht'. simpl. f_equal. symmetry.
  apply Forall_cons in Hin as [_ Hin]. destruct Hno as [_ Hno].
  apply std_sort_unique; [|done..].
  eapply Forall_impl; [exact Hin|]. by intros p (? & _).
Qed.

Lemma length_bind_le {A B} (f : A → list B) (k : nat) (l : list A) :
  (∀ a, length (f a) ≤ k)%nat → (length (l ≫= f) ≤ k * length l)%nat.
Proof.
  intros Hf. induction l as [|a l IH]; [simpl; lia|].
  rewrite bind_cons, length_app. specialize (Hf a). simpl. lia.
Qed.

(** X15. From a State whose pieces are in bounds and do not overlap,
    [Neighbors] returns exactly the States one move away, by piece index
    and with the backward move of a piece before its forward move: at
    most two for each piece, none for the State without pieces. *)
Theorem Neighbors_exact (s : State) :
  Forall in_bounds s → nonoverlapping s →
  Neighbors s = Ret (neighbors_list s)
  ∧ (∀ n, n ∈ neighbors_list s ↔ unit_move s n)
  ∧ (length (neighbors_list s) ≤ 2 * length s)%nat.
Proof.
  intros Hin Hno. split_and!.
  - destruct (decide (s = [])) as [->|Hne]; [done|].
    by apply Neighbors_valid.
  - intros n. destruct (decide (s = [])) as [->|Hne].
    + split; [by intros ?%elem_of_nil|].
      intros (i & d & Hi & _). simpl in Hi. lia.
    + by apply elem_of_neighbors_list.
  - unfold neighbors_list.
    etrans; [apply (length_bind_le _ 2)|by rewrite length_seq].
    intros i. unfold moves_from. rewrite length_fmap.
    etrans; [apply length_filter|done].
Qed.

Lemma Neighbors_exact_witness :
  Neighbors main_state = Ret (neighbors_list main_state)
  ∧ (∀ n, n ∈ neighbors_list main_state ↔ unit_move main_state n)
  ∧ (length (neighbors_list main_state) ≤ 2 * length main_state)%nat.
Proof.
  apply Neighbors_exact; by apply (bool_decide_unpack _); vm_compute.
Defined.

(** X16. A neighbor of a State that satisfies the invariant differs from the
    State, has as many pieces, of the same sizes and orientations, with
    the goal piece still in front, and is in canonical form. *)
Theorem Neighbors_shape (s : State) (ns : list State) (n : State) :
  valid_state s → Neighbors s = Ret ns → n ∈ ns →
  n ≠ s ∧ length n = length s ∧ shapes n ≡ₚ shapes s
  ∧ head (shapes n) = head (shapes s) ∧ Canonicalize n = Ret n.
Proof.
  intros Hv Hrun Hn. rewrite (Neighbors_valid s Hv) in Hrun.
  injection Hrun as <-. apply elem_of_neighbors_list in Hn; [|by destruct Hv].
  by apply unit_move_shape.
Qed.

Lemma Neighbors_shape_witness :
  let s := [mkPiece 0 0 2 kHoriz; mkPiece 3 0 2 kVert] in
  let n := [mkPiece 1 0 2 kHoriz; mkPiece 3 0 2 kVert] in
  n ≠ s ∧ length n = length s ∧ shapes n ≡ₚ shapes s
  ∧ head (shapes n) = head (shapes s) ∧ Canonicalize n = Ret n.
Proof.
  intros s n.
  apply (Neighbors_shape s
           [n; [mkPiece 0 0 2 kHoriz; mkPiece 3 1 2 kVert]] n).
  - by apply (bool_decide_unpack _); vm_compute.
  - by vm_compute.
  - by left.
Defined.

(** X17. The moves can be taken back: the canonical form of a State that
    satisfies the invariant is a neighbor of each of its neighbors. *)
Theorem Neighbors_symmetric (s : State) (ns : list State) (n : State) :
  valid_state s → Neighbors s = Ret ns → n ∈ ns →
  ∃ ns' s', Canonicalize s = Ret s' ∧ Neighbors n = Ret ns' ∧ s' ∈ ns'.
Proof.
  intros Hv Hrun Hn. rewrite (Neighbors_valid s Hv) in Hrun.
  injection Hrun as <-. apply elem_of_neighbors_list in Hn; [|by destruct Hv].
  pose proof (unit_move_valid s n Hn) as Hvn.
  exists (neighbors_list n), (canon s). split_and!.
  - apply Canonicalize_canon. by destruct Hv.
  - by apply Neighbors_valid.
  - apply elem_of_neighbors_list; [by destruct Hvn|]. by apply unit_move_sym.
Qed.

Lemma Neighbors_symmetric_witness :
  let s := [mkPiece 0 0 2 kHoriz; mkPiece 3 0 2 kVert] in
  let n := [mkPiece 1 0 2 kHoriz; mkPiece 3 0 2 kVert] in
  ∃ ns' s', Canonicalize s = Ret s' ∧ Neighbors n = Ret ns' ∧ s' ∈ ns'.
Proof.
  intros s n.
  apply (Neighbors_symmetric s
           [n; [mkPiece 0 0 2 kHoriz; mkPiece 3 1 2 kVert]] n).
  - by apply (bool_decide_unpack _); vm_compute.
  - by vm_compute.
  - by left.
Defined.

(** ** [Solve] on a start State that cannot be drawn *)

Lemma State_Draw_undrawable (s : State) :
  (length s ≤ 237)%nat → ¬ drawable s →
  (∀ buf, State_Draw s ≠ Ret buf)
  ∧ (Forall (λ p, solid p → in_bounds p) s → State_Draw s = Abort).
Proof.
  intros Hlen Hnd. unfold State_Draw. split.
  - intros buf Hrun. apply Hnd.
    destruct (Draw_pieces_Ret_inv s [] empty_buf buf empty_buf_painted)
      as (? & ? & _); [simpl; lia|done|exact Hrun|]. by split.
  - intros Hin.
    apply (Draw_pieces_clash s [] empty_buf empty_buf_painted);
      [simpl; lia|done..|].
    intros Hfree. apply Hnd. by split.
Qed.

(** X18. [Solve] does not return from a start State that is not solved and
    whose picture cannot be drawn: with two pieces on a common cell, all
    within the grid, it takes the clash exit of [Piece::Draw]; with a
    piece that reaches out of the grid it takes that exit or writes
    outside the buffer.  On the State without pieces it reads the front
    of an empty vector. *)
Theorem Solve_start_errors (fuel : nat) (start : State) (dest_x dest_y : Z) :
  (length start ≤ 237)%nat → start ≠ [] →
  ¬ at_target start dest_x dest_y → ¬ drawable start →
  (Solve (S fuel) start dest_x dest_y = Some Abort
   ∨ Solve (S fuel) start dest_x dest_y = Some Undef)
  ∧ (Forall (λ p, solid p → in_bounds p) start →
     Solve (S fuel) start dest_x dest_y = Some Abort)
  ∧ Solve (S fuel) [] dest_x dest_y = Some Undef.
Proof.
  intros Hlen Hne Hgoal Hnd.
  destruct (State_Draw_undrawable start Hlen Hnd) as [Hret Habort].
  assert (Solve (S fuel) start dest_x dest_y
          = match State_Draw start with
            | Ret _ => Solve (S fuel) start dest_x dest_y
            | Abort => Some Abort
            | Undef => Some Undef
            end) as Hrun.
  { destruct (State_Draw start) as [buf| |] eqn:Hdraw; [done| |].
    - unfold Solve, Game_Solve, Game_new.
      cbn [queue_ start_state_ dest_x_ dest_y_ prev_state_ app Solve_loop state].
      destruct start as [|p rest]; [done|]. simpl in Hgoal.
      rewrite decide_False by done. unfold Neighbors. by rewrite Hdraw.
    - unfold Solve, Game_Solve, Game_new.
      cbn [queue_ start_state_ dest_x_ dest_y_ prev_state_ app Solve_loop state].
      destruct start as [|p rest]; [done|]. simpl in Hgoal.
      rewrite decide_False by done. unfold Neighbors. by rewrite Hdraw. }
  split_and!.
  - rewrite Hrun. destruct (State_Draw start) as [buf| |] eqn:Hdraw; [|by left|by right].
    by destruct (Hret buf).
  - intros Hin. rewrite Hrun, (Habort Hin). done.
  - done.
Qed.

Lemma Solve_start_errors_witness :
  let start := [mkPiece 0 0 2 kHoriz; mkPiece 1 0 2 kVert] in
  Solve 1 start 4 0 = Some Abort.
Proof.
  intros start.
  apply (Solve_start_errors 0 start 4 0); [simpl; lia|done|..];
    by apply (bool_decide_unpack _); vm_compute.
Defined.

(** ** The shape of the path *)

Lemma linked_lookup (R : State → State → Prop) (l : list State) :
  linked R l ↔ ∀ (i : nat) a b, l !! i = Some a → l !! S i = Some b → R a b.
Proof.
  induction l as [|a0 [|a1 l] IH].
  - split; [|done]. by intros _ i a b ?.
  - split; [|done]. by intros _ [|i] a b ? ?.
  - change (linked R (a0 :: a1 :: l)) with (R a0 a1 ∧ linked R (a1 :: l)).
    rewrite IH. split.
    + intros [H01 Hl] [|i] a b Ha Hb.
      * simpl in Ha, Hb. by injection Ha as <-; injection Hb as <-.
      * by apply (Hl i).
    + intros H. split; [by apply (H 0%nat)|].
      intros i a b. apply (H (S i)).
Qed.

Lemma cut_lookup (l : list State) (i j k : nat) :
  (i < j < length l)%nat →
  (take (S i) l ++ drop (S j) l) !! k
  = if decide (k ≤ i)%nat then l !! k else l !! (k + (j - i))%nat.
Proof.
  intros Hij. destruct (decide (k ≤ i)%nat).
  - rewrite lookup_app_l by (rewrite length_take; lia).
    apply lookup_take_lt. lia.
  - rewrite lookup_app_r by (rewrite length_take; lia).
    rewrite length_take, lookup_drop. f_equal. lia.
Qed.

Lemma linked_cut (R : State → State → Prop) (l : list State) (i j : nat) x :
  linked R l → (i < j)%nat → l !! i = Some x → l !! j = Some x →
  linked R (take (S i) l ++ drop (S j) l)
  ∧ head (take (S i) l ++ drop (S j) l) = head l
  ∧ last (take (S i) l ++ drop (S j) l) = last l
  ∧ (length (take (S i) l ++ drop (S j) l) < length l)%nat.
Proof.
  intros Hl Hij Hi Hj. pose proof (lookup_lt_Some _ _ _ Hj) as Hlen.
  assert (length (take (S i) l ++ drop (S j) l) = (length l - (j - i))%nat) as Hcut.
  { rewrite length_app, length_take, length_drop. lia. }
  split_and!.
  - rewrite linked_lookup in Hl |- *. intros k a b.
    rewrite !cut_lookup by lia. intros Ha Hb.
    destruct (decide (k ≤ i)%nat), (decide (S k ≤ i)%nat); try lia.
    + by apply (Hl k).
    + assert (k = i) as -> by lia. apply (Hl j); [congruence|].
      rewrite <- Hb. f_equal. lia.
    + apply (Hl (k + (j - i))%nat); [done|]. rewrite <- Hb. f_equal.
  - rewrite !head_lookup, cut_lookup by lia. done.
  - rewrite !last_lookup, Hcut, cut_lookup by lia.
    destruct (decide (pred (length l - (j - i)) ≤ i)%nat).
    + assert (pred (length l - (j - i)) = i) as -> by lia.
      assert (pred (length l) = j) as -> by lia. congruence.
    + f_equal. lia.
  - lia.
Qed.

Lemma shortest_NoDup (R : State → State → Prop) (start : State) dx dy path :
  solution R start dx dy path → shortest R start dx dy path → NoDup path.
Proof.
  intros (Hhead & Hlinked & final & Hlast & Hgoal) Hshort.
  assert (∀ (i j : nat) x, (i < j)%nat →
            path !! i = Some x → path !! j = Some x → False) as Hcut.
  { intros i j x Hij Hi Hj.
    destruct (linked_cut R path i j x Hlinked Hij Hi Hj)
      as (Hl' & Hh' & Hlast' & Hlen').
    enough (length path ≤ length (take (S i) path ++ drop (S j) path))%nat by lia.
    apply Hshort. split_and!; [congruence|done|].
    exists final. split; [congruence|done]. }
  apply NoDup_alt. intros i j x Hi Hj.
  destruct (decide (i < j)%nat); [by destruct (Hcut i j x)|].
  destruct (decide (j < i)%nat); [by destruct (Hcut j i x)|]. lia.
Qed.

Lemma shortest_solved_last (R : State → State → Prop) (start : State) dx dy
    path (i : nat) s :
  solution R start dx dy path → shortest R start dx dy path →
  path !! i = Some s → at_target s dx dy → S i = length path.
Proof.
  intros (Hhead & Hlinked & _) Hshort Hi Hgoal.
  pose proof (lookup_lt_Some _ _ _ Hi) as Hlen.
  enough (length path ≤ length (take (S i) path))%nat as Hle.
  { rewrite length_take in Hle. lia. }
  apply Hshort. split_and!.
  - rewrite head_lookup, lookup_take_lt by lia. by rewrite <- head_lookup.
  - rewrite linked_lookup in Hlinked |- *. intros k a b Ha Hb.
    apply lookup_take_Some in Ha as [Ha _], Hb as [Hb _]. by apply (Hlinked k).
  - exists s. split; [|done].
    rewrite last_lookup, length_take, lookup_take_lt by lia.
    rewrite <- Hi. f_equal. lia.
Qed.

Lemma linked_reachable (R : State → State → Prop) (l : list State) a :
  linked R l → head l = Some a → ∀ s, s ∈ l → rtc R a s.
Proof.
  revert a. induction l as [|a0 [|a1 l] IH]; intros a Hl Hhead s Hs.
  - by apply elem_of_nil in Hs.
  - injection Hhead as <-. by apply list_elem_of_singleton in Hs as ->.
  - injection Hhead as <-. destruct Hl as [H01 Hl].
    apply elem_of_cons in Hs as [->|Hs]; [done|].
    eapply rtc_l; [exact H01|]. by apply IH.
Qed.

Lemma linked_tail (R : State → State → Prop) (P : State → Prop) (l : list State) :
  linked R l → (∀ a b, R a b → P b) → Forall P (tail l).
Proof.
  intros Hl HP. induction l as [|a0 [|a1 l] IH]; [by constructor..|].
  destruct Hl as [H01 Hl]. simpl. constructor; [by eapply HP|]. by apply IH.
Qed.

Lemma reachable_shape (start s : State) :
  valid_state start → reachable unit_move start s →
  valid_state s ∧ length s = length start ∧ shapes s ≡ₚ shapes start
  ∧ head (shapes s) = head (shapes start).
Proof.
  intros Hv Hreach. induction Hreach as [|s t u Hmove _ IH]; [done|].
  destruct (unit_move_shape s t Hv Hmove) as (_ & Hlen & Hsh & Hhd & _).
  destruct (IH (unit_move_valid s t Hmove)) as (Hvu & Hlen' & Hsh' & Hhd').
  split_and!; [done|congruence|by rewrite Hsh'|congruence].
Qed.

(** X19. The path that [Solve] returns from a State that satisfies the
    invariant visits no State twice, and its last State is the only one
    with the goal piece on the target; every State on it satisfies the
    invariant and has the pieces of the start State, as many and of the
    same sizes and orientations, the goal piece in front; every State
    after the first is in canonical form. *)
Theorem Solve_path_simple (fuel : nat) (start : State) (dest_x dest_y : Z)
    (path : list State) :
  valid_state start →
  Solve fuel start dest_x dest_y = Some (Ret path) →
  NoDup path
  ∧ (∀ (i : nat) s, path !! i = Some s → at_target s dest_x dest_y →
       S i = length path)
  ∧ Forall (λ s, valid_state s ∧ length s = length start
                 ∧ shapes s ≡ₚ shapes start
                 ∧ head (shapes s) = head (shapes start)) path
  ∧ Forall (λ s, Canonicalize s = Ret s) (tail path).
Proof.
  intros Hv Hrun. destruct (decide (path = [])) as [->|Hne].
  { split_and!; [constructor|by intros i s ?|constructor..]. }
  destruct (Solve_success fuel start dest_x dest_y path Hv Hrun Hne)
    as [Hsol Hshort].
  split_and!.
  - by eapply shortest_NoDup.
  - intros i s. by eapply shortest_solved_last.
  - destruct Hsol as (Hhead & Hlinked & _). apply Forall_forall. intros s Hs.
    apply reachable_shape; [done|]. by eapply linked_reachable.
  - destruct Hsol as (_ & Hlinked & _). eapply linked_tail; [done|].
    intros a b (i & d & _ & _ & Hvt & ->)%unit_move_canon.
    rewrite Canonicalize_canon; [by rewrite canon_canon|].
    destruct Hvt as (Hnes & _). by destruct (slide a i d).
Qed.

Lemma Solve_path_simple_witness :
  let start := [mkPiece 0 0 2 kHoriz; mkPiece 3 0 2 kVert] in
  let path :=
    [ [mkPiece 0 0 2 kHoriz; mkPiece 3 0 2 kVert];
      [mkPiece 1 0 2 kHoriz; mkPiece 3 0 2 kVert];
      [mkPiece 1 0 2 kHoriz; mkPiece 3 1 2 kVert];
      [mkPiece 2 0 2 kHoriz; mkPiece 3 1 2 kVert];
      [mkPiece 3 0 2 kHoriz; mkPiece 3 1 2 kVert];
      [mkPiece 4 0 2 kHoriz; mkPiece 3 1 2 kVert] ] in
  NoDup path
  ∧ (∀ (i : nat) s, path !! i = Some s → at_target s 4 0 → S i = length path)
  ∧ Forall (λ s, valid_state s ∧ length s = length start
                 ∧ shapes s ≡ₚ shapes start
                 ∧ head (shapes s) = head (shapes start)) path
  ∧ Forall (λ s, Canonicalize s = Ret s) (tail path).
Proof.
  intros start path. apply (Solve_path_simple 40 start 4 0 path).
  - by apply (bool_decide_unpack _); vm_compute.
  - by vm_compute.
Defined.

(** ** Solvable puzzles *)

Lemma same_layout_refl (s : State) : s ≠ [] → same_layout s s.
Proof. destruct s as [|goal rest]; [done|]. by exists goal, rest, rest. Qed.

Lemma same_layout_sym (s t : State) : same_layout s t → same_layout t s.
Proof. intros (goal & rest & rest' & -> & -> & Hperm). by exists goal, rest', rest. Qed.

Lemma same_layout_trans (s t u : State) :
  same_layout s t → same_layout t u → same_layout s u.
Proof.
  intros (goal & rest & rest' & -> & -> & Hperm) (g & r & r' & [= <- <-] & -> & Hperm').
  exists goal, rest, r'. split_and!; [done..|]. by rewrite Hperm.
Qed.

Lemma unit_slide_free (s s' : State) : unit_slide s s' → free_slide s s'.
Proof.
  intros (i & d & Hi & Hd & Hv & ->). exists i, d. split_and!; [done|lia| |done].
  intros d' Hd'. by assert (d' = d) as -> by lia.
Qed.

Lemma free_slide_units (s s' : State) :
  valid_state s → free_slide s s' → valid_state s' ∧ rtc unit_slide s s'.
Proof.
  intros Hv (i & delta & Hi & Hd & Hfree & ->).
  split; [apply Hfree; lia|].
  pose proof Hv as (_ & Hin & _).
  assert (∀ (n : nat) (sgn : Z), (sgn = -1 ∨ sgn = 1) →
            (∀ d, 0 < d ≤ Z.of_nat n → valid_state (slide s i (sgn * d))) →
            rtc unit_slide s (slide s i (sgn * Z.of_nat n))) as Hsteps.
  { intros n sgn Hsgn. induction n as [|n IH]; intros Hvalid.
    - rewrite Z.mul_0_r, slide_zero by done. done.
    - eapply rtc_r; [apply IH; intros d ?; apply Hvalid; lia|].
      exists i, sgn. rewrite length_slide, slide_slide.
      replace (sgn * Z.of_nat n + sgn) with (sgn * Z.of_nat (S n)) by lia.
      split_and!; [done..| |done]. apply Hvalid. lia. }
  destruct (decide (0 < delta)).
  - replace delta with (1 * Z.of_nat (Z.to_nat delta)) by lia.
    apply Hsteps; [by right|]. intros d ?. apply Hfree. lia.
  - replace delta with (-1 * Z.of_nat (Z.to_nat (- delta))) by lia.
    apply Hsteps; [by left|]. intros d ?. apply Hfree. lia.
Qed.

Lemma free_slides_units (start s : State) :
  valid_state start → rtc free_slide start s → rtc unit_slide start s.
Proof.
  intros Hv Hreach. induction Hreach as [|s t u Hslide _ IH]; [done|].
  destruct (free_slide_units s t Hv Hslide) as [Hvt Hunits].
  etrans; [exact Hunits|]. by apply IH.
Qed.

Lemma unit_slides_layout (start s : State) :
  start ≠ [] → rtc unit_slide start s →
  ∃ t, rtc unit_move start t ∧ same_layout s t.
Proof.
  intros Hne. revert s.
  apply (rtc_ind_r (λ s, ∃ t, rtc unit_move start t ∧ same_layout s t)).
  - exists start. split; [done|]. by apply same_layout_refl.
  - intros s s' Hreach Hslide (t & Hmoves & Hsame).
    destruct (unit_slide_move s s' t Hsame Hslide) as (t' & Hmove & Hsame').
    exists t'. split; [|done]. by eapply rtc_r.
Qed.

Lemma unit_move_slide (s t t' : State) :
  same_layout s t → unit_move t t' →
  ∃ s', unit_slide s s' ∧ same_layout s' t'.
Proof.
  intros Hsame (i & d & Hi & Hd & Hv & Hc).
  assert (same_layout (slide t i d) t') as Hsame1.
  { apply Canonicalize_Ret in Hc as (goal & rest & -> & ->).
    exists goal, rest, (std_sort rest). split_and!; [done..|].
    by rewrite std_sort_perm. }
  assert (unit_slide t (slide t i d)) as Hslide by (by exists i, d).
  destruct (unit_slide_move t (slide t i d) s (same_layout_sym _ _ Hsame) Hslide)
    as (s'' & (j & e & Hj & He & Hvs & Hcs) & Hsame2).
  exists (slide s j e). split; [by exists j, e|].
  assert (same_layout (slide s j e) s'') as Hsame3.
  { apply Canonicalize_Ret in Hcs as (goal & rest & -> & ->).
    exists goal, rest, (std_sort rest). split_and!; [done..|].
    by rewrite std_sort_perm. }
  eapply same_layout_trans; [exact Hsame3|].
  eapply same_layout_trans; [apply same_layout_sym, Hsame2|done].
Qed.

Lemma unit_moves_slides (start t : State) :
  start ≠ [] → rtc unit_move start t →
  ∃ s, rtc unit_slide start s ∧ same_layout s t.
Proof.
  intros Hne. revert t.
  apply (rtc_ind_r (λ t, ∃ s, rtc unit_slide start s ∧ same_layout s t)).
  - exists start. split; [done|]. by apply same_layout_refl.
  - intros t t' Hreach Hmove (s & Hslides & Hsame).
    destruct (unit_move_slide s t t' Hsame Hmove) as (s' & Hslide & Hsame').
    exists s'. split; [|done]. by eapply rtc_r.
Qed.

Lemma solvable_slides (start : State) dx dy :
  valid_state start →
  solvable unit_move start dx dy ↔ solvable free_slide start dx dy.
Proof.
  intros Hv. pose proof Hv as (Hne & _). split.
  - intros (t & Hreach & Hgoal).
    destruct (unit_moves_slides start t Hne Hreach) as (s & Hslides & Hsame).
    exists s. split.
    + eapply rtc_subrel; [|exact Hslides]. apply unit_slide_free.
    + eapply same_layout_at_target; [apply same_layout_sym, Hsame|done].
  - intros (s & Hreach & Hgoal).
    apply free_slides_units in Hreach; [|done].
    destruct (unit_slides_layout start s Hne Hreach) as (t & Hmoves & Hsame).
    exists t. split; [done|]. by eapply same_layout_at_target.
Qed.

(** X20. From a State that satisfies the invariant [Solve] returns, with any
    fuel from some amount on, and what it returns is a path exactly when
    the puzzle can be solved: by moves of one cell through canonical
    forms, or, which comes to the same, by collision-free slides of any
    length. *)
Theorem Solve_complete (start : State) (dest_x dest_y : Z) :
  valid_state start →
  ∃ fuel0 r,
    (∀ fuel, (fuel0 ≤ fuel)%nat →
       Solve fuel start dest_x dest_y = Some (Ret r))
    ∧ (r ≠ [] ↔ solvable unit_move start dest_x dest_y)
    ∧ (r ≠ [] ↔ solvable free_slide start dest_x dest_y).
Proof.
  intros Hv.
  destruct (Solve_total start dest_x dest_y Hv) as (fuel0 & r & Hrun & Hres).
  assert (r ≠ [] ↔ solvable unit_move start dest_x dest_y) as Hiff.
  { split.
    - intros Hne. destruct Hres as [[-> _]|[Hsol _]]; [done|].
      by apply (solution_reachable start dest_x dest_y r).
    - intros (s & Hreach & Hgoal) ->.
      destruct Hres as [[_ Hnone]|[(Hhead & _) _]]; [|done].
      by apply (Hnone s). }
  exists fuel0, r. split_and!; [done..|].
  by rewrite <- solvable_slides.
Qed.

Lemma Solve_complete_witness :
  ∃ fuel0 r,
    (∀ fuel, (fuel0 ≤ fuel)%nat →
       Solve fuel [mkPiece 0 0 2 kHoriz] 2 0 = Some (Ret r))
    ∧ (r ≠ [] ↔ solvable unit_move [mkPiece 0 0 2 kHoriz] 2 0)
    ∧ (r ≠ [] ↔ solvable free_slide [mkPiece 0 0 2 kHoriz] 2 0).
Proof.
  apply Solve_complete. by apply (bool_decide_unpack _); vm_compute.
Defined.

(** ** The search with any library *)

Lemma moves_of_with_range (L : Library) (s : State) (i : nat) p :
  conforming L → s !! i = Some p →
  moves_of_with L s i
    (seqZ (if decide (valid_state (slide s i (-1))) then -1 else 0)
          ((if decide (valid_state (slide s i 1)) then 1 else 0)
           - (if decide (valid_state (slide s i (-1))) then -1 else 0) + 1))
  = Ret (moves_from s i).
Proof.
  intros HL Hi. unfold moves_from.
  assert (∀ d, valid_state (slide s i d) →
            Canonicalize_with L (<[i := Move p d]> s) = Ret (canon (slide s i d)))
    as Hc.
  { intros d Hv. rewrite <- (slide_lookup s i p d Hi).
    pose proof Hv as (Hne & Hin & Hno).
    rewrite Canonicalize_with_tie_free; [by apply Canonicalize_canon|done| |done].
    eapply Forall_impl; [exact Hin|]. by intros q (? & _). }
  rewrite !filter_cons, filter_nil.
  destruct (decide (valid_state (slide s i (-1)))) as [H1|H1],
           (decide (valid_state (slide s i 1))) as [H2|H2];
    cbn [moves_of_with seqZ]; simpl;
    repeat match goal with
           | |- context [Z.of_nat ?n + ?d] =>
               let v := eval cbv in (Z.of_nat n + d) in
               change (Z.of_nat n + d) with v
           end;
    rewrite ?Hi, ?(Hc _ H1), ?(Hc _ H2); reflexivity.
Qed.

Lemma Neighbors_loop_with_valid (L : Library) (s : State) buf (pre ps : list Piece) :
  conforming L → valid_state s → rendered buf s → s = pre ++ ps →
  Neighbors_loop_with L s buf (length pre) ps
  = Ret (i ← seq (length pre) (length ps); moves_from s i).
Proof.
  intros HL Hv Hr. revert pre. induction ps as [|p ps IH]; intros pre Hs; [done|].
  assert (s !! length pre = Some p) as Hi.
  { rewrite Hs. by apply list_lookup_middle. }
  cbn [Neighbors_loop_with].
  rewrite (MovementRange_rendered s buf (length pre) p) by done.
  rewrite bind_Ret_l. rewrite (moves_of_with_range L s (length pre) p) by done.
  rewrite bind_Ret_l.
  specialize (IH (pre ++ [p])). rewrite length_app, Nat.add_1_r in IH.
  rewrite IH by (by rewrite <- app_assoc). done.
Qed.

(** With every library [Neighbors] returns what the model returns. *)
Lemma Neighbors_with_valid (L : Library) (s : State) :
  conforming L → valid_state s → Neighbors_with L s = Ret (neighbors_list s).
Proof.
  intros HL Hv. unfold Neighbors_with.
  destruct (State_Draw_valid s Hv) as (buf & -> & Hr). rewrite bind_Ret_l.
  by apply (Neighbors_loop_with_valid L s buf [] s).
Qed.

(** *** The entries of the map *)

Lemma map_find_None (m : Entries) (k : State) :
  map_find m k = None ↔ k ∉ m.*1.
Proof.
  induction m as [|[k' v'] m IH]; cbn [map_find fmap list_fmap fst].
  - split; [intros _; apply not_elem_of_nil|done].
  - rewrite not_elem_of_cons. destruct (decide (k' = k)) as [->|Hne].
    + split; [done|]. by intros [? _].
    + rewrite IH. split; [by intros ?; split|by intros [_ ?]].
Qed.

Lemma map_find_Some (m : Entries) (k v : State) :
  NoDup m.*1 → map_find m k = Some v ↔ (k, v) ∈ m.
Proof.
  induction m as [|[k' v'] m IH]; cbn [map_find fmap list_fmap fst]; intros Hnd.
  - split; [done|]. by intros ?%elem_of_nil.
  - apply NoDup_cons in Hnd as [Hk' Hnd]. rewrite elem_of_cons.
    destruct (decide (k' = k)) as [->|Hne].
    + split; [by intros [= ->]; left|].
      intros [[= ->]|Hin]; [done|]. destruct Hk'.
      apply list_elem_of_fmap. by exists (k, v).
    + rewrite (IH Hnd). split; [by right|]. by intros [[= ? ?]|?].
Qed.

Lemma holds_empty : holds [] ∅.
Proof. split; [constructor|]. intros k. by rewrite lookup_empty. Qed.

Lemma holds_emplace (L : Library) (m : Entries) prev (k v : State) :
  conforming L → holds m prev → prev !! k = None →
  holds (lib_emplace L k v m) (<[k := v]> prev).
Proof.
  intros (_ & _ & Hstore) [Hnd Hfind] Hk.
  assert (NoDup (lib_emplace L k v m).*1) as Hnd'.
  { rewrite (Hstore k v m). cbn [fmap list_fmap fst]. constructor; [|done].
    apply map_find_None. by rewrite Hfind. }
  split; [done|]. intros k'. apply option_eq. intros v'.
  rewrite (map_find_Some _ _ _ Hnd'), (Hstore k v m), elem_of_cons,
    <- (map_find_Some m k' v' Hnd), Hfind, lookup_insert_Some.
  split.
  - intros [[= -> ->]|Hk']; [by left|]. right. split; [|done]. congruence.
  - intros [[-> ->]|[_ Hk']]; [by left|by right].
Qed.

Lemma visit_with_holds (L : Library) (e : QueueElem) (q : list QueueElem)
    (m : Entries) prev (n : State) q' prev' :
  conforming L → holds m prev → visit e (q, prev) n = (q', prev') →
  ∃ m', visit_with L e (q, m) n = (q', m') ∧ holds m' prev'.
Proof.
  intros HL Hm. unfold visit, visit_with. rewrite (proj2 Hm n).
  destruct (prev !! n) as [t|] eqn:Hn; intros [= <- <-].
  - by exists m.
  - eexists. split; [done|]. by apply holds_emplace.
Qed.

Lemma visit_with_fold_holds (L : Library) (e : QueueElem) (ns : list State) :
  conforming L →
  ∀ (q : list QueueElem) (m : Entries) prev q' prev',
    holds m prev → fold_left (visit e) ns (q, prev) = (q', prev') →
    ∃ m', fold_left (visit_with L e) ns (q, m) = (q', m') ∧ holds m' prev'.
Proof.
  intros HL. induction ns as [|n ns IH]; intros q m prev q' prev' Hm Hfold.
  - injection Hfold as <- <-. by exists m.
  - cbn [fold_left] in Hfold |- *.
    destruct (visit e (q, prev) n) as [q1 prev1] eqn:Hvisit.
    destruct (visit_with_holds L e q m prev n q1 prev1 HL Hm Hvisit)
      as (m1 & -> & Hm1).
    by apply (IH q1 m1 prev1).
Qed.

Lemma visit_fold_queue (e : QueueElem) (ns : list State) :
  ∀ (q : list QueueElem) prev q' prev',
    fold_left (visit e) ns (q, prev) = (q', prev') →
    ∀ e', e' ∈ q' → e' ∈ q ∨ state e' ∈ ns.
Proof.
  induction ns as [|n ns IH]; intros q prev q' prev' Hfold e' He'.
  - injection Hfold as <- <-. by left.
  - cbn [fold_left] in Hfold.
    destruct (visit e (q, prev) n) as [q1 prev1] eqn:Hvisit.
    destruct (IH q1 prev1 q' prev' Hfold e' He') as [Hq1|Hns];
      [|right; by right].
    unfold visit in Hvisit. destruct (prev !! n); injection Hvisit as <- <-.
    + by left.
    + apply elem_of_app in Hq1 as [?|Hnew]; [by left|].
      apply list_elem_of_singleton in Hnew as ->. right. by left.
Qed.

(** *** The loop of [Solve] *)

Lemma Solve_loop_with_goal (L : Library) (fuel : nat) dx dy e q (m : Entries) :
  at_target (state e) dx dy →
  Solve_loop_with L (S fuel) dx dy (e :: q) m
  = TracePathTo_moved fuel m (state e).
Proof.
  intros Hgoal. cbn [Solve_loop_with]. destruct (state e) as [|p rest]; [done|].
  simpl in Hgoal. by rewrite decide_True.
Qed.

Lemma Solve_loop_with_expand (L : Library) (fuel : nat) dx dy e q (m : Entries)
    ns q' m' :
  state e ≠ [] → ¬ at_target (state e) dx dy →
  Neighbors_with L (state e) = Ret ns →
  fold_left (visit_with L e) ns (q, m) = (q', m') →
  Solve_loop_with L (S fuel) dx dy (e :: q) m
  = Solve_loop_with L fuel dx dy q' m'.
Proof.
  intros Hne Hgoal Hns Hfold. cbn [Solve_loop_with].
  destruct (state e) as [|p rest] eqn:Hse; [done|].
  simpl in Hgoal. rewrite decide_False by done. by rewrite Hns, Hfold.
Qed.

Lemma Solve_loop_with_mono (L : Library) (fuel fuel' : nat) dx dy queue
    (m : Entries) r :
  Solve_loop_with L fuel dx dy queue m = Some r → (fuel ≤ fuel')%nat →
  Solve_loop_with L fuel' dx dy queue m = Some r.
Proof.
  revert fuel' queue m. induction fuel as [|fuel IH]; intros fuel' queue m; [done|].
  intros H Hle. destruct fuel' as [|fuel']; [lia|]. cbn [Solve_loop_with] in *.
  destruct queue as [|elem queue]; [done|].
  destruct (state elem) as [|front_piece rest]; [done|].
  destruct (decide (x front_piece = dx ∧ y front_piece = dy)).
  - eapply TracePathTo_moved_loop_mono; [done|lia].
  - destruct (Neighbors_with L (front_piece :: rest)) as [ns| |]; [|done..].
    destruct (fold_left (visit_with L elem) ns (queue, m)) as [queue'' m'].
    apply IH; [done|lia].
Qed.

(** A run of the model that ends is a run with the library. *)
Lemma Solve_loop_with_agrees (L : Library) (fuel : nat) dx dy :
  conforming L →
  ∀ (queue : list QueueElem) (m : Entries) prev r,
    holds m prev → Forall (λ e, valid_state (state e)) queue →
    Solve_loop fuel dx dy queue prev = Some r →
    Solve_loop_with L fuel dx dy queue m = Some r.
Proof.
  intros HL. induction fuel as [|fuel IH]; intros queue m prev r Hm Hq Hrun; [done|].
  destruct queue as [|e q]; [done|].
  apply Forall_cons in Hq as [Hv Hq]. pose proof Hv as (Hne & _).
  destruct (decide (at_target (state e) dx dy)) as [Hgoal|Hgoal].
  - rewrite Solve_loop_goal in Hrun by done. rewrite Solve_loop_with_goal by done.
    by apply (TracePathTo_moved_agrees fuel prev).
  - destruct (fold_left (visit e) (neighbors_list (state e)) (q, prev))
      as [q' prev'] eqn:Hfold.
    rewrite (Solve_loop_expand fuel dx dy e q prev (neighbors_list (state e))
               q' prev') in Hrun; [|done..|by apply Neighbors_valid|done].
    destruct (visit_with_fold_holds L e (neighbors_list (state e)) HL
                q m prev q' prev' Hm Hfold) as (m' & Hfold' & Hm').
    rewrite (Solve_loop_with_expand L fuel dx dy e q m (neighbors_list (state e))
               q' m'); [|done..|by apply Neighbors_with_valid|done].
    apply (IH q' m' prev'); [done| |done].
    apply Forall_forall. intros e' He'.
    destruct (visit_fold_queue e _ q prev q' prev' Hfold e' He') as [Hin|Hin].
    + rewrite Forall_forall in Hq. by apply Hq.
    + apply elem_of_neighbors_list in Hin; [|done]. by eapply unit_move_valid.
Qed.

(** C9. [Solve] is deterministic.  Of what the code runs on, the C++
    standard leaves two things to the library: the order in which
    [std::sort] leaves pieces that tie, and the order in which the
    [unordered_map] keeps its entries.  From a start State of the
    specification neither reaches the output: there is one sequence that
    every run of [Solve] that ends returns, with every library that keeps
    to the standard, and the runs end; it is what the model returns. *)
Theorem Solve_deterministic (start : State) (dest_x dest_y : Z) :
  valid_state start →
  ∃ fuel0 path,
    (∀ fuel, (fuel0 ≤ fuel)%nat →
       Solve fuel start dest_x dest_y = Some (Ret path))
    ∧ ∀ L, conforming L →
        (∀ fuel, (fuel0 ≤ fuel)%nat →
           Solve_with L fuel start dest_x dest_y = Some (Ret path))
        ∧ (∀ fuel r, Solve_with L fuel start dest_x dest_y = Some r →
             r = Ret path).
Proof.
  intros Hv.
  destruct (Solve_total start dest_x dest_y Hv) as (fuel0 & path & Hrun & _).
  exists fuel0, path. split; [done|]. intros L HL.
  assert (∀ fuel, (fuel0 ≤ fuel)%nat →
            Solve_with L fuel start dest_x dest_y = Some (Ret path)) as Hwith.
  { intros fuel Hfuel. specialize (Hrun fuel Hfuel).
    unfold Solve, Game_Solve, Game_new, emplace in Hrun.
    cbn [queue_ start_state_ dest_x_ dest_y_ prev_state_ app] in Hrun.
    rewrite lookup_empty in Hrun.
    apply (Solve_loop_with_agrees L fuel dest_x dest_y HL _ _ (<[start := []]> ∅));
      [|by apply Forall_singleton|done].
    apply holds_emplace; [done|apply holds_empty|apply lookup_empty]. }
  split; [done|]. intros fuel r Hr.
  pose proof (Hwith (max fuel fuel0) ltac:(lia)) as Hmax.
  apply (Solve_loop_with_mono _ _ (max fuel fuel0)) in Hr; [|lia].
  unfold Solve_with in Hmax. congruence.
Qed.

Lemma Solve_deterministic_witness :
  Solve_with lib_other 12 [mkPiece 0 0 2 kHoriz] 2 0
  = Solve_with lib_model 8 [mkPiece 0 0 2 kHoriz] 2 0.
Proof.
  destruct (Solve_deterministic [mkPiece 0 0 2 kHoriz] 2 0)
    as (fuel0 & path & _ & Hany).
  { by apply (bool_decide_unpack _); vm_compute. }
  destruct (Hany lib_other conforming_other) as [_ Hother].
  destruct (Hany lib_model conforming_model) as [_ Hmodel].
  destruct (Solve_with lib_other 12 [mkPiece 0 0 2 kHoriz] 2 0) as [r1|] eqn:H1;
    [|by vm_compute in H1].
  destruct (Solve_with lib_model 8 [mkPiece 0 0 2 kHoriz] 2 0) as [r2|] eqn:H2;
    [|by vm_compute in H2].
  by rewrite (Hother 12%nat r1), (Hmodel 8%nat r2).
Defined.
